(** * Tree Style History Viewer: the history page's core, verified

    A shallow embedding of [history.js] (the three variants of the page
    script): the tree builder and the duplicate collapser of
    [fetchAndBuildTree], the search projector [filterAndCloneTree], the
    canonical-tree slot [currentFullTree] across a rebuild, and the
    shift-click range selection of [handleShiftClickLogic].

    Conventions of the embedding.
    - Strings are Rocq strings; the empty string is JavaScript's only falsy
      string, and an absent property ([undefined]) is [None].
    - [String.prototype.toLowerCase] is the engine's and is a parameter
      here, the class [LowerCase]; what is assumed of it is what it does
      to ASCII strings.  Every theorem on the search holds for every such
      function; the examples are run with the lowering of A to Z.
    - [Array.prototype.sort] is stable, and so is the sort here.
    - The page script runs on one thread.  A rebuild is a sequence of
      synchronous pieces parted by its [await]s; other handlers run
      between the pieces.
    - [visitTime] is a JavaScript number used only through comparisons; it
      is an integer here.
    - [nodes] is a JavaScript object used as a table from visit id to node
      object; it is a [gmap] that answers own keys only.  The ids are those
      of [chrome.history] (decimal numerals), never the name of a property
      inherited from [Object.prototype].
    - A node object created by the builder lives in [nodes] under its visit
      id, one object per id, so a reference to it is written as that id. *)

From stdpp Require Import base option list gmap strings finite sorting.
From Stdlib Require Import ZArith Lia Ascii.

Local Open Scope Z_scope.
Local Open Scope nat_scope.

(** ** Data model *)

(** A [VisitItem] of [chrome.history.getVisits]. *)
Record VisitItem := mkVisitItem {
  visitId : string;
  referringVisitId : option string;
  visitTime : Z;
  transition : string
}.

(** A [HistoryItem] of [chrome.history.search]. *)
Record HistoryItem := mkHistoryItem {
  url : option string;
  title : option string
}.

(** The value stored in [allVisitsMap]: [{ visitData, historyItem }]. *)
Record NodeData := mkNodeData {
  visitData : VisitItem;
  historyItem : option HistoryItem
}.

(** JavaScript truthiness of a string value. *)
Definition truthy (s : string) : bool := negb (String.eqb s EmptyString).

Definition truthy_opt (o : option string) : bool :=
  match o with Some s => truthy s | None => false end.

(** [allVisitsMap] is a JavaScript [Map]: insertion ordered, one entry per
    key.  It is the list of its entries in insertion order together with
    [NoDup] of the keys. *)
Definition VisitMap := list (string * NodeData).

Definition keys (allVisitsMap : VisitMap) : list string := allVisitsMap.*1.

(** ** 4.1 The normalizer: the [visits.forEach] body of step 3 *)

Definition map_has (allVisitsMap : VisitMap) (k : string) : bool :=
  bool_decide (k ∈ keys allVisitsMap).

Definition addVisit (startTime endTime : Z) (item : HistoryItem)
    (allVisitsMap : VisitMap) (visit : VisitItem) : VisitMap :=
  if (startTime <=? visitTime visit)%Z && (visitTime visit <=? endTime)%Z then
    if String.eqb (transition visit) "reload" then allVisitsMap
    else if negb (map_has allVisitsMap (visitId visit)) then
      allVisitsMap ++ [(visitId visit, mkNodeData visit (Some item))]
    else allVisitsMap
  else allVisitsMap.

Definition addVisits (startTime endTime : Z) (allVisitsMap : VisitMap)
    (fetched : HistoryItem * list VisitItem) : VisitMap :=
  foldl (addVisit startTime endTime fetched.1) allVisitsMap fetched.2.

(** [fetched] lists, in the order the per-URL callbacks run, each history
    item with the visits [getVisits] returned for it. *)
Definition collectVisits (startTime endTime : Z)
    (fetched : list (HistoryItem * list VisitItem)) : VisitMap :=
  foldl (addVisits startTime endTime) [] fetched.

(** ** 4.2 The tree builder: step 4 of [fetchAndBuildTree] *)

(** A node object [{ id, data, children }] of the builder; [children]
    holds references to node objects. *)
Record NodeObj := mkNodeObj {
  obj_id : string;
  obj_data : NodeData;
  obj_children : list string
}.

Definition createNodes (allVisitsMap : VisitMap) : gmap string NodeObj :=
  foldl (λ nodes e, <[e.1 := mkNodeObj e.1 e.2 []]> nodes) ∅ allVisitsMap.

(** [child.id] for a reference [child]. *)
Definition ref_id (nodes : gmap string NodeObj) (r : string) : string :=
  match nodes !! r with Some o => obj_id o | None => r end.

(** [arr.some((x) => x.id === currentNode.id)] *)
Definition some_id (nodes : gmap string NodeObj) (arr : list string)
    (i : string) : bool :=
  existsb (λ r, String.eqb (ref_id nodes r) i) arr.

(** The condition
    [referringVisitId && referringVisitId !== "0" && nodes[referringVisitId]];
    when it holds the result is the key of [parentNode]. *)
Definition resolveReferrer (nodes : gmap string NodeObj) (value : NodeData)
    : option string :=
  match referringVisitId (visitData value) with
  | Some r =>
      if truthy r && negb (String.eqb r "0") && bool_decide (is_Some (nodes !! r))
      then Some r else None
  | None => None
  end.

(** One iteration of the second [allVisitsMap.forEach]; the state is the
    table of node objects and the [rootNodes] array. *)
Definition linkNode (st : gmap string NodeObj * list string)
    (e : string * NodeData) : gmap string NodeObj * list string :=
  let '(nodes, rootNodes) := st in
  match nodes !! e.1 with
  | None => st
  | Some currentNode =>
      match resolveReferrer nodes e.2 with
      | Some p =>
          match nodes !! p with
          | Some parentNode =>
              if some_id nodes (obj_children parentNode) (obj_id currentNode)
              then st
              else (<[p := mkNodeObj (obj_id parentNode) (obj_data parentNode)
                             (obj_children parentNode ++ [e.1])]> nodes,
                    rootNodes)
          | None => st
          end
      | None =>
          if some_id nodes rootNodes (obj_id currentNode) then st
          else (nodes, rootNodes ++ [e.1])
      end
  end.

Definition linkNodes (allVisitsMap : VisitMap)
    : gmap string NodeObj * list string :=
  foldl linkNode (createNodes allVisitsMap, []) allVisitsMap.

(** [nonRootIds]: the ids of all children of all [Object.values(nodes)]. *)
Definition nonRootIds (nodes : gmap string NodeObj) : gset string :=
  list_to_set ((map_to_list nodes).*2 ≫=
                 λ node, ref_id nodes <$> obj_children node).

Definition finalRootNodes (nodes : gmap string NodeObj)
    (rootNodes : list string) : list string :=
  filter (λ r, ref_id nodes r ∉ nonRootIds nodes) rootNodes.

(** The tree-building phase: the table of linked node objects and the
    final root array. *)
Definition buildTree (allVisitsMap : VisitMap)
    : gmap string NodeObj * list string :=
  let '(nodes, rootNodes) := linkNodes allVisitsMap in
  (nodes, finalRootNodes nodes rootNodes).

(** ** Trees

    A [TreeNode] is a node object read as a value: its [children] are the
    node objects the references lead to.  [data] is [None] for a node whose
    payload is missing. *)
#[warnings="-register-all"]
Inductive TreeNode := mkTreeNode {
  node_id : string;
  data : option NodeData;
  children : list TreeNode
}.

Definition Forest := list TreeNode.

(** The visit ids of a tree, parent first. *)
Fixpoint tree_ids (t : TreeNode) : list string :=
  match t with
  | mkTreeNode i _ cs => i :: (cs ≫= tree_ids)
  end.

Definition forest_ids (f : Forest) : list string := f ≫= tree_ids.

(** Reading the object graph below reference [r] as a tree.  The graph is
    followed for at most [fuel] levels; [None] when a reference dangles or
    the levels run out. *)
Fixpoint toTree (nodes : gmap string NodeObj) (fuel : nat) (r : string)
    : option TreeNode :=
  match fuel with
  | 0 => None
  | S fuel' =>
      o ← nodes !! r;
      cs ← mapM (toTree nodes fuel') (obj_children o);
      Some (mkTreeNode (obj_id o) (Some (obj_data o)) cs)
  end.

(** The forest the tree-building phase hands on: [finalRootNodes] with
    everything reachable through [children]. *)
Definition builtForest (allVisitsMap : VisitMap) : option Forest :=
  let '(nodes, roots) := buildTree allVisitsMap in
  mapM (toTree nodes (size nodes)) roots.

(** ** The referrer relation of a visit mapping *)

Definition entry (allVisitsMap : VisitMap) (x : string) : option NodeData :=
  (list_to_map allVisitsMap : gmap string NodeData) !! x.

(** The referrer of visit [x] when the builder resolves it inside the
    mapping. *)
Definition referrer (allVisitsMap : VisitMap) (x : string) : option string :=
  value ← entry allVisitsMap x;
  resolveReferrer (createNodes allVisitsMap) value.

(** The visit reached from [x] by following [n] resolved referrers. *)
Fixpoint ancestor (allVisitsMap : VisitMap) (n : nat) (x : string)
    : option string :=
  match n with
  | 0 => Some x
  | S n' => p ← referrer allVisitsMap x; ancestor allVisitsMap n' p
  end.

(** No visit is reached from itself by following one or more referrers. *)
Definition acyclic (allVisitsMap : VisitMap) : Prop :=
  ∀ x n, x ∈ keys allVisitsMap → ancestor allVisitsMap (S n) x ≠ Some x.

(** Visit chains are time-ordered: a resolved referrer is an earlier
    visit. *)
Definition time_ordered (allVisitsMap : VisitMap) : Prop :=
  ∀ x p vx vp,
    entry allVisitsMap x = Some vx →
    referrer allVisitsMap x = Some p →
    entry allVisitsMap p = Some vp →
    (visitTime (visitData vp) < visitTime (visitData vx))%Z.

(** [x] is [k] referrer steps away from a visit without resolved
    referrer. *)
Fixpoint at_depth (allVisitsMap : VisitMap) (k : nat) (x : string) : bool :=
  match referrer allVisitsMap x, k with
  | None, 0 => true
  | Some p, S k' => at_depth allVisitsMap k' p
  | _, _ => false
  end.

(** The children array and the root array the builder ends with, read off
    the mapping. *)
Definition kids (allVisitsMap : VisitMap) (p : string) : list string :=
  filter (λ x, referrer allVisitsMap x = Some p) (keys allVisitsMap).

Definition tops (allVisitsMap : VisitMap) : list string :=
  filter (λ x, referrer allVisitsMap x = None) (keys allVisitsMap).

(** The ids met walking [n] levels down from the references [l]. *)
Fixpoint walk (allVisitsMap : VisitMap) (n : nat) (l : list string)
    : list string :=
  match n with
  | 0 => []
  | S n' => l ≫= λ x, x :: walk allVisitsMap n' (kids allVisitsMap x)
  end.

(** A small mapping used in the examples: visits 2 and 3 come from visit
    1, whose referrer is the sentinel; visit 4 refers to a visit outside
    the mapping. *)
Definition demoVisit (i : string) (r : option string) (t : Z) (u : string)
    : string * NodeData :=
  (i, mkNodeData (mkVisitItem i r t "link")
        (Some (mkHistoryItem (Some u) (Some "page")))).

Definition demoMap : VisitMap :=
  [demoVisit "2" (Some "1") 200 "https://a.example/x";
   demoVisit "1" (Some "0") 100 "https://a.example/";
   demoVisit "3" (Some "1") 150 "https://a.example/y";
   demoVisit "4" (Some "9") 50 "https://b.example/"].

(** The node table after the links of the visits [ks] are in: every node
    of [createNodes] with the visits of [ks] that resolve to it as
    children, in the order of [ks]. *)
Definition linked (allVisitsMap : VisitMap) (ks : list string)
    : gmap string NodeObj :=
  map_imap (λ k o, Some (mkNodeObj k (obj_data o)
              (filter (λ x, referrer allVisitsMap x = Some k) ks)))
    (createNodes allVisitsMap).

(** [x] appears in the children array of some node object. *)
Definition listed_as_child (nodes : gmap string NodeObj) (x : string) : Prop :=
  ∃ p o, nodes !! p = Some o ∧ x ∈ obj_children o.

(** The visits of the mapping at referrer depth [k], in mapping order. *)
Definition level (allVisitsMap : VisitMap) (k : nat) : list string :=
  filter (λ x, at_depth allVisitsMap k x = true) (keys allVisitsMap).

(** Decidable form of [time_ordered]. *)
Definition time_orderedb (allVisitsMap : VisitMap) : bool :=
  forallb (λ e : string * NodeData,
    match referrer allVisitsMap e.1 with
    | Some p =>
        match entry allVisitsMap p with
        | Some vp => (visitTime (visitData vp) <? visitTime (visitData e.2))%Z
        | None => true
        end
    | None => true
    end) allVisitsMap.

(** Two visits that name each other as referrer. *)
Definition cyclicMap : VisitMap :=
  [demoVisit "1" (Some "2") 100 "https://a.example/";
   demoVisit "2" (Some "1") 200 "https://a.example/x"].

(** ** 4.3 The duplicate collapser *)

(** [node?.data?.historyItem?.url] *)
Definition node_url (node : TreeNode) : option string :=
  d ← data node; h ← historyItem d; url h.

(** [node.data.visitData.visitTime] *)
Definition node_time (node : TreeNode) : option Z :=
  d ← data node; Some (visitTime (visitData d)).

(** The test [currentUrl && nextUrl && currentUrl === nextUrl] on two array
    slots; a slot past the end of the array is [None]. *)
Definition same_url (current next : option TreeNode) : bool :=
  match current ≫= node_url, next ≫= node_url with
  | Some currentUrl, Some nextUrl =>
      truthy currentUrl && truthy nextUrl && String.eqb currentUrl nextUrl
  | _, _ => false
  end.

(** The marking loop [for (let i = 0; i < arr.length - 1; i++)]: the set
    [indicesToRemove] (for the root list, [rootsToRemoveIndices]). *)
Definition markDuplicates (arr : list TreeNode) : gset nat :=
  foldl (λ indicesToRemove i,
           if same_url (arr !! i) (arr !! (i + 1))
           then {[i]} ∪ indicesToRemove else indicesToRemove)
        ∅ (seq 0 (length arr - 1)).

(** The removal loop of [filterConsecutiveDuplicatesInChildren]:
    [for (let i = arr.length - 1; i >= 0; i--)] splicing out the marked
    indices, guarded by [indicesToRemove.size > 0]. *)
Definition spliceMarked (indicesToRemove : gset nat) (arr : list TreeNode)
    : list TreeNode :=
  if bool_decide (0 < size indicesToRemove) then
    foldl (λ arr i, if bool_decide (i ∈ indicesToRemove) then delete i arr else arr)
          arr (reverse (seq 0 (length arr)))
  else arr.

(** The removal loop for the root list: [filteredRoots] collects the
    unmarked roots in a new array. *)
Definition keepUnmarked (rootsToRemoveIndices : gset nat) (roots : list TreeNode)
    : list TreeNode :=
  if bool_decide (0 < size rootsToRemoveIndices) then
    foldl (λ filteredRoots i,
             if bool_decide (i ∈ rootsToRemoveIndices) then filteredRoots
             else filteredRoots ++ option_list (roots !! i))
          [] (seq 0 (length roots))
  else roots.

(** One application of duplicate collapsing to a children array, and to
    the root list. *)
Definition collapseChildren (arr : list TreeNode) : list TreeNode :=
  spliceMarked (markDuplicates arr) arr.

Definition collapseRoots (roots : list TreeNode) : list TreeNode :=
  keepUnmarked (markDuplicates roots) roots.

(** [filterConsecutiveDuplicatesInChildren(node)], with the node after the
    in-place update as result.  The recursion goes into the children that
    are left after the removal, so it is not structural: it is bounded by
    [fuel] levels and stops there. *)
Fixpoint filterDuplicatesFuel (fuel : nat) (node : TreeNode) : TreeNode :=
  match fuel with
  | 0 => node
  | S fuel' =>
      if length (children node) <? 2 then node
      else mkTreeNode (node_id node) (data node)
             (filterDuplicatesFuel fuel' <$> collapseChildren (children node))
  end.

Fixpoint height (t : TreeNode) : nat :=
  match t with
  | mkTreeNode _ _ cs => S (max_list (height <$> cs))
  end.

Definition filterConsecutiveDuplicatesInChildren (node : TreeNode) : TreeNode :=
  filterDuplicatesFuel (height node) node.

(** Step 5 of [fetchAndBuildTree] with the option switched on: the
    children pass on every root, then the pass on the root list. *)
Definition collapsePass (finalRootNodes : Forest) : Forest :=
  if 0 <? length finalRootNodes then
    collapseRoots (filterConsecutiveDuplicatesInChildren <$> finalRootNodes)
  else finalRootNodes.

(** The same collapsing by structural recursion: a sibling goes when the
    next one passes the URL test with it. *)
Fixpoint collapse (arr : list TreeNode) : list TreeNode :=
  match arr with
  | [] => []
  | a :: rest =>
      if same_url (Some a) (head rest) then collapse rest
      else a :: collapse rest
  end.

Fixpoint collapseTree (t : TreeNode) : TreeNode :=
  match t with
  | mkTreeNode i d cs =>
      if length cs <? 2 then t
      else mkTreeNode i d (collapse (collapseTree <$> cs))
  end.

(** Sibling nodes for the examples. *)
Definition leaf (i : string) (u : string) (t : Z) : TreeNode :=
  mkTreeNode i (Some (mkNodeData (mkVisitItem i (Some "0") t "link")
                        (Some (mkHistoryItem (Some u) (Some "page"))))) [].

(** [run] is a maximal run of consecutive siblings with URL [u] inside
    [pre ++ run ++ post]: it is not empty, all its members have URL [u],
    and neither the sibling before it nor the one after it has. *)
Definition maximal_run (pre run post : list TreeNode) (u : string) : Prop :=
  run ≠ [] ∧
  Forall (λ x, node_url x = Some u) run ∧
  last pre ≫= node_url ≠ Some u ∧
  head post ≫= node_url ≠ Some u.

(** [x] was visited no later than [y]. *)
Definition time_le (x y : TreeNode) : Prop :=
  match node_time x, node_time y with
  | Some tx, Some ty => (tx ≤ ty)%Z
  | _, _ => False
  end.

(** The siblings of [run] are in ascending order of [visitTime]. *)
Definition ascending_time (run : list TreeNode) : Prop :=
  ∀ i j x y, i ≤ j → run !! i = Some x → run !! j = Some y → time_le x y.

(** What [getVisits] answers in two of the examples: two visits of one
    page whose URL is the empty string, and two visits of one page listed
    with the later visit first. *)
Definition emptyUrlFetched : list (HistoryItem * list VisitItem) :=
  [(mkHistoryItem (Some EmptyString) (Some "blank"),
    [mkVisitItem "1" (Some "0") 100 "typed"; mkVisitItem "2" (Some "0") 200 "typed"])].

Definition laterFirstFetched : list (HistoryItem * list VisitItem) :=
  [(mkHistoryItem (Some "https://a.example/") (Some "A"),
    [mkVisitItem "1" (Some "0") 300 "typed"; mkVisitItem "2" (Some "0") 200 "typed"])].

(** A root whose only child has two consecutive children with one URL. *)
Definition onlyChildTree : TreeNode :=
  mkTreeNode "1" (data (leaf "1" "https://a.example/" 100))
    [mkTreeNode "2" (data (leaf "2" "https://a.example/x" 200))
       [leaf "3" "https://a.example/y" 300; leaf "4" "https://a.example/y" 400]].

(** ** 4.4 The search projector *)

(** Lowering the letters A to Z; other characters stay. *)
Definition lower_ascii (c : ascii) : ascii :=
  let n := nat_of_ascii c in
  if (65 <=? n) && (n <=? 90) then ascii_of_nat (n + 32) else c.

Fixpoint toLowerCaseAscii (s : string) : string :=
  match s with
  | EmptyString => EmptyString
  | String c s' => String (lower_ascii c) (toLowerCaseAscii s')
  end.

(** All characters of the string are ASCII characters. *)
Fixpoint ascii_only (s : string) : bool :=
  match s with
  | EmptyString => true
  | String c s' => (nat_of_ascii c <? 128) && ascii_only s'
  end.

(** [String.prototype.toLowerCase] is the engine's: it applies the case
    mapping of Unicode, which is not written out here.  It is a parameter
    of the development, known by what it does to ASCII strings: it lowers
    the letters A to Z and leaves the other characters. *)
Class LowerCase := {
  toLowerCase : string → string;
  toLowerCase_ascii s : ascii_only s = true → toLowerCase s = toLowerCaseAscii s
}.

(** The examples are run with the lowering of the letters A to Z. *)
Definition asciiLowerCase : LowerCase :=
  {| toLowerCase := toLowerCaseAscii; toLowerCase_ascii := λ _ _, eq_refl |}.

(** [s.includes(q)] *)
Fixpoint includes (s q : string) : bool :=
  String.prefix q s ||
  match s with
  | EmptyString => false
  | String _ s' => includes s' q
  end.

(** [x] or, when [x] is falsy, the empty string. *)
Definition or_empty (o : option string) : string := default EmptyString o.

(** [nodeMatches] for a node with history item [item]. *)
Definition nodeMatches `{!LowerCase} (searchTextLower : string) (item : HistoryItem)
    : bool :=
  includes (toLowerCase (or_empty (title item))) searchTextLower ||
  includes (toLowerCase (or_empty (url item))) searchTextLower.

(** The body of the loop [for (const node of nodes)] for a non-empty
    search text: [None] when the node is skipped, else the clone
    [{ ...node, children: filteredChildren }]. *)
Fixpoint cloneIfRetained `{!LowerCase} (searchTextLower : string) (node : TreeNode)
    : option TreeNode :=
  match node with
  | mkTreeNode i d cs =>
      match d ≫= historyItem with
      | None => None
      | Some item =>
          let filteredChildren := omap (cloneIfRetained searchTextLower) cs in
          if nodeMatches searchTextLower item || (0 <? length filteredChildren)
          then Some (mkTreeNode i d filteredChildren)
          else None
      end
  end.

Definition filterAndCloneTree `{!LowerCase} (nodes : list TreeNode)
    (searchTextLower : string) : list TreeNode :=
  if truthy searchTextLower
  then omap (cloneIfRetained searchTextLower) nodes
  else nodes.

(** All nodes of a tree and of a forest, parents first. *)
Fixpoint tree_nodes (t : TreeNode) : list TreeNode :=
  match t with
  | mkTreeNode _ _ cs => t :: (cs ≫= tree_nodes)
  end.

Definition forest_nodes (f : Forest) : list TreeNode := f ≫= tree_nodes.

(** What a clone keeps of its original: the id and the payload. *)
Definition label (t : TreeNode) : string * option NodeData := (node_id t, data t).

(** The node has its payload: [node.data] and [node.data.historyItem]. *)
Definition intact (t : TreeNode) : bool :=
  bool_decide (is_Some (data t ≫= historyItem)).

(** The title or the URL of the node contains the search text. *)
Definition selfMatches `{!LowerCase} (q : string) (t : TreeNode) : bool :=
  match data t ≫= historyItem with
  | Some item => nodeMatches q item
  | None => false
  end.

(** The node or one of its descendants matches. *)
Definition hasMatch `{!LowerCase} (q : string) (t : TreeNode) : bool :=
  existsb (selfMatches q) (tree_nodes t).

(** A forest for the examples: a page with two links followed, one of them
    leading on. *)
Definition page (i : string) (u : string) (ti : string) (cs : list TreeNode)
    : TreeNode :=
  mkTreeNode i (Some (mkNodeData (mkVisitItem i (Some "0") 100 "link")
                        (Some (mkHistoryItem (Some u) (Some ti))))) cs.

Definition demoForest : Forest :=
  [page "1" "https://news.example/" "News"
     [page "2" "https://news.example/sport" "Sport"
        [page "4" "https://club.example/" "The Rocq Club" []];
      page "3" "https://news.example/weather" "Weather" []];
   page "5" "https://mail.example/" "Inbox" []].







(** ** The search projector on the object heap

    To speak about sharing, node objects, arrays and payload objects
    live in a heap and are named by their location.  A node object holds
    its id, a reference to its payload object and a reference to its
    children array. *)
Definition loc := positive.

Inductive cell :=
  | CNode (i : string) (d : option loc) (cs : option loc)
  | CArray (elems : list loc)
  | CData (nd : NodeData).

Abbreviation heap := (gmap loc cell).

(** A new object. *)
Definition alloc (h : heap) (c : cell) : heap * loc :=
  let l := fresh (dom h) in (<[l := c]> h, l).

(** [node.data.historyItem] when [node.data] and it are there. *)
Definition payloadItem (h : heap) (d : option loc) : option HistoryItem :=
  dl ← d;
  match h !! dl with
  | Some (CData nd) => historyItem nd
  | _ => None
  end.

(** [arr.push(x)] *)
Definition push (h : heap) (arr x : loc) : option heap :=
  match h !! arr with
  | Some (CArray elems) => Some (<[arr := CArray (elems ++ [x])]> h)
  | _ => None
  end.

(** [arr.length] *)
Definition arrayLength (h : heap) (arr : loc) : option nat :=
  match h !! arr with
  | Some (CArray elems) => Some (length elems)
  | _ => None
  end.

(** The body of the loop [for (const node of nodes)] on the heap:
    [filteredNodes] is the array being filled, [recurse] the recursive
    call on [node.children]. *)
Definition cloneInto `{!LowerCase}
    (recurse : heap → option loc → option (heap * loc))
    (searchTextLower : string) (filteredNodes : loc)
    (st : option heap) (node : loc) : option heap :=
  h1 ← st;
  match h1 !! node with
  | Some (CNode i d cs) =>
      match payloadItem h1 d with
      | None => Some h1
      | Some item =>
          '(h2, filteredChildren) ← recurse h1 cs;
          n ← arrayLength h2 filteredChildren;
          if nodeMatches searchTextLower item || (0 <? n)
          then
            let '(h3, clonedNode) := alloc h2 (CNode i d (Some filteredChildren)) in
            push h3 filteredNodes clonedNode
          else Some h2
      end
  | _ => None
  end.

(** [filterAndCloneTree(nodes, searchTextLower)] for a non-empty search
    text, on the heap: the result is the heap after the call and the
    location of the returned array.  [None] when a reference does not lead
    to an object of the expected kind or the recursion is deeper than
    [fuel]. *)
Fixpoint filterAndCloneHeap `{!LowerCase} (fuel : nat) (searchTextLower : string)
    (h : heap) (nodes : option loc) : option (heap * loc) :=
  match fuel with
  | 0 => None
  | S fuel' =>
      match nodes with
      | None => Some (alloc h (CArray []))
      | Some a =>
          match h !! a with
          | Some (CArray elems) =>
              let '(h0, filteredNodes) := alloc h (CArray []) in
              h' ← foldl (cloneInto (filterAndCloneHeap fuel' searchTextLower)
                            searchTextLower filteredNodes)
                         (Some h0) elems;
              Some (h', filteredNodes)
          | _ => None
          end
      end
  end.

(** The call [filterAndCloneTree(currentFullTree, searchText)]: with the
    empty search text the array passed in is returned itself. *)
Definition filterAndCloneTreeOnHeap `{!LowerCase} (fuel : nat)
    (searchTextLower : string) (h : heap) (nodes : loc) : option (heap * loc) :=
  if truthy searchTextLower
  then filterAndCloneHeap fuel searchTextLower h (Some nodes)
  else Some (h, nodes).

(** The payload a [data] reference leads to. *)
Definition payload (h : heap) (d : option loc) : option NodeData :=
  dl ← d;
  match h !! dl with
  | Some (CData nd) => Some nd
  | _ => None
  end.

(** The node object at [e] in heap [h], with all that its children array
    leads to, is the tree [t]; none of the node objects and arrays met on
    the way lies in [D]. *)
#[warnings="-register-all"]
Inductive repr_node (D : gset loc) (h : heap) : loc → TreeNode → Prop :=
  | repr_node_intro e i d nd fc elems cs :
      e ∉ D →
      h !! e = Some (CNode i d (Some fc)) →
      (∀ dl, d = Some dl → is_Some (h !! dl)) →
      payload h d = nd →
      fc ∉ D →
      h !! fc = Some (CArray elems) →
      Forall2 (repr_node D h) elems cs →
      repr_node D h e (mkTreeNode i nd cs).

Definition repr_array (D : gset loc) (h : heap) (a : loc) (f : Forest) : Prop :=
  (a ∉ D) ∧
  (∃ elems, h !! a = Some (CArray elems) ∧ Forall2 (repr_node D h) elems f).

(** Every object of [h'] that is not in [h] is an array or a node object
    with the id and the payload reference of a node object of [h]: a
    shallow copy of it but for [children]. *)
Definition new_cells (h h' : heap) : Prop :=
  ∀ l c, h' !! l = Some c → h !! l = None →
    match c with
    | CNode i d _ => ∃ o cs0, h !! o = Some (CNode i d cs0)
    | CArray _ => True
    | CData _ => False
    end.

(** The heap after the last entry of the array was replaced, as changes
    it without touching what is outside [D]. *)
Definition agree (D : gset loc) (h h' : heap) : Prop :=
  ∀ l c, h !! l = Some c →
    h' !! l = Some c ∨
    (l ∈ D ∧ ∃ e1 e2, c = CArray e1 ∧ h' !! l = Some (CArray e2)).

Definition height_forest (f : Forest) : nat := max_list (height <$> f).

(** What a call of the projector does to the heap: the heap it starts on
    is kept, the array returned with all it leads to is new and stands for
    the projection of the forest, and whatever else is new is an array or
    a shallow copy of a node object. *)
Definition projects `{!LowerCase} (q : string) (h : heap) (f : Forest)
    (res : option (heap * loc)) : Prop :=
  ∃ h' r, res = Some (h', r) ∧ h ⊆ h' ∧
          repr_array (dom h) h' r (omap (cloneIfRetained q) f) ∧
          new_cells h h'.

(** A heap holding [demoForest]: payloads at 1 to 5, node objects at 11 to
    15, children arrays at 21 to 25 and the root array at 30. *)
Definition demoHeap : heap :=
  list_to_map
    [(1, CData (mkNodeData (mkVisitItem "1" (Some "0") 100 "link")
                  (Some (mkHistoryItem (Some "https://news.example/") (Some "News")))));
     (2, CData (mkNodeData (mkVisitItem "2" (Some "0") 100 "link")
                  (Some (mkHistoryItem (Some "https://news.example/sport") (Some "Sport")))));
     (3, CData (mkNodeData (mkVisitItem "3" (Some "0") 100 "link")
                  (Some (mkHistoryItem (Some "https://news.example/weather") (Some "Weather")))));
     (4, CData (mkNodeData (mkVisitItem "4" (Some "0") 100 "link")
                  (Some (mkHistoryItem (Some "https://club.example/") (Some "The Rocq Club")))));
     (5, CData (mkNodeData (mkVisitItem "5" (Some "0") 100 "link")
                  (Some (mkHistoryItem (Some "https://mail.example/") (Some "Inbox")))));
     (11, CNode "1" (Some 1) (Some 21)); (21, CArray [12; 13]);
     (12, CNode "2" (Some 2) (Some 22)); (22, CArray [14]);
     (13, CNode "3" (Some 3) (Some 23)); (23, CArray []);
     (14, CNode "4" (Some 4) (Some 24)); (24, CArray []);
     (15, CNode "5" (Some 5) (Some 25)); (25, CArray []);
     (30, CArray [11; 15])]%positive.

(** ** 4.5 The selection range tracker

    A checkbox is a DOM element, named by a number.  [visibleCheckboxes]
    is the cached array of the checkboxes of the last render, [checked]
    the [checked] property of every checkbox, and [rendered] what
    [querySelectorAll(".history-item-checkbox")] returns at present.

    The page script declares neither [visibleCheckboxes] nor
    [lastCheckedIndex]; both come into being as globals with their first
    assignment.  [renderTree] assigns [visibleCheckboxes] whenever it
    creates checkboxes, so the cache is an array whenever a click on a
    checkbox arrives.  [lastCheckedIndex] is assigned by a click only: it
    is [None] as long as it has no binding, and reading it then throws a
    [ReferenceError]. *)
Abbreviation elem := nat.

Record Selection := mkSelection {
  visibleCheckboxes : list elem;
  lastCheckedIndex : option Z;
  checked : elem → bool;
  rendered : list elem
}.

(** How a handler ends: it returns, or it throws, in both cases leaving
    the state it has reached. *)
Inductive Outcome :=
  | Returns (s : Selection)
  | Throws (error : string) (s : Selection).

Definition state_after (o : Outcome) : Selection :=
  match o with Returns s | Throws _ s => s end.

(** [arr[i]] for an integer [i]: [None] outside the array. *)
Definition at_index (arr : list elem) (i : Z) : option elem :=
  if (i <? 0)%Z then None else arr !! Z.to_nat i.

(** [arr.indexOf(x)]: the first index holding [x], or [-1]. *)
Fixpoint indexOf (arr : list elem) (x : elem) : Z :=
  match arr with
  | [] => (-1)%Z
  | y :: rest =>
      if bool_decide (y = x) then 0%Z
      else let i := indexOf rest x in if (i <? 0)%Z then (-1)%Z else (i + 1)%Z
  end.

(** The indices of [for (let i = start; i <= end; i++)]. *)
Definition indices (start end_ : Z) : list Z :=
  (λ k, (start + Z.of_nat k)%Z) <$> seq 0 (Z.to_nat (end_ - start + 1)).

(** [box.checked = state] *)
Definition setChecked (box : elem) (state : bool) (chk : elem → bool)
    : elem → bool :=
  λ e, if bool_decide (e = box) then state else chk e.

(** The loop of the shift branch: every checkbox found at an index of the
    range gets [targetState]. *)
Definition setRange (arr : list elem) (start end_ : Z) (targetState : bool)
    (chk : elem → bool) : elem → bool :=
  foldl (λ chk i,
           match at_index arr i with
           | Some box => setChecked box targetState chk
           | None => chk
           end)
        chk (indices start end_).

(** [handleShiftClickLogic].  The test
    [event.shiftKey && lastCheckedIndex !== -1 && lastCheckedIndex < visibleCheckboxes.length]
    reads [lastCheckedIndex] only when the shift key is down. *)
Definition handleShiftClickLogic (shiftKey : bool) (clickedCheckbox : elem)
    (currentIndex : Z) (s : Selection) : Outcome :=
  let normalClick :=
    Returns (mkSelection (visibleCheckboxes s) (Some currentIndex) (checked s)
               (rendered s)) in
  if shiftKey then
    match lastCheckedIndex s with
    | None => Throws "ReferenceError: lastCheckedIndex is not defined" s
    | Some anchor =>
        if negb (anchor =? -1)%Z &&
           (anchor <? Z.of_nat (length (visibleCheckboxes s)))%Z
        then
          let start := Z.min anchor currentIndex in
          let end_ := Z.max anchor currentIndex in
          let targetState := checked s clickedCheckbox in
          Returns (mkSelection (visibleCheckboxes s) (Some anchor)
                     (setRange (visibleCheckboxes s) start end_ targetState
                        (checked s))
                     (rendered s))
        else normalClick
    end
  else normalClick.

Definition handleCheckboxClick (shiftKey : bool) (clickedCheckbox : elem)
    (s : Selection) : Outcome :=
  let currentIndex := indexOf (visibleCheckboxes s) clickedCheckbox in
  if (currentIndex =? -1)%Z then
    let s' := mkSelection (rendered s) (lastCheckedIndex s) (checked s) (rendered s) in
    let newIndex := indexOf (visibleCheckboxes s') clickedCheckbox in
    if (newIndex =? -1)%Z then Returns s'
    else handleShiftClickLogic shiftKey clickedCheckbox newIndex s'
  else handleShiftClickLogic shiftKey clickedCheckbox currentIndex s.

(** Eight checkboxes, the anchor on the third, the sixth just ticked. *)
Definition demoSelection : Selection :=
  mkSelection [10; 11; 12; 13; 14; 15; 16; 17] (Some 2%Z)
    (λ e, bool_decide (e = 15 ∨ e = 10)) [10; 11; 12; 13; 14; 15; 16; 17].

(** Three checkboxes after a render, none clicked yet. *)
Definition freshSelection : Selection :=
  mkSelection [10; 11; 12] None (λ e, bool_decide (e = 11)) [10; 11; 12].

(** ** The rebuild cycle and the canonical forest slot *)

(** What [historyTreeDiv] shows: nothing, a rendered forest, or one of the
    texts of the page script. *)
Inductive Message :=
  | InvalidDateRange
  | NoMatchFor (searchTextValue : string)
  | AllFilteredOut
  | NoItems
  | ErrorOccurred (message : string).

Inductive Display :=
  | Blank
  | ShowTree (f : Forest)
  | ShowText (msg : Message).

(** The page: the slot [currentFullTree], the content of [historyTreeDiv]
    and whether the loading indicator is shown. *)
Record Page := mkPage {
  currentFullTree : Forest;
  historyTreeDiv : Display;
  loadingShown : bool
}.

(** [node.data.visitData.visitTime] as the sort key of the renderer; the
    builder makes no node without payload, for which the comparator would
    throw. *)
Definition time_of (t : TreeNode) : Z := default 0%Z (node_time t).

(** The orders of the two comparators: [a.visitTime - b.visitTime] for
    children and [b.visitTime - a.visitTime] for roots. *)
Definition oldest_first (a b : TreeNode) : Prop := (time_of a ≤ time_of b)%Z.
Definition newest_first (a b : TreeNode) : Prop := (time_of b ≤ time_of a)%Z.

#[global] Instance oldest_first_dec : RelDecision oldest_first.
Proof. intros a b. unfold oldest_first. apply _. Defined.

#[global] Instance newest_first_dec : RelDecision newest_first.
Proof. intros a b. unfold newest_first. apply _. Defined.

(** [Array.prototype.sort] with a comparator for the order [R].  The
    sort of the language is stable: elements the comparator takes as equal
    keep their order.  A stable sort by a total preorder has one result;
    it is computed here by insertion, an element going before the first
    one it may precede. *)
Fixpoint insertSorted {A} (R : relation A) `{!RelDecision R} (x : A) (l : list A)
    : list A :=
  match l with
  | [] => [x]
  | y :: l' => if decide (R x y) then x :: l else y :: insertSorted R x l'
  end.

Fixpoint stableSort {A} (R : relation A) `{!RelDecision R} (l : list A) : list A :=
  match l with
  | [] => []
  | x :: l' => insertSorted R x (stableSort R l')
  end.

(** [renderNode]: the children are sorted oldest first, in place, and
    rendered in that order.  Here every child is rendered and then they
    are sorted, which gives the same: rendering does not change the sort
    key. *)
Fixpoint renderNode (t : TreeNode) : TreeNode :=
  match t with
  | mkTreeNode i d cs =>
      mkTreeNode i d
        (stableSort oldest_first (renderNode <$> cs))
  end.

(** The forest as [renderTree] leaves and shows it: roots most recent
    first, children oldest first. *)
Definition sortForRender (nodesToRender : Forest) : Forest :=
  renderNode <$> stableSort newest_first nodesToRender.

(** [renderFilteredTree()], which calls [renderTree], with
    [searchTextValue] the trimmed value of the search input as typed: the
    projection is made with its lower-cased form, the text that nothing
    matches quotes it as typed.  The sorts of the renderer work in place:
    with the empty search text the array rendered is [currentFullTree]
    itself. *)
Definition renderFilteredTree `{!LowerCase} (searchTextValue : string) (p : Page)
    : Page :=
  let searchText := toLowerCase searchTextValue in
  let nodesToRender := filterAndCloneTree (currentFullTree p) searchText in
  if 0 <? length nodesToRender then
    mkPage (if truthy searchText then currentFullTree p
            else sortForRender nodesToRender)
           (ShowTree (sortForRender nodesToRender)) false
  else
    mkPage (currentFullTree p)
           (ShowText (if truthy searchTextValue then NoMatchFor searchTextValue
                      else if 0 <? length (currentFullTree p) then AllFilteredOut
                      else NoItems))
           false.

(** What one rebuild reads and is answered: the date inputs and the
    option when it starts, the answers of [chrome.history], and the
    trimmed value of the search input when it renders. *)
Inductive SearchOutcome :=
  | SearchThrows (message : string)
  | SearchReturns (historyItemsRaw : list HistoryItem).

Record Inputs := mkInputs {
  datesValid : bool;
  startTime : Z;
  endTime : Z;
  historyPageUrl : string;
  shouldFilterDuplicates : bool;
  searchText : string;
  searchOutcome : SearchOutcome;
  fetched : list (HistoryItem * list VisitItem)
}.

(** Writing one part of the page. *)
Definition setSlot (f : Forest) (p : Page) : Page :=
  mkPage f (historyTreeDiv p) (loadingShown p).

Definition setDisplay (d : Display) (p : Page) : Page :=
  mkPage (currentFullTree p) d (loadingShown p).

Definition setLoading (shown : bool) (p : Page) : Page :=
  mkPage (currentFullTree p) (historyTreeDiv p) shown.

(** The page right after the synchronous start of [fetchAndBuildTree]:
    loading indicator on, tree cleared, slot reset. *)
Definition cleared : Page := mkPage [] Blank true.

(** Steps 3 to 5: the forest that is stored on success. *)
Definition processedForest (inp : Inputs) : option Forest :=
  forest ← builtForest (collectVisits (startTime inp) (endTime inp) (fetched inp));
  Some (if shouldFilterDuplicates inp then collapsePass forest else forest).

(** [fetchAndBuildTree] runs in up to three synchronous pieces, parted by
    its two [await]s.  Each piece works on the page as it is when the
    piece runs; between the pieces other handlers may have run.  A
    rebuild is suspended in one of the [await]s, or it has stored the
    forest it built, or it has ended without one. *)
Inductive Stage :=
  | AwaitingSearch
  | AwaitingVisits
  | Stored
  | Ended.

(** From the call to [await chrome.history.search]. *)
Definition startRebuild (inp : Inputs) (p : Page) : Page * Stage :=
  let p := setSlot [] (setDisplay Blank (setLoading true p)) in
  if negb (datesValid inp)
  then (setLoading false (setDisplay (ShowText InvalidDateRange) p), Ended)
  else (p, AwaitingSearch).

(** The [catch] block. *)
Definition failRebuild (message : string) (p : Page) : Page :=
  setLoading false (setSlot [] (setDisplay (ShowText (ErrorOccurred message)) p)).

(** From the answer of the history query to [await Promise.all]. *)
Definition afterSearch `{!LowerCase} (inp : Inputs) (p : Page) : Page * Stage :=
  match searchOutcome inp with
  | SearchThrows message => (failRebuild message p, Ended)
  | SearchReturns historyItemsRaw =>
      let historyItems :=
        filter (λ item, url item ≠ Some (historyPageUrl inp)) historyItemsRaw in
      if length historyItems =? 0
      then (renderFilteredTree (searchText inp) (setSlot [] p), Ended)
      else (p, AwaitingVisits)
  end.

(** From the visits of all items to the end.  An exception in this piece
    lands in the [catch] block like a failed history query. *)
Definition afterVisits `{!LowerCase} (inp : Inputs) (p : Page) : Page * Stage :=
  match processedForest inp with
  | Some finalRootNodes =>
      (renderFilteredTree (searchText inp) (setSlot finalRootNodes p), Stored)
  | None => (failRebuild "error" p, Ended)
  end.

(** The piece that runs when the [await] of a suspended rebuild is
    settled. *)
Definition resume `{!LowerCase} (inp : Inputs) (stage : Stage) (p : Page)
    : Page * Stage :=
  match stage with
  | AwaitingSearch => afterSearch inp p
  | AwaitingVisits => afterVisits inp p
  | Stored | Ended => (p, stage)
  end.

(** [fetchAndBuildTree()] started on page [p] with no other handler
    running meanwhile: the page at every point where the function is
    suspended in an [await], in order, and last the page when it is
    done. *)
Definition fetchAndBuildTree `{!LowerCase} (inp : Inputs) (p : Page) : list Page :=
  let '(p1, stage1) := startRebuild inp p in
  p1 ::
  match stage1 with
  | AwaitingSearch =>
      let '(p2, stage2) := afterSearch inp p1 in
      p2 ::
      match stage2 with
      | AwaitingVisits => [(afterVisits inp p2).1]
      | _ => []
      end
  | _ => []
  end.

(** The page script at large.  Besides the page there are the rebuilds
    started so far, each with what it reads and how far it is.  All runs
    on one thread: a handler runs to its end or to its next [await]
    before another one runs. *)
Record System := mkSystem {
  pageState : Page;
  rebuilds : list (Inputs * Stage)
}.

(** What can happen next: a handler calls [fetchAndBuildTree] (the
    refresh button, the duplicate option, the date picker, the debounced
    input of the maximum of results, the delete button when its deletions
    are settled); the [await] of rebuild number [n] is settled and the
    rebuild goes on; the debounced handler of the search input calls
    [renderFilteredTree]; the delete button shows the loading
    indicator. *)
Inductive Event :=
  | Trigger (inp : Inputs)
  | Settle (n : nat)
  | SearchTyped (searchTextValue : string)
  | DeleteConfirmed.

Definition step `{!LowerCase} (σ : System) (e : Event) : System :=
  match e with
  | Trigger inp =>
      let '(p, stage) := startRebuild inp (pageState σ) in
      mkSystem p (rebuilds σ ++ [(inp, stage)])
  | Settle n =>
      match rebuilds σ !! n with
      | Some (inp, stage) =>
          let '(p, stage') := resume inp stage (pageState σ) in
          mkSystem p (<[n := (inp, stage')]> (rebuilds σ))
      | None => σ
      end
  | SearchTyped searchTextValue =>
      mkSystem (renderFilteredTree searchTextValue (pageState σ)) (rebuilds σ)
  | DeleteConfirmed => mkSystem (setLoading true (pageState σ)) (rebuilds σ)
  end.

Definition run `{!LowerCase} (σ : System) (events : list Event) : System :=
  foldl step σ events.

(** The forest [f] is complete: it is the forest that a rebuild has
    built, processed and stored, as it was stored or as the renderer's
    sorts leave it. *)
Definition complete (σ : System) (f : Forest) : Prop :=
  ∃ n inp forest,
    rebuilds σ !! n = Some (inp, Stored) ∧
    processedForest inp = Some forest ∧
    (f = forest ∨ f = sortForRender forest).

(** The page is settled: the slot is empty or complete, and a forest on
    display is a projection of a complete forest. *)
Definition settled `{!LowerCase} (σ : System) : Prop :=
  (currentFullTree (pageState σ) = [] ∨ complete σ (currentFullTree (pageState σ))) ∧
  (∀ f, historyTreeDiv (pageState σ) = ShowTree f →
        ∃ f0 q, complete σ f0 ∧ f = sortForRender (filterAndCloneTree f0 q)).

(** A rebuild in the examples: one page with two visits, started on a
    page that shows a forest. *)
Definition demoInputs : Inputs :=
  let item := mkHistoryItem (Some "https://a.example/") (Some "A") in
  mkInputs true 0 1000 "chrome-extension://viewer/history.html" true EmptyString
    (SearchReturns [item])
    [(item, [mkVisitItem "1" (Some "0") 100 "link";
             mkVisitItem "2" (Some "1") 200 "link"])].

Definition demoPage : Page := mkPage demoForest (ShowTree demoForest) false.

(** ** Further definitions: the normalizer *)

(** A visit passes the filters of step 3: inside the time window and not
    a reload. *)
Definition eligible (startTime endTime : Z) (visit : VisitItem) : Prop :=
  (startTime ≤ visitTime visit ≤ endTime)%Z ∧ transition visit ≠ "reload".

#[global] Instance eligible_dec startTime endTime visit :
  Decision (eligible startTime endTime visit).
Proof. unfold eligible. apply _. Defined.

(** The entries the eligible visits would make, in the order the
    callbacks meet them. *)
Definition candidates (startTime endTime : Z)
    (fetched : list (HistoryItem * list VisitItem)) : VisitMap :=
  fetched ≫= λ f,
    (λ visit, (visitId visit, mkNodeData visit (Some f.1))) <$>
      filter (eligible startTime endTime) f.2.

(** Of the entries with one key only the first is kept. *)
Definition keepFirst (l : VisitMap) : VisitMap :=
  foldl (λ acc e, if decide (e.1 ∈ keys acc) then acc else acc ++ [e]) [] l.


(** ** Further definitions: the first version of the page script

    [history.js] has no search box and no slot for the forest:
    [fetchAndBuildTree] renders [finalRootNodes] itself.  What
    [historyTreeDiv] holds when the function is done: the rendered forest
    or a text. *)
Inductive FirstDisplay :=
  | FirstTree (f : Forest)
  | FirstText (textContent : string).

Definition fetchAndBuildTreeFirst (inp : Inputs) : FirstDisplay :=
  if negb (datesValid inp) then FirstText "Invalid date range."
  else
    match searchOutcome inp with
    | SearchThrows message =>
        FirstText (String.append "An error occurred: " message)
    | SearchReturns historyItemsRaw =>
        let historyItems :=
          filter (λ item, url item ≠ Some (historyPageUrl inp)) historyItemsRaw in
        if length historyItems =? 0
        then FirstText "No history found for this period (excluding self)."
        else
          let allVisitsMap :=
            collectVisits (startTime inp) (endTime inp) (fetched inp) in
          match processedForest inp with
          | Some finalRootNodes =>
              if 0 <? length finalRootNodes
              then FirstTree (sortForRender finalRootNodes)
              else if 0 <? length allVisitsMap
              then FirstText
                     "Could not determine root nodes or all nodes were filtered out."
              else FirstText
                     "No relevant visits found within the time range (excluding self/reloads)."
          | None => FirstText (String.append "An error occurred: " "error")
          end
    end.

(** ** Further definitions: the delete button

    What the click handler of the delete button does to the outside, in
    order: an [alert], the [confirm] dialog, the loading indicator,
    a call of [chrome.history.deleteUrl], the rebuild by
    [fetchAndBuildTree]. *)
Inductive Effect :=
  | Alert (message : string)
  | Confirm (message : string)
  | ShowLoading
  | DeleteUrl (url : string)
  | Rebuild.

(** [urlsToDelete.add(url)]: a JavaScript [Set] keeps insertion order and
    holds a value once. *)
Definition setAdd (url : string) (urlsToDelete : list string) : list string :=
  if decide (url ∈ urlsToDelete) then urlsToDelete else urlsToDelete ++ [url].

(** Step 2 of the handler.  A selected checkbox is given by its
    [dataset.url], [None] when it has none. *)
Definition collectUrls (selectedCheckboxes : list (option string)) : list string :=
  foldl (λ urlsToDelete datasetUrl,
           match datasetUrl with
           | Some url => if truthy url then setAdd url urlsToDelete else urlsToDelete
           | None => urlsToDelete
           end)
        [] selectedCheckboxes.

Definition confirmationMessage : string :=
  String.append "WARNING!"
    (String "010" "You are about to delete ALL history records for the selected URL(s).").

(** The handler for the selected checkboxes in document order, the answer
    [confirmed] the user gives if asked, and [lastError url] telling
    whether the deletion of [url] reports an error: the effects in order
    and the final value of the counter [deletionErrors]. *)
Definition deleteSelected (selectedCheckboxes : list (option string))
    (confirmed : bool) (lastError : string → bool) : list Effect * nat :=
  if length selectedCheckboxes =? 0
  then ([Alert "Please select history items to delete."], 0)
  else
    let urlsToDelete := collectUrls selectedCheckboxes in
    if length urlsToDelete =? 0
    then ([Alert "Could not identify URLs for selected items."], 0)
    else if negb confirmed then ([Confirm confirmationMessage], 0)
    else
      ([Confirm confirmationMessage; ShowLoading]
         ++ (DeleteUrl <$> urlsToDelete) ++ [Rebuild],
       length (filter (λ url, lastError url = true) urlsToDelete)).

(** The URLs handed to [chrome.history.deleteUrl], in order. *)
Definition deletedUrls (effects : list Effect) : list string :=
  omap (λ e, match e with DeleteUrl url => Some url | _ => None end) effects.

(** ** Further definitions: the suggested maximum of results *)

Definition BASE_MAX_RESULTS : Z := 500.
Definition RESULTS_PER_DAY : Z := 500.
Definition MAX_RESULTS_CAP : Z := 20000.

(** [1000 * 60 * 60 * 24] *)
Definition msPerDay : Z := 1000 * 60 * 60 * 24.

(** [Math.round(diffTime / (1000 * 60 * 60 * 24)) + 1] for the difference
    [diffTime] of two time stamps in milliseconds; [Math.round] gives the
    integer nearest to its argument, the larger one in a tie.  The
    quotient is a floating-point number: for ranges below 2^27 days
    its rounding error cannot reach the next half. *)
Definition diffDays (diffTime : Z) : Z :=
  ((2 * diffTime + msPerDay) `div` (2 * msPerDay) + 1)%Z.

(** The value written to the input for the maximum of results when a date
    range is picked, and on load. *)
Definition suggestedMax (diffDays : Z) : Z :=
  let suggestedMax :=
    (BASE_MAX_RESULTS + Z.max 0 (diffDays - 1) * RESULTS_PER_DAY)%Z in
  let suggestedMax := Z.min suggestedMax MAX_RESULTS_CAP in
  let suggestedMax := Z.max suggestedMax BASE_MAX_RESULTS in
  suggestedMax.

(** ** Further definitions: examples of rendering and of overlapping
    rebuilds *)

(** Three roots, the first and the last visited at the same time. *)
Definition tiedRoots : Forest :=
  [leaf "a" "https://a.example/" 100; leaf "b" "https://b.example/" 200;
   leaf "c" "https://c.example/" 100].

(** A second rebuild: one page with one visit. *)
Definition otherInputs : Inputs :=
  let item := mkHistoryItem (Some "https://b.example/") (Some "B") in
  mkInputs true 0 1000 "chrome-extension://viewer/history.html" false EmptyString
    (SearchReturns [item])
    [(item, [mkVisitItem "7" (Some "0") 300 "typed"])].

(** The page script right after the page is loaded. *)
Definition loadedSystem : System := mkSystem (mkPage [] Blank false) [].
(* ================================================================= *)
(** * Theorems *)

(** ** The tree builder *)

Section builder.

Implicit Types (m : VisitMap) (x p : string) (nodes : gmap string NodeObj).

Lemma createNodes_snoc m e :
  createNodes (m ++ [e]) = <[e.1 := mkNodeObj e.1 e.2 []]> (createNodes m).
Proof. unfold createNodes. by rewrite foldl_snoc. Qed.

Lemma createNodes_lookup m k o :
  createNodes m !! k = Some o →
  obj_id o = k ∧ obj_children o = [] ∧ (k, obj_data o) ∈ m.
Proof.
  induction m as [|e m IH] using rev_ind; [done|].
  rewrite createNodes_snoc. destruct (decide (e.1 = k)) as [<-|Hne].
  - rewrite lookup_insert_eq. intros [= <-]. simpl. split_and!; [done..|].
    apply elem_of_app. right. destruct e. apply list_elem_of_singleton. done.
  - rewrite lookup_insert_ne by done. intros H. destruct (IH H) as (?&?&?).
    split_and!; [done..|]. apply elem_of_app. by left.
Qed.

Lemma createNodes_is_Some m k : is_Some (createNodes m !! k) ↔ k ∈ keys m.
Proof.
  induction m as [|e m IH] using rev_ind.
  - unfold keys, createNodes. simpl. rewrite lookup_empty.
    split; [by intros [? ?]|by intros ?%elem_of_nil].
  - rewrite createNodes_snoc. unfold keys in *. rewrite fmap_app, elem_of_app. simpl.
    destruct (decide (e.1 = k)) as [<-|Hne].
    + rewrite lookup_insert_eq. split; [|by eauto]. intros _. right. set_solver.
    + rewrite lookup_insert_ne by done. rewrite IH. set_solver.
Qed.

Lemma entry_Some m x v : NoDup (keys m) → entry m x = Some v ↔ (x, v) ∈ m.
Proof. intros Hnd. unfold entry. symmetry. by apply elem_of_list_to_map. Qed.

Lemma entry_is_Some m x : is_Some (entry m x) ↔ x ∈ keys m.
Proof.
  unfold entry, keys. rewrite <-elem_of_dom, dom_list_to_map_L.
  by rewrite elem_of_list_to_set.
Qed.

Lemma createNodes_entry m k :
  NoDup (keys m) →
  createNodes m !! k = (λ v, mkNodeObj k v []) <$> entry m k.
Proof.
  intros Hnd. destruct (createNodes m !! k) as [o|] eqn:Ho.
  - destruct (createNodes_lookup _ _ _ Ho) as (Hi & Hc & Hin).
    apply entry_Some in Hin; [|done]. rewrite Hin. simpl. destruct o; naive_solver.
  - destruct (entry m k) eqn:He; [|done].
    assert (is_Some (createNodes m !! k)) as [? ?]; [|congruence].
    apply createNodes_is_Some, entry_is_Some. eauto.
Qed.

Lemma resolveReferrer_dom nodes nodes' v :
  (∀ k, is_Some (nodes !! k) ↔ is_Some (nodes' !! k)) →
  resolveReferrer nodes v = resolveReferrer nodes' v.
Proof.
  intros Hdom. unfold resolveReferrer. destruct (referringVisitId _) as [r|]; [|done].
  by rewrite (bool_decide_ext _ _ (Hdom r)).
Qed.

Lemma referrer_in_keys m x p : referrer m x = Some p → x ∈ keys m ∧ p ∈ keys m.
Proof.
  unfold referrer. destruct (entry m x) as [v|] eqn:He; [|done]. simpl.
  split; [apply entry_is_Some; eauto|].
  unfold resolveReferrer in *. destruct (referringVisitId _) as [r|]; [|done].
  case_match eqn:Hc; [|done]. simplify_eq.
  apply andb_prop in Hc as [_ Hc%bool_decide_eq_true]. by apply createNodes_is_Some.
Qed.

Lemma linked_lookup m ks k :
  linked m ks !! k =
  (λ o, mkNodeObj k (obj_data o) (filter (λ x, referrer m x = Some k) ks))
    <$> createNodes m !! k.
Proof. unfold linked. rewrite map_lookup_imap. by destruct (createNodes m !! k). Qed.

Lemma linked_is_Some m ks k : is_Some (linked m ks !! k) ↔ k ∈ keys m.
Proof. rewrite linked_lookup, fmap_is_Some. apply createNodes_is_Some. Qed.

Lemma linked_nil m : linked m [] = createNodes m.
Proof.
  apply map_eq. intros k. rewrite linked_lookup.
  destruct (createNodes m !! k) as [o|] eqn:Ho; [|done]. simpl.
  destruct (createNodes_lookup _ _ _ Ho) as (? & ? & _). destruct o; naive_solver.
Qed.

Lemma ref_id_linked m ks r : ref_id (linked m ks) r = r.
Proof.
  unfold ref_id. rewrite linked_lookup. by destruct (createNodes m !! r).
Qed.

Lemma some_id_linked m ks arr x :
  some_id (linked m ks) arr x = bool_decide (x ∈ arr).
Proof.
  unfold some_id. induction arr as [|a arr IH].
  - symmetry. apply bool_decide_eq_false_2, not_elem_of_nil.
  - cbn [existsb]. rewrite IH, ref_id_linked. destruct (String.eqb_spec a x) as [->|Hne]; simpl.
    + by rewrite bool_decide_eq_true_2 by left.
    + apply bool_decide_ext. set_solver.
Qed.

Lemma linkNode_linked m ks x v :
  NoDup (keys m) → (x, v) ∈ m → x ∉ ks →
  linkNode (linked m ks, filter (λ y, referrer m y = None) ks) (x, v) =
  (linked m (ks ++ [x]), filter (λ y, referrer m y = None) (ks ++ [x])).
Proof.
  intros Hnd Hin Hx. unfold linkNode. cbn [fst snd].
  assert (x ∈ keys m) as Hk by (apply entry_is_Some; exists v; by apply entry_Some).
  assert (referrer m x = resolveReferrer (linked m ks) v) as Hr.
  { unfold referrer. apply entry_Some in Hin as ->; [|done]. simpl.
    apply resolveReferrer_dom. intros k.
    by rewrite linked_is_Some, createNodes_is_Some. }
  pose proof (proj2 (linked_is_Some m ks x) Hk) as [c Hc]. rewrite Hc.
  assert (obj_id c = x) as ->.
  { rewrite linked_lookup in Hc. destruct (createNodes m !! x); by simplify_eq/=. }
  rewrite <-Hr. rewrite !filter_app, !filter_cons, !filter_nil.
  destruct (referrer m x) as [p|] eqn:Hp.
  - destruct (referrer_in_keys _ _ _ Hp) as [_ Hpk].
    pose proof (proj2 (linked_is_Some m ks p) Hpk) as [o Ho]. rewrite Ho.
    pose proof Ho as Ho'. rewrite linked_lookup in Ho'.
    destruct (createNodes m !! p) as [o0|] eqn:Ho0; simplify_eq/=.
    rewrite some_id_linked, bool_decide_eq_false_2.
    2:{ rewrite list_elem_of_filter. naive_solver. }
    rewrite app_nil_r. f_equal.
    apply map_eq. intros k. rewrite (linked_lookup m (ks ++ [x])).
    destruct (decide (p = k)) as [<-|Hne].
    + rewrite lookup_insert_eq, Ho0. simpl.
      by rewrite filter_app, filter_cons, decide_True, filter_nil by done.
    + rewrite lookup_insert_ne, linked_lookup by done.
      destruct (createNodes m !! k); [|done]. simpl.
      rewrite filter_app, filter_cons, decide_False, filter_nil by congruence.
      by rewrite app_nil_r.
  - rewrite some_id_linked, bool_decide_eq_false_2.
    2:{ rewrite list_elem_of_filter. naive_solver. }
    rewrite decide_True by done. f_equal.
    apply map_eq. intros k. rewrite !linked_lookup.
    destruct (createNodes m !! k); [|done]. simpl.
    rewrite filter_app, filter_cons, decide_False, filter_nil by congruence.
    by rewrite app_nil_r.
Qed.

Lemma linkNodes_prefix m m1 m2 :
  NoDup (keys m) → m = m1 ++ m2 →
  foldl linkNode (createNodes m, []) m1 =
  (linked m (keys m1), filter (λ y, referrer m y = None) (keys m1)).
Proof.
  intros Hnd. revert m2. induction m1 as [|[x v] m1 IH] using rev_ind; intros m2 Hm.
  - simpl. by rewrite linked_nil.
  - rewrite foldl_snoc, (IH ([(x, v)] ++ m2)) by (by rewrite Hm, <-app_assoc).
    unfold keys. rewrite fmap_app. simpl. apply linkNode_linked; [done|..].
    + subst m. set_solver.
    + subst m. unfold keys in Hnd. rewrite !fmap_app in Hnd.
      apply NoDup_app in Hnd as (Hnd & _ & _).
      apply NoDup_app in Hnd as (_ & Hnd & _). set_solver.
Qed.

Lemma linkNodes_spec m :
  NoDup (keys m) → linkNodes m = (linked m (keys m), tops m).
Proof. intros Hnd. apply (linkNodes_prefix m m []); [done|by rewrite app_nil_r]. Qed.

Lemma listed_linked m x :
  listed_as_child (linked m (keys m)) x ↔ is_Some (referrer m x).
Proof.
  split.
  - intros (p & o & Ho & Hx). rewrite linked_lookup in Ho.
    destruct (createNodes m !! p); simplify_eq/=.
    apply list_elem_of_filter in Hx as [Hx _]. eauto.
  - intros [p Hp]. destruct (referrer_in_keys _ _ _ Hp) as [Hx Hpk].
    apply (linked_is_Some m (keys m)) in Hpk as [o Ho]. exists p, o. split; [done|].
    rewrite linked_lookup in Ho. destruct (createNodes m !! p); simplify_eq/=.
    by apply list_elem_of_filter.
Qed.

Lemma nonRootIds_listed m x :
  x ∈ nonRootIds (linked m (keys m)) ↔ listed_as_child (linked m (keys m)) x.
Proof.
  unfold nonRootIds, listed_as_child. rewrite elem_of_list_to_set, list_elem_of_bind.
  split.
  - intros (o & Hx & Ho). apply list_elem_of_fmap in Ho as ([p o'] & -> & Ho).
    apply elem_of_map_to_list in Ho. exists p, o'. split; [done|].
    apply list_elem_of_fmap in Hx as (y & -> & Hy). by rewrite ref_id_linked.
  - intros (p & o & Ho & Hx). exists o. split.
    + apply list_elem_of_fmap. exists x. by rewrite ref_id_linked.
    + apply list_elem_of_fmap. exists (p, o). split; [done|]. by apply elem_of_map_to_list.
Qed.

Lemma buildTree_spec m :
  NoDup (keys m) → buildTree m = (linked m (keys m), tops m).
Proof.
  intros Hnd. unfold buildTree. rewrite linkNodes_spec by done. f_equal.
  unfold finalRootNodes, tops.
  rewrite list_filter_filter. apply list_filter_iff. intros x.
  rewrite ref_id_linked, nonRootIds_listed, listed_linked.
  split; [naive_solver|]. intros H. rewrite H. split; [|done]. by intros [? ?].
Qed.

(** ** Referrer depth *)

Lemma at_depth_0 m x : at_depth m 0 x = true ↔ referrer m x = None.
Proof. simpl. destruct (referrer m x); naive_solver. Qed.

Lemma at_depth_S m k x :
  at_depth m (S k) x = true ↔ ∃ p, referrer m x = Some p ∧ at_depth m k p = true.
Proof. simpl. destruct (referrer m x); naive_solver. Qed.

Lemma at_depth_unique m k k' x :
  at_depth m k x = true → at_depth m k' x = true → k = k'.
Proof.
  revert k' x. induction k as [|k IH]; intros [|k'] x.
  - done.
  - rewrite at_depth_0, at_depth_S. naive_solver.
  - rewrite at_depth_0, at_depth_S. naive_solver.
  - rewrite !at_depth_S. intros (p & Hp & Hd) (p' & Hp' & Hd'). simplify_eq.
    f_equal. eauto.
Qed.

Lemma ancestor_add m a b x :
  ancestor m (a + b) x = ancestor m a x ≫= ancestor m b.
Proof.
  revert x. induction a as [|a IH]; intros x; [done|]. simpl.
  destruct (referrer m x) as [p|]; [|done]. simpl. apply IH.
Qed.

Lemma ancestor_in_keys m n x y :
  x ∈ keys m → ancestor m n x = Some y → y ∈ keys m.
Proof.
  revert x. induction n as [|n IH]; intros x Hx; simpl; [naive_solver|].
  destruct (referrer m x) as [p|] eqn:Hp; [|done]. simpl.
  apply IH. by destruct (referrer_in_keys _ _ _ Hp).
Qed.

Lemma ancestor_None_depth m j x :
  ancestor m j x = None → ∃ d, d < j ∧ at_depth m d x = true.
Proof.
  revert x. induction j as [|j IH]; intros x; [done|]. simpl.
  destruct (referrer m x) as [p|] eqn:Hp; simpl.
  - intros (d & Hd & Hat)%IH. exists (S d). split; [lia|].
    apply at_depth_S. eauto.
  - intros _. exists 0. split; [lia|]. by apply at_depth_0.
Qed.

Lemma ancestor_scan m n x :
  (∀ j, j ≤ n → is_Some (ancestor m j x)) ∨ (∃ j, j ≤ n ∧ ancestor m j x = None).
Proof.
  induction n as [|n [IH|(j & Hj & Hn)]].
  - left. intros j Hj. assert (j = 0) as -> by lia. simpl. eauto.
  - destruct (ancestor m (S n) x) eqn:Ha.
    + left. intros j Hj. destruct (decide (j = S n)) as [->|]; [eauto|]. apply IH. lia.
    + right. eauto.
  - right. exists j. split; [lia|done].
Qed.

Lemma at_depth_ancestor m d j x :
  at_depth m d x = true → j ≤ d →
  ∃ y, ancestor m j x = Some y ∧ at_depth m (d - j) y = true.
Proof.
  revert d x. induction j as [|j IH]; intros d x Hd Hj.
  - exists x. by rewrite Nat.sub_0_r.
  - destruct d as [|d]; [lia|]. apply at_depth_S in Hd as (p & Hp & Hd).
    destruct (IH d p Hd) as (y & Hy & Hdy); [lia|]. exists y. simpl.
    by rewrite Hp.
Qed.

(** A referrer chain that ends has fewer steps than there are visits. *)
Lemma at_depth_lt m d x :
  x ∈ keys m → at_depth m d x = true → d < length (keys m).
Proof.
  intros Hx Hd. destruct (decide (d < length (keys m))) as [|Hge]; [done|]. exfalso.
  set (chain := (λ j, default x (ancestor m j x)) <$> seq 0 (S d)).
  destruct (list_pigeonhole chain (keys m)) as (i1 & i2 & y & Hlt & H1 & H2).
  { intros y (j & -> & Hj%elem_of_seq)%list_elem_of_fmap.
    destruct (at_depth_ancestor m d j x Hd) as (z & Hz & _); [lia|].
    rewrite Hz. simpl. by eapply ancestor_in_keys. }
  { unfold chain. rewrite length_fmap, length_seq. lia. }
  unfold chain in H1, H2. rewrite list_lookup_fmap in H1, H2.
  apply fmap_Some in H1 as (j1 & Hj1 & ->). apply fmap_Some in H2 as (j2 & Hj2 & Heq).
  apply lookup_seq in Hj1 as [-> ?]. apply lookup_seq in Hj2 as [-> ?]. simpl in *.
  destruct (at_depth_ancestor m d i1 x Hd) as (y1 & Hy1 & Hd1); [lia|].
  destruct (at_depth_ancestor m d i2 x Hd) as (y2 & Hy2 & Hd2); [lia|].
  rewrite Hy1, Hy2 in Heq. simpl in Heq. subst y2.
  pose proof (at_depth_unique _ _ _ _ Hd1 Hd2). lia.
Qed.

(** In an acyclic mapping every referrer chain ends within as many steps
    as there are visits. *)
Lemma acyclic_depth m x :
  acyclic m → x ∈ keys m → ∃ d, d < length (keys m) ∧ at_depth m d x = true.
Proof.
  intros Hac Hx. destruct (ancestor_scan m (length (keys m)) x) as [Hall|(j & Hj & Hn)].
  - exfalso.
    set (chain := (λ j, default x (ancestor m j x)) <$> seq 0 (S (length (keys m)))).
    destruct (list_pigeonhole chain (keys m)) as (i1 & i2 & y & Hlt & H1 & H2).
    { intros y (j & -> & Hj%elem_of_seq)%list_elem_of_fmap.
      destruct (Hall j) as [z Hz]; [lia|]. rewrite Hz. simpl.
      by eapply ancestor_in_keys. }
    { unfold chain. rewrite length_fmap, length_seq. lia. }
    unfold chain in H1, H2. rewrite list_lookup_fmap in H1, H2.
    apply fmap_Some in H1 as (j1 & Hj1 & ->). apply fmap_Some in H2 as (j2 & Hj2 & Heq).
    apply lookup_seq in Hj1 as [-> ?]. apply lookup_seq in Hj2 as [-> ?]. simpl in *.
    destruct (Hall i1) as [y Hy]; [lia|]. destruct (Hall i2) as [y' Hy']; [lia|].
    rewrite Hy, Hy' in Heq. simpl in Heq. subst y'.
    replace i2 with (i1 + S (i2 - i1 - 1)) in Hy' by lia.
    rewrite ancestor_add, Hy in Hy'. simpl in Hy'.
    eapply Hac; [|exact Hy']. by eapply ancestor_in_keys.
  - destruct (ancestor_None_depth _ _ _ Hn) as (d & Hd & Hat). exists d. split; [lia|done].
Qed.

Lemma time_ordered_ancestor m n x y vx vy :
  NoDup (keys m) → time_ordered m →
  entry m x = Some vx → ancestor m (S n) x = Some y → entry m y = Some vy →
  (visitTime (visitData vy) < visitTime (visitData vx))%Z.
Proof.
  intros Hnd Hto. revert x vx. induction n as [|n IH]; intros x vx Hx Ha Hy.
  - simpl in Ha. destruct (referrer m x) as [p|] eqn:Hp; simplify_eq/=. eauto.
  - cbn [ancestor] in Ha. destruct (referrer m x) as [p|] eqn:Hp; [|done].
    cbn [mbind option_bind] in Ha.
    destruct (referrer_in_keys _ _ _ Hp) as [_ [vp Hvp]%entry_is_Some].
    pose proof (Hto _ _ _ _ Hx Hp Hvp). pose proof (IH _ _ Hvp Ha Hy). lia.
Qed.

(** A time-ordered mapping is acyclic. *)
Lemma time_ordered_acyclic m : NoDup (keys m) → time_ordered m → acyclic m.
Proof.
  intros Hnd Hto x n [vx Hx]%entry_is_Some Ha.
  pose proof (time_ordered_ancestor _ _ _ _ _ _ Hnd Hto Hx Ha Hx). lia.
Qed.

(** ** Levels of the built forest *)

Lemma NoDup_level m k : NoDup (keys m) → NoDup (level m k).
Proof. intros. by apply NoDup_filter. Qed.

Lemma NoDup_kids m p : NoDup (keys m) → NoDup (kids m p).
Proof. intros. by apply NoDup_filter. Qed.

Lemma elem_of_kids m p x : x ∈ kids m p ↔ referrer m x = Some p.
Proof.
  unfold kids. rewrite list_elem_of_filter. split; [naive_solver|].
  intros H. split; [done|]. by destruct (referrer_in_keys _ _ _ H).
Qed.

Lemma elem_of_level m k x : x ∈ level m k ↔ x ∈ keys m ∧ at_depth m k x = true.
Proof. unfold level. rewrite list_elem_of_filter. naive_solver. Qed.

Lemma tops_level m : tops m = level m 0.
Proof.
  unfold tops, level. apply list_filter_iff. intros x. by rewrite at_depth_0.
Qed.

Lemma level_kids m k :
  NoDup (keys m) → level m k ≫= kids m ≡ₚ level m (S k).
Proof.
  intros Hnd. apply NoDup_Permutation.
  - apply NoDup_bind; [|intros; by apply NoDup_kids|by apply NoDup_level].
    intros p1 p2 y _ _. rewrite !elem_of_kids. congruence.
  - by apply NoDup_level.
  - intros y. rewrite list_elem_of_bind, elem_of_level, at_depth_S. split.
    + intros (p & Hy%elem_of_kids & Hp%elem_of_level).
      destruct (referrer_in_keys _ _ _ Hy). naive_solver.
    + intros (Hy & p & Hp & Hd). exists p. rewrite elem_of_kids, elem_of_level.
      destruct (referrer_in_keys _ _ _ Hp). naive_solver.
Qed.

Lemma walk_app m n l1 l2 : walk m n (l1 ++ l2) = walk m n l1 ++ walk m n l2.
Proof. destruct n; [done|]. simpl. apply bind_app. Qed.

Lemma walk_Permutation m n l1 l2 : l1 ≡ₚ l2 → walk m n l1 ≡ₚ walk m n l2.
Proof. intros H. destruct n; [done|]. simpl. by rewrite H. Qed.

Lemma walk_S m n l : walk m (S n) l ≡ₚ l ++ walk m n (l ≫= kids m).
Proof.
  induction l as [|x l IH]; [by destruct n|].
  change (walk m (S n) (x :: l)) with ((x :: walk m n (kids m x)) ++ walk m (S n) l).
  rewrite IH. cbn [mbind list_bind]. rewrite walk_app. simpl. f_equiv.
  rewrite !app_assoc. f_equiv. apply Permutation_app_comm.
Qed.

Lemma walk_levels m n k :
  NoDup (keys m) → walk m n (level m k) ≡ₚ seq k n ≫= level m.
Proof.
  intros Hnd. revert k. induction n as [|n IH]; intros k; [done|].
  rewrite walk_S, (walk_Permutation m n _ _ (level_kids m k Hnd)), IH. done.
Qed.

Lemma levels_all m n :
  NoDup (keys m) →
  (∀ x, x ∈ keys m → ∃ d, d < n ∧ at_depth m d x = true) →
  seq 0 n ≫= level m ≡ₚ keys m.
Proof.
  intros Hnd Hd. apply NoDup_Permutation; [|done|].
  - apply NoDup_bind; [|intros; by apply NoDup_level|apply NoDup_seq].
    intros k1 k2 y _ _ [_ H1]%elem_of_level [_ H2]%elem_of_level.
    by eapply at_depth_unique.
  - intros y. rewrite list_elem_of_bind. split.
    + by intros (k & [? _]%elem_of_level & _).
    + intros Hy. destruct (Hd _ Hy) as (d & Hlt & Hat). exists d.
      rewrite elem_of_level, elem_of_seq. split; [done|lia].
Qed.

(** ** Reading the linked table as a forest *)

Lemma linked_children m x o :
  linked m (keys m) !! x = Some o → obj_id o = x ∧ obj_children o = kids m x.
Proof.
  rewrite linked_lookup. destruct (createNodes m !! x); by intros; simplify_eq/=.
Qed.

Lemma toTree_ids m fuel l ts :
  mapM (toTree (linked m (keys m)) fuel) l = Some ts →
  forest_ids ts = walk m fuel l.
Proof.
  revert l ts. induction fuel as [|fuel IH]; intros l ts.
  - rewrite mapM_Some. intros H. destruct H; [done|]. done.
  - rewrite mapM_Some. induction 1 as [|x t l ts Hx _ IHl]; [done|].
    cbn [toTree] in Hx.
    destruct (linked m (keys m) !! x) as [o|] eqn:Ho; [|done].
    cbn [mbind option_bind] in Hx.
    destruct (mapM _ (obj_children o)) as [cs|] eqn:Hcs; [|done].
    simplify_eq/=. destruct (linked_children _ _ _ Ho) as [-> Hk].
    rewrite Hk in Hcs. apply IH in Hcs. unfold forest_ids in *. simpl.
    by rewrite Hcs, IHl.
Qed.

Lemma toTree_is_Some m fuel d x :
  x ∈ keys m → at_depth m d x = true → length (keys m) ≤ d + fuel →
  is_Some (toTree (linked m (keys m)) fuel x).
Proof.
  revert d x. induction fuel as [|fuel IH]; intros d x Hx Hd Hle.
  - pose proof (at_depth_lt m d x Hx Hd). lia.
  - cbn [toTree]. pose proof (proj2 (linked_is_Some m (keys m) x) Hx) as [o Ho].
    rewrite Ho. cbn [mbind option_bind].
    destruct (linked_children _ _ _ Ho) as [_ ->].
    assert (is_Some (mapM (toTree (linked m (keys m)) fuel) (kids m x))) as [cs ->]; [|by eexists].
    apply mapM_is_Some, Forall_forall. intros c Hc%elem_of_kids.
    apply (IH (S d)); [by destruct (referrer_in_keys _ _ _ Hc)| |lia].
    apply at_depth_S. eauto.
Qed.

Lemma size_linked m : NoDup (keys m) → size (linked m (keys m)) = length (keys m).
Proof.
  intros Hnd. rewrite <-size_dom, <-(size_list_to_set (C:=gset string)) by done.
  f_equal. apply set_eq. intros k.
  by rewrite elem_of_dom, linked_is_Some, elem_of_list_to_set.
Qed.

Lemma time_orderedb_sound m :
  NoDup (keys m) → time_orderedb m = true → time_ordered m.
Proof.
  intros Hnd Hb x p vx vp Hx Hp Hvp. unfold time_orderedb in Hb.
  rewrite forallb_forall in Hb. apply entry_Some in Hx; [|done].
  apply list_elem_of_In, Hb in Hx. simpl in Hx. rewrite Hp, Hvp in Hx. lia.
Qed.

(** The forest of the builder exists for every mapping with one entry per
    key: what hangs below the roots is finite, cycles are out of reach. *)
Lemma builtForest_total m : NoDup (keys m) → is_Some (builtForest m).
Proof.
  intros Hnd. unfold builtForest. rewrite buildTree_spec by done.
  rewrite size_linked by done. apply mapM_is_Some, Forall_forall. intros x Hx.
  apply list_elem_of_filter in Hx as [Hr Hx].
  apply (toTree_is_Some m _ 0); [done|by apply at_depth_0|lia].
Qed.

(** The normalizer makes mappings with one entry per key. *)
Lemma collectVisits_NoDup startT endT fetchedVisits :
  NoDup (keys (collectVisits startT endT fetchedVisits)).
Proof.
  unfold collectVisits.
  assert (∀ item visits acc, NoDup (keys acc) →
            NoDup (keys (foldl (addVisit startT endT item) acc visits))) as Hinner.
  { intros item visits. induction visits as [|v visits IH]; intros acc Hacc; [done|].
    simpl. apply IH. unfold addVisit.
    repeat case_match; try done. unfold keys. rewrite fmap_app. simpl.
    apply NoDup_app. split_and!; [done| |apply NoDup_singleton].
    intros k Hk ->%list_elem_of_singleton.
    unfold map_has in *. by rewrite bool_decide_eq_true_2 in * by done. }
  assert (∀ l acc, NoDup (keys acc) →
            NoDup (keys (foldl (addVisits startT endT) acc l))) as Houter.
  { induction l as [|[item visits] l IH]; intros acc Hacc; [done|].
    simpl. apply IH. by apply Hinner. }
  apply Houter. constructor.
Qed.

(** C1: for a visit mapping with one entry per key and an acyclic
    referrer relation, the forest handed on by the tree-building phase
    exists and its visit ids, parents before children, are a rearrangement
    of the keys of the mapping: every visit id occurs exactly once, none
    is lost and none occurs in two places. *)
Theorem C1_forest_holds_every_visit_once m :
  NoDup (keys m) → acyclic m →
  ∃ forest, builtForest m = Some forest ∧
            forest_ids forest ≡ₚ keys m ∧
            NoDup (forest_ids forest) ∧
            (∀ x, x ∈ forest_ids forest ↔ x ∈ keys m).
Proof.
  intros Hnd Hac.
  pose proof (λ y Hy, acyclic_depth m y Hac Hy) as Hdepth.
  unfold builtForest. rewrite buildTree_spec by done. rewrite size_linked by done.
  assert (is_Some (mapM (toTree (linked m (keys m)) (length (keys m))) (tops m)))
    as [forest Hf].
  { apply mapM_is_Some, Forall_forall. intros x Hx.
    apply list_elem_of_filter in Hx as [Hr Hx].
    apply (toTree_is_Some m _ 0); [done|by apply at_depth_0|lia]. }
  exists forest. split; [done|].
  assert (forest_ids forest ≡ₚ keys m) as Hperm.
  { rewrite (toTree_ids _ _ _ _ Hf), tops_level, walk_levels by done.
    by apply levels_all. }
  split_and!; [done| |].
  - by rewrite Hperm.
  - intros x. by rewrite Hperm.
Qed.

Lemma C1_forest_holds_every_visit_once_witness :
  NoDup (keys demoMap) ∧ acyclic demoMap ∧
  ∃ forest, builtForest demoMap = Some forest ∧
            forest_ids forest ≡ₚ keys demoMap ∧
            NoDup (forest_ids forest) ∧
            (∀ x, x ∈ forest_ids forest ↔ x ∈ keys demoMap).
Proof.
  assert (NoDup (keys demoMap)) as Hnd.
  { apply (bool_decide_unpack _). vm_compute. exact I. }
  assert (acyclic demoMap) as Hac.
  { apply time_ordered_acyclic; [done|]. apply time_orderedb_sound; [done|].
    vm_compute. reflexivity. }
  split; [done|]. split; [done|].
  apply (C1_forest_holds_every_visit_once demoMap); done.
Defined.

(** Without acyclicity visits are lost: two visits referring to each other
    are both children, so neither is a root and the forest is empty. *)
Example cyclic_mapping_loses_visits :
  NoDup (keys cyclicMap) ∧ builtForest cyclicMap = Some [].
Proof.
  split; [|by vm_compute]. apply (bool_decide_unpack _). vm_compute. exact I.
Qed.

(** C8: in the output of the tree builder a visit is a root iff no node
    object lists it among its children; the final roots and the visits
    listed in some children array are disjoint and together are exactly
    the visit ids of the mapping, each root once. *)
Theorem C8_roots_complement_children m :
  NoDup (keys m) →
  (∀ x, x ∈ keys m →
        (x ∈ (buildTree m).2 ↔ ¬ listed_as_child (buildTree m).1 x)) ∧
  (∀ x, ¬ (x ∈ (buildTree m).2 ∧ listed_as_child (buildTree m).1 x)) ∧
  (∀ x, x ∈ keys m ↔ x ∈ (buildTree m).2 ∨ listed_as_child (buildTree m).1 x) ∧
  NoDup (buildTree m).2.
Proof.
  intros Hnd. rewrite buildTree_spec by done. cbn [fst snd].
  assert (∀ x, x ∈ tops m ↔ x ∈ keys m ∧ referrer m x = None) as Htops.
  { intros x. unfold tops. rewrite list_elem_of_filter. naive_solver. }
  split_and!.
  - intros x Hx. rewrite Htops, listed_linked, <-eq_None_not_Some. naive_solver.
  - intros x. rewrite Htops, listed_linked. intros [[_ ->] [? ?]]. done.
  - intros x. rewrite Htops, listed_linked. split.
    + intros Hx. destruct (referrer m x) eqn:Hr; [right; eauto|by left].
    + intros [[? _]|[p Hp]]; [done|]. by destruct (referrer_in_keys _ _ _ Hp).
  - by apply NoDup_filter.
Qed.

Lemma C8_roots_complement_children_witness :
  NoDup (keys demoMap) ∧
  (∀ x, x ∈ keys demoMap →
        (x ∈ (buildTree demoMap).2 ↔ ¬ listed_as_child (buildTree demoMap).1 x)) ∧
  (∀ x, ¬ (x ∈ (buildTree demoMap).2 ∧ listed_as_child (buildTree demoMap).1 x)) ∧
  (∀ x, x ∈ keys demoMap ↔
        x ∈ (buildTree demoMap).2 ∨ listed_as_child (buildTree demoMap).1 x) ∧
  NoDup (buildTree demoMap).2.
Proof.
  assert (NoDup (keys demoMap)) as Hnd.
  { apply (bool_decide_unpack _). vm_compute. exact I. }
  split; [done|]. apply (C8_roots_complement_children demoMap). done.
Defined.

End builder.

(** ** The duplicate collapser *)

Section collapser.

Implicit Types (arr cs : list TreeNode) (a b x y : TreeNode).

(** Induction on trees with the induction hypothesis for every child. *)
Lemma TreeNode_forall_ind (P : TreeNode → Prop) :
  (∀ i d cs, Forall P cs → P (mkTreeNode i d cs)) → ∀ t, P t.
Proof.
  intros Hnode. fix IH 1. intros [i d cs]. apply Hnode.
  induction cs as [|c cs IHcs]; constructor; [apply IH|apply IHcs].
Qed.

Lemma same_url_true (s1 s2 : option TreeNode) :
  same_url s1 s2 = true ↔
  ∃ u, s1 ≫= node_url = Some u ∧ s2 ≫= node_url = Some u ∧ truthy u = true.
Proof.
  unfold same_url. destruct (s1 ≫= node_url) as [u|], (s2 ≫= node_url) as [v|];
    try naive_solver.
  rewrite !andb_true_iff. destruct (String.eqb_spec u v); naive_solver.
Qed.

Lemma same_url_congr (s s1 s2 : option TreeNode) :
  same_url s1 s2 = true → same_url s s1 = same_url s s2.
Proof.
  intros (u & H1 & H2 & _)%same_url_true. unfold same_url. by rewrite H1, H2.
Qed.

Lemma same_url_None_r (s : option TreeNode) : same_url s None = false.
Proof. unfold same_url. simpl. by destruct (s ≫= node_url). Qed.

Lemma markDuplicates_spec arr i :
  i ∈ markDuplicates arr ↔ same_url (arr !! i) (arr !! (i + 1)) = true.
Proof.
  unfold markDuplicates.
  assert (∀ l (acc : gset nat),
    i ∈ foldl (λ acc i, if same_url (arr !! i) (arr !! (i + 1))
                        then {[i]} ∪ acc else acc) acc l ↔
    i ∈ acc ∨ (i ∈ l ∧ same_url (arr !! i) (arr !! (i + 1)) = true)) as Hfold.
  { induction l as [|j l IH]; intros acc; simpl.
    - rewrite elem_of_nil. naive_solver.
    - rewrite IH, elem_of_cons. destruct (same_url (arr !! j) _) eqn:Hj.
      + rewrite elem_of_union, elem_of_singleton.
        split; [intros [[->|?]|[? ?]]; eauto|intros [?|[[->|?] ?]]; eauto].
      + split; [intros [?|[? ?]]; eauto|intros [?|[[->|?] ?]]; eauto; congruence]. }
  rewrite Hfold, elem_of_seq. split; [set_solver|].
  intros H. right. split; [|done]. split; [lia|].
  destruct (decide (i + 1 < length arr)) as [|Hge]; [lia|].
  rewrite (lookup_ge_None_2 arr (i + 1)), same_url_None_r in H by lia. done.
Qed.

Lemma markDuplicates_at pre a rest :
  bool_decide (length pre ∈ markDuplicates (pre ++ a :: rest)) =
  same_url (Some a) (head rest).
Proof.
  destruct (same_url (Some a) (head rest)) eqn:Hs;
    [apply bool_decide_eq_true_2|apply bool_decide_eq_false_2; intros Hm; revert Hs;
     apply not_false_iff_true; revert Hm]; rewrite markDuplicates_spec;
  rewrite list_lookup_middle by done;
  replace (length pre + 1) with (S (length pre)) by lia;
  rewrite (lookup_app_r pre) by lia;
  replace (S (length pre) - length pre) with 1 by lia; simpl;
  by rewrite <-head_lookup.
Qed.

Lemma foldl_reverse {A B} (f : A → B → A) (a : A) (l : list B) :
  foldl f a (reverse l) = foldr (λ i acc, f acc i) a l.
Proof.
  induction l as [|i l IH]; [done|].
  by rewrite reverse_cons, foldl_snoc, IH.
Qed.

(** The backward splice loop leaves the prefix it has not reached yet and
    the collapsed suffix. *)
Lemma splice_loop arr pre suf :
  arr = pre ++ suf →
  foldr (λ i acc, if bool_decide (i ∈ markDuplicates arr) then delete i acc else acc)
        arr (seq (length pre) (length suf)) = pre ++ collapse suf.
Proof.
  revert pre. induction suf as [|a rest IH]; intros pre Harr.
  - simpl. by rewrite Harr.
  - cbn [length seq foldr collapse].
    specialize (IH (pre ++ [a])). rewrite length_app, Nat.add_1_r in IH.
    rewrite IH by (by rewrite <-app_assoc).
    pose proof (markDuplicates_at pre a rest) as Hm. rewrite <-Harr in Hm. rewrite Hm.
    destruct (same_url (Some a) (head rest)); [|by rewrite <-app_assoc].
    rewrite <-app_assoc. simpl.
    by rewrite delete_middle.
Qed.

Lemma collapseChildren_collapse arr : collapseChildren arr = collapse arr.
Proof.
  unfold collapseChildren, spliceMarked. case_bool_decide as Hsz.
  - rewrite foldl_reverse. apply (splice_loop arr [] arr). done.
  - assert (markDuplicates arr = ∅) as Hempty.
    { apply leibniz_equiv, size_empty_inv. lia. }
    pose proof (splice_loop arr [] arr eq_refl) as Hl. simpl in Hl. rewrite <-Hl.
    rewrite Hempty. clear. induction (seq 0 (length arr)) as [|i l IH]; [done|].
    simpl. rewrite bool_decide_eq_false_2 by set_solver. done.
Qed.

Lemma keep_loop roots acc pre suf :
  roots = pre ++ suf →
  foldl (λ acc i, if bool_decide (i ∈ markDuplicates roots) then acc
                  else acc ++ option_list (roots !! i))
        acc (seq (length pre) (length suf)) = acc ++ collapse suf.
Proof.
  revert acc pre. induction suf as [|a rest IH]; intros acc pre Hr.
  - simpl. by rewrite app_nil_r.
  - cbn [length seq foldl collapse].
    specialize (IH (if bool_decide (length pre ∈ markDuplicates roots) then acc
                    else acc ++ option_list (roots !! length pre)) (pre ++ [a])).
    rewrite length_app, Nat.add_1_r in IH. rewrite IH by (by rewrite <-app_assoc).
    pose proof (markDuplicates_at pre a rest) as Hm. rewrite <-Hr in Hm. rewrite Hm.
    destruct (same_url (Some a) (head rest)); [done|].
    rewrite Hr, list_lookup_middle by done. simpl. by rewrite <-app_assoc.
Qed.

Lemma collapseRoots_collapse roots : collapseRoots roots = collapse roots.
Proof.
  unfold collapseRoots, keepUnmarked. case_bool_decide as Hsz.
  - apply (keep_loop roots [] [] roots). done.
  - assert (markDuplicates roots = ∅) as Hempty.
    { apply leibniz_equiv, size_empty_inv. lia. }
    assert (∀ i, same_url (roots !! i) (roots !! (i + 1)) = false) as Hno.
    { intros i. apply not_true_iff_false. rewrite <-markDuplicates_spec, Hempty.
      set_solver. }
    clear Hsz Hempty. induction roots as [|a rest IH]; [done|]. simpl.
    pose proof (Hno 0) as H0. simpl in H0. rewrite <-head_lookup in H0. rewrite H0.
    f_equal. apply IH. intros i. apply (Hno (S i)).
Qed.

(** *** The collapsed list *)

Lemma collapse_Forall (P : TreeNode → Prop) arr :
  Forall P arr → Forall P (collapse arr).
Proof.
  induction 1 as [|a rest Ha _ IH]; [done|]. simpl.
  destruct (same_url _ _); [done|by constructor].
Qed.

Lemma collapse_fmap (f : TreeNode → TreeNode) arr :
  (∀ c, node_url (f c) = node_url c) →
  collapse (f <$> arr) = f <$> collapse arr.
Proof.
  intros Hf. induction arr as [|a rest IH]; [done|]. cbn [fmap list_fmap collapse].
  change (list_fmap _ _ f rest) with (f <$> rest).
  assert (same_url (Some (f a)) (head (f <$> rest)) = same_url (Some a) (head rest)) as ->.
  { unfold same_url. simpl. rewrite Hf. destruct rest; simpl; by rewrite ?Hf. }
  rewrite IH. by destruct (same_url _ _).
Qed.

Lemma collapse_head (s : option TreeNode) arr :
  same_url s (head (collapse arr)) = same_url s (head arr).
Proof.
  induction arr as [|a rest IH]; [done|]. simpl.
  destruct (same_url (Some a) (head rest)) eqn:Ha; [|done].
  rewrite IH. symmetry. by apply same_url_congr.
Qed.

Lemma collapse_idemp arr : collapse (collapse arr) = collapse arr.
Proof.
  induction arr as [|a rest IH]; [done|]. simpl.
  destruct (same_url (Some a) (head rest)) eqn:Ha; [done|].
  simpl. by rewrite collapse_head, Ha, IH.
Qed.

Lemma collapse_app_cut pre suf :
  same_url (last pre) (head suf) = false →
  collapse (pre ++ suf) = collapse pre ++ collapse suf.
Proof.
  induction pre as [|a pre IH]; [done|]. intros Hcut. simpl.
  destruct pre as [|b pre].
  - simpl in *. rewrite Hcut, same_url_None_r. done.
  - rewrite IH by done. simpl. by destruct (same_url (Some a) (Some b)).
Qed.

Lemma collapse_run run post u z :
  Forall (λ x, node_url x = Some u) run → truthy u = true →
  last run = Some z → same_url (Some z) (head post) = false →
  collapse (run ++ post) = z :: collapse post.
Proof.
  intros Hrun Hu. induction Hrun as [|a run Ha Hrun IH]; [done|]. intros Hlast Hz.
  destruct run as [|b run].
  - simpl in *. simplify_eq. by rewrite Hz.
  - rewrite last_cons_cons in Hlast. specialize (IH Hlast Hz).
    change ((a :: b :: run) ++ post) with (a :: (b :: run) ++ post).
    cbn [collapse]. rewrite IH.
    assert (same_url (Some a) (head ((b :: run) ++ post)) = true) as ->; [|done].
    apply same_url_true. exists u. simpl. by inversion Hrun.
Qed.

(** The siblings that stay are those at the positions whose next sibling
    does not pass the URL test with them. *)
Lemma collapse_positions arr :
  collapse arr =
  omap (λ i, if same_url (arr !! i) (arr !! (i + 1)) then None else arr !! i)
       (seq 0 (length arr)).
Proof.
  enough (∀ suf pre, arr = pre ++ suf →
    collapse suf =
    omap (λ i, if same_url (arr !! i) (arr !! (i + 1)) then None else arr !! i)
         (seq (length pre) (length suf))) as H by (by apply (H arr [])).
  induction suf as [|a rest IH]; intros pre Harr; [done|].
  cbn [length seq omap collapse list_omap].
  specialize (IH (pre ++ [a])). rewrite length_app, Nat.add_1_r in IH.
  change (list_omap _ _ ?f ?l) with (omap f l).
  rewrite <-IH by (by rewrite <-app_assoc).
  assert (arr !! length pre = Some a) as -> by (by rewrite Harr, list_lookup_middle).
  assert (arr !! (length pre + 1) = head rest) as ->.
  { rewrite Harr, Nat.add_1_r, (lookup_app_r pre) by lia.
    replace (S (length pre) - length pre) with 1 by lia. simpl.
    by rewrite <-head_lookup. }
  by destruct (same_url (Some a) (head rest)).
Qed.

(** *** The recursive pass *)

Lemma node_url_collapseTree t : node_url (collapseTree t) = node_url t.
Proof. destruct t as [i d cs]. simpl. by destruct (length cs <? 2). Qed.

Lemma collapseTree_unfold i d cs :
  collapseTree (mkTreeNode i d cs) =
  if length cs <? 2 then mkTreeNode i d cs
  else mkTreeNode i d (collapseTree <$> collapse cs).
Proof.
  simpl. destruct (length cs <? 2); [done|].
  by rewrite collapse_fmap by apply node_url_collapseTree.
Qed.

Lemma height_child cs c : c ∈ cs → height c ≤ max_list (height <$> cs).
Proof.
  intros Hc. apply max_list_elem_of_le. apply list_elem_of_fmap. eauto.
Qed.

Lemma filterDuplicatesFuel_collapseTree fuel t :
  height t ≤ fuel → filterDuplicatesFuel fuel t = collapseTree t.
Proof.
  revert fuel. induction t as [i d cs IH] using TreeNode_forall_ind. intros fuel Hh.
  destruct fuel as [|fuel]; [simpl in Hh; lia|].
  rewrite collapseTree_unfold. cbn [filterDuplicatesFuel children node_id data].
  destruct (length cs <? 2); [done|]. f_equal.
  rewrite collapseChildren_collapse. apply Forall_fmap_ext_1.
  apply collapse_Forall. rewrite Forall_forall in IH |- *. intros c Hc.
  apply IH; [done|]. pose proof (height_child cs c Hc). simpl in Hh. lia.
Qed.

Lemma filterConsecutiveDuplicatesInChildren_collapseTree t :
  filterConsecutiveDuplicatesInChildren t = collapseTree t.
Proof. by apply filterDuplicatesFuel_collapseTree. Qed.

(** More fuel than the height changes nothing. *)
Lemma filterDuplicatesFuel_enough fuel t :
  height t ≤ fuel →
  filterDuplicatesFuel fuel t = filterConsecutiveDuplicatesInChildren t.
Proof.
  intros. by rewrite filterConsecutiveDuplicatesInChildren_collapseTree,
    filterDuplicatesFuel_collapseTree.
Qed.

Lemma collapsePass_collapse f :
  collapsePass f = collapse (collapseTree <$> f).
Proof.
  unfold collapsePass. destruct f as [|t f]; [done|]. cbn [length Nat.ltb Nat.leb].
  rewrite collapseRoots_collapse. f_equal. apply Forall_fmap_ext_1, Forall_forall.
  intros. apply filterConsecutiveDuplicatesInChildren_collapseTree.
Qed.

Lemma collapseTree_idemp t : collapseTree (collapseTree t) = collapseTree t.
Proof.
  induction t as [i d cs IH] using TreeNode_forall_ind.
  rewrite collapseTree_unfold. destruct (length cs <? 2) eqn:Hlen.
  - by rewrite collapseTree_unfold, Hlen.
  - rewrite collapseTree_unfold. case_match; [done|]. f_equal.
    rewrite collapse_fmap by apply node_url_collapseTree.
    rewrite collapse_idemp, <-list_fmap_compose. apply Forall_fmap_ext_1.
    by apply collapse_Forall.
Qed.

Lemma collapse_maximal_run pre run post u z :
  maximal_run pre run post u → truthy u = true → last run = Some z →
  collapse (pre ++ run ++ post) = collapse pre ++ z :: collapse post.
Proof.
  intros (Hne & Hrun & Hpre & Hpost) Hu Hz.
  assert (∀ s s', s' ≫= node_url ≠ Some u ∨ s ≫= node_url ≠ Some u →
                  (s ≫= node_url = Some u ∨ s' ≫= node_url = Some u) →
                  same_url s s' = false) as Hdiff.
  { intros s s' Hor Hor'. apply not_true_iff_false.
    intros (v & H1 & H2 & _)%same_url_true. naive_solver. }
  assert (node_url z = Some u) as Hzu.
  { rewrite Forall_forall in Hrun. apply Hrun. apply last_Some in Hz as [l ->].
    apply elem_of_app. right. by left. }
  rewrite collapse_app_cut.
  - f_equal. apply (collapse_run _ _ u); [done..|]. apply Hdiff; eauto.
  - destruct run as [|a run]; [done|]. simpl. apply Hdiff; [eauto|].
    right. simpl. by inversion Hrun.
Qed.

(** C2 (amended): one application of duplicate collapsing to a sibling
    list works the same on a children array and on the root list; within
    every maximal run of consecutive siblings sharing the same non-empty
    URL exactly the last-positioned sibling stays and the earlier ones go;
    two runs of one URL that are not adjacent each keep their last
    sibling, so same-URL siblings that were not adjacent are both
    preserved; the siblings that stay are those at the positions whose
    next sibling fails the URL test; siblings whose URL is empty or
    missing all stay. *)
Theorem C2_collapse_keeps_last_of_each_run :
  (∀ arr, collapseRoots arr = collapseChildren arr) ∧
  (∀ pre run post u z,
     maximal_run pre run post u → truthy u = true → last run = Some z →
     collapseChildren (pre ++ run ++ post) =
     collapseChildren pre ++ z :: collapseChildren post) ∧
  (∀ pre run1 mid run2 post u z1 z2,
     maximal_run pre run1 (mid ++ run2 ++ post) u →
     maximal_run (pre ++ run1 ++ mid) run2 post u →
     truthy u = true → last run1 = Some z1 → last run2 = Some z2 →
     collapseChildren (pre ++ run1 ++ mid ++ run2 ++ post) =
     collapseChildren pre ++ z1 :: collapseChildren mid ++ z2 :: collapseChildren post) ∧
  (∀ arr,
     collapseChildren arr =
     omap (λ i, if same_url (arr !! i) (arr !! (i + 1)) then None else arr !! i)
          (seq 0 (length arr))) ∧
  (∀ arr,
     Forall (λ x, truthy_opt (node_url x) = false) arr → collapseChildren arr = arr).
Proof.
  split_and!.
  - intros arr. by rewrite collapseRoots_collapse, collapseChildren_collapse.
  - intros. rewrite !collapseChildren_collapse. by eapply collapse_maximal_run.
  - intros pre run1 mid run2 post u z1 z2 H1 H2 Hu Hz1 Hz2.
    rewrite !collapseChildren_collapse.
    rewrite (collapse_maximal_run pre run1 _ u z1) by done. do 2 f_equal.
    apply (collapse_maximal_run _ _ _ u); [|done..].
    destruct H1 as (_ & _ & _ & Hhd), H2 as (Hne & Hrun & Hlast & Hpost).
    split_and!; [done..| |done].
    destruct mid as [|c mid _] using rev_ind.
    + destruct run2 as [|b run2]; [done|]. simpl in Hhd. by inversion Hrun.
    + rewrite !app_assoc, last_snoc in Hlast. by rewrite last_snoc.
  - intros arr. rewrite collapseChildren_collapse. apply collapse_positions.
  - intros arr Hall. rewrite collapseChildren_collapse.
    induction Hall as [|a rest Ha _ IH]; [done|]. simpl. rewrite IH.
    assert (same_url (Some a) (head rest) = false) as ->; [|done].
    apply not_true_iff_false. intros (u & Hau & _ & Hu)%same_url_true.
    simpl in Hau. rewrite Hau in Ha. simpl in Ha. congruence.
Qed.

Lemma C2_collapse_keeps_last_of_each_run_witness :
  let pre := [leaf "1" "https://a.example/" 100] in
  let run := [leaf "2" "https://a.example/x" 200; leaf "3" "https://a.example/x" 300] in
  let post := [leaf "4" "https://a.example/" 400] in
  maximal_run pre run post "https://a.example/x" ∧
  truthy "https://a.example/x" = true ∧
  last run = Some (leaf "3" "https://a.example/x" 300) ∧
  collapseChildren (pre ++ run ++ post) =
  collapseChildren pre ++ leaf "3" "https://a.example/x" 300 :: collapseChildren post.
Proof.
  intros pre run post.
  assert (maximal_run pre run post "https://a.example/x") as Hrun.
  { split_and!; [done|by repeat constructor|by vm_compute..]. }
  split_and!; [done|reflexivity|reflexivity|].
  apply (proj1 (proj2 C2_collapse_keeps_last_of_each_run)
           pre run post "https://a.example/x"); [done|reflexivity|reflexivity].
Defined.

(** Two consecutive siblings whose URL is the empty string share their
    URL, and both stay: the URL test asks for a non-empty URL. *)
Lemma C2_counterexample_empty_url_run_stays :
  let a := leaf "1" EmptyString 100 in
  let b := leaf "2" EmptyString 200 in
  maximal_run [] [a; b] [] EmptyString ∧
  last [a; b] = Some b ∧
  collapseChildren [a; b] = [a; b] ∧
  collapseRoots [a; b] = [a; b] ∧
  collapseChildren ([] ++ [a; b] ++ []) ≠
  collapseChildren [] ++ b :: collapseChildren [] ∧
  forest_ids <$> builtForest (collectVisits 0 1000 emptyUrlFetched) =
    Some ["1"; "2"] ∧
  collapsePass <$> builtForest (collectVisits 0 1000 emptyUrlFetched) =
    builtForest (collectVisits 0 1000 emptyUrlFetched).
Proof.
  intros a b. split_and!; [|reflexivity|by vm_compute..].
  split_and!; [done|by repeat constructor|by vm_compute..].
Qed.

(** C3 (amended): of every maximal run of consecutive siblings (children
    or roots) sharing the same non-empty URL the collapser keeps the
    last-positioned member; that member has the greatest [visitTime] of
    the run when the run is in ascending order of [visitTime]. *)
Theorem C3_collapse_keeps_last_positioned pre run post u z :
  maximal_run pre run post u → truthy u = true → last run = Some z →
  collapseChildren (pre ++ run ++ post) =
    collapseChildren pre ++ z :: collapseChildren post ∧
  collapseRoots (pre ++ run ++ post) =
    collapseRoots pre ++ z :: collapseRoots post ∧
  (ascending_time run → Forall (λ x, time_le x z) run).
Proof.
  intros Hrun Hu Hz. rewrite !collapseRoots_collapse, !collapseChildren_collapse.
  split_and!; [by eapply collapse_maximal_run..|].
  intros Hasc. apply Forall_forall. intros x Hx.
  apply list_elem_of_lookup in Hx as [i Hi]. rewrite last_lookup in Hz.
  apply (Hasc i (pred (length run))); [|done..].
  apply lookup_lt_Some in Hi. lia.
Qed.

Lemma C3_collapse_keeps_last_positioned_witness :
  let pre := [leaf "1" "https://a.example/" 100] in
  let run := [leaf "2" "https://a.example/x" 200; leaf "3" "https://a.example/x" 300] in
  let post := [leaf "4" "https://a.example/" 400] in
  let z := leaf "3" "https://a.example/x" 300 in
  maximal_run pre run post "https://a.example/x" ∧
  truthy "https://a.example/x" = true ∧
  last run = Some z ∧
  collapseChildren (pre ++ run ++ post) =
    collapseChildren pre ++ z :: collapseChildren post ∧
  collapseRoots (pre ++ run ++ post) =
    collapseRoots pre ++ z :: collapseRoots post ∧
  (ascending_time run → Forall (λ x, time_le x z) run).
Proof.
  intros pre run post z.
  assert (maximal_run pre run post "https://a.example/x") as Hrun.
  { split_and!; [done|by repeat constructor|by vm_compute..]. }
  split_and!; [done|reflexivity|reflexivity|..];
    apply (C3_collapse_keeps_last_positioned pre run post "https://a.example/x" z);
    done || reflexivity.
Defined.

(** Two consecutive siblings with one URL, the later visit first: the
    sibling that stays is the last-positioned one, not the one with the
    greatest [visitTime]. *)
Lemma C3_counterexample_survivor_not_most_recent :
  let a := leaf "1" "https://a.example/" 300 in
  let b := leaf "2" "https://a.example/" 200 in
  maximal_run [] [a; b] [] "https://a.example/" ∧
  collapseChildren [a; b] = [b] ∧
  collapsePass [a; b] = [b] ∧
  node_time a = Some 300%Z ∧ node_time b = Some 200%Z ∧
  ¬ Forall (λ x, time_le x b) [a; b] ∧
  (λ f, (forest_ids f, node_time <$> f)) <$>
    builtForest (collectVisits 0 1000 laterFirstFetched) =
    Some (["1"; "2"], [Some 300%Z; Some 200%Z]) ∧
  (λ f, (forest_ids f, node_time <$> f)) <$>
    (collapsePass <$> builtForest (collectVisits 0 1000 laterFirstFetched)) =
    Some (["2"], [Some 200%Z]).
Proof.
  intros a b.
  assert (¬ Forall (λ x, time_le x b) [a; b]) as Hnot.
  { intros H. inversion H as [|? ? Ha _]. vm_compute in Ha. done. }
  split_and!; [|by vm_compute..].
  split_and!; [done|by repeat constructor|by vm_compute..].
Qed.

(** C4: the collapsing pass, children pass on every root followed by the
    pass on the root list, is idempotent on every forest. *)
Theorem C4_collapsePass_idempotent (f : Forest) :
  collapsePass (collapsePass f) = collapsePass f.
Proof.
  rewrite !collapsePass_collapse.
  rewrite <-(collapse_fmap collapseTree (collapseTree <$> f))
    by apply node_url_collapseTree.
  rewrite collapse_idemp, <-list_fmap_compose. f_equal.
  apply Forall_fmap_ext_1, Forall_forall. intros t _. apply collapseTree_idemp.
Qed.

(** The children pass returns at a node with fewer than two children
    without visiting that child: a run below an only child stays. *)
Example only_child_subtree_not_collapsed :
  collapsePass [onlyChildTree] = [onlyChildTree].
Proof. by vm_compute. Qed.

End collapser.

(** ** The search projector *)

Section projector.

Context `{engine : !LowerCase}.

Implicit Types (q s : string) (t : TreeNode) (f cs : list TreeNode).

(** *** Substring search *)

Lemma append_cons c s1 s2 :
  String.append (String c s1) s2 = String c (String.append s1 s2).
Proof. reflexivity. Qed.

Lemma prefix_spec q s : String.prefix q s = true ↔ ∃ post, s = String.append q post.
Proof.
  revert s. induction q as [|c q IH]; intros s.
  - split; [|by destruct s]. intros _. by exists s.
  - setoid_rewrite append_cons.
    destruct s as [|c' s]; simpl; [split; [done|by intros [? ?]]|].
    destruct (Ascii.ascii_dec c c') as [->|Hne].
    + rewrite IH. split; intros [post H]; exists post; [by rewrite H|by simplify_eq].
    + split; [done|]. intros [post H]. by simplify_eq.
Qed.

Lemma includes_spec s q :
  includes s q = true ↔ ∃ pre post, s = String.append pre (String.append q post).
Proof.
  induction s as [|c s IH]; cbn [includes].
  - rewrite orb_false_r, prefix_spec. split.
    + intros [post H]. by exists EmptyString, post.
    + intros (pre & post & H). destruct pre; [by exists post|done].
  - rewrite orb_true_iff, prefix_spec, IH. split.
    + intros [[post H]|(pre & post & ->)].
      * by exists EmptyString, post.
      * by exists (String c pre), post.
    + intros (pre & post & H). destruct pre as [|c' pre].
      * left. by exists post.
      * right. rewrite append_cons in H. simplify_eq. by exists pre, post.
Qed.



Lemma toLowerCase_empty : toLowerCase EmptyString = EmptyString.
Proof. by rewrite toLowerCase_ascii. Qed.

(** *** Letters and their cases *)







(** *** Retained nodes *)

Lemma existsb_bind {A B} (P : B → bool) (g : A → list B) (l : list A) :
  existsb P (l ≫= g) = existsb (λ x, existsb P (g x)) l.
Proof.
  induction l as [|x l IH]; [done|]. cbn [mbind list_bind existsb].
  change (list_bind _ _ g l) with (l ≫= g). by rewrite existsb_app, IH.
Qed.

Lemma hasMatch_unfold q t :
  hasMatch q t = selfMatches q t || existsb (hasMatch q) (children t).
Proof. destruct t as [i d cs]. unfold hasMatch. simpl. by rewrite existsb_bind. Qed.


Lemma tree_nodes_trans t x y : x ∈ tree_nodes t → y ∈ tree_nodes x → y ∈ tree_nodes t.
Proof.
  induction t as [i d cs IH] using TreeNode_forall_ind. simpl.
  rewrite elem_of_cons, list_elem_of_bind. intros [->|(c & Hx & Hc)] Hy; [done|].
  rewrite elem_of_cons, list_elem_of_bind. right. exists c. split; [|done].
  rewrite Forall_forall in IH. by apply IH.
Qed.

Lemma hasMatch_descendant q t x :
  x ∈ tree_nodes t → hasMatch q x = true → hasMatch q t = true.
Proof.
  unfold hasMatch. rewrite !existsb_exists. intros Hx (y & Hy%list_elem_of_In & Hm).
  exists y. split; [|done]. apply list_elem_of_In. by eapply tree_nodes_trans.
Qed.

Lemma length_omap_pos {A B} (g : A → option B) (P : A → bool) (l : list A) :
  Forall (λ x, is_Some (g x) ↔ P x = true) l →
  (0 <? length (omap g l)) = existsb P l.
Proof.
  induction 1 as [|x l Hx _ IH]; [done|]. cbn [omap list_omap existsb].
  change (list_omap _ _ g l) with (omap g l).
  destruct (g x) as [y|] eqn:Hg.
  - simpl. rewrite (proj1 Hx); eauto.
  - rewrite IH. destruct (P x) eqn:HP; [|done]. destruct (proj2 Hx eq_refl). done.
Qed.

Lemma cloneIfRetained_unfold q t :
  cloneIfRetained q t =
  if intact t &&
     (selfMatches q t || (0 <? length (omap (cloneIfRetained q) (children t))))
  then Some (mkTreeNode (node_id t) (data t) (omap (cloneIfRetained q) (children t)))
  else None.
Proof.
  destruct t as [i d cs]. unfold intact, selfMatches.
  cbn [cloneIfRetained data children node_id].
  destruct (d ≫= historyItem) as [item|].
  - by rewrite bool_decide_eq_true_2 by eauto.
  - rewrite bool_decide_eq_false_2; [done|]. by intros [? ?].
Qed.

Lemma cloneIfRetained_hasMatch q t :
  Forall (λ x, intact x = true) (tree_nodes t) →
  cloneIfRetained q t =
  if hasMatch q t
  then Some (mkTreeNode (node_id t) (data t) (omap (cloneIfRetained q) (children t)))
  else None.
Proof.
  induction t as [i d cs IH] using TreeNode_forall_ind. intros Hint.
  rewrite cloneIfRetained_unfold, hasMatch_unfold.
  simpl in Hint. apply Forall_cons in Hint as [-> Hint]. cbn [andb children].
  rewrite (length_omap_pos _ (hasMatch q)); [done|].
  rewrite Forall_bind in Hint. rewrite Forall_forall in IH, Hint |- *.
  intros c Hc. rewrite (IH c Hc (Hint c Hc)). destruct (hasMatch q c); [|by split; [intros [? ?]|]].
  split; eauto.
Qed.

Lemma filter_none {A} (P : A → Prop) `{∀ x, Decision (P x)} (l : list A) :
  Forall (λ x, ¬ P x) l → filter P l = [].
Proof.
  induction 1 as [|x l Hx _ IH]; [done|]. by rewrite filter_cons_False.
Qed.

(** The nodes of the clone of a tree are, in order, the nodes of the tree
    that match or have a matching descendant. *)
Lemma clone_nodes q t :
  Forall (λ x, intact x = true) (tree_nodes t) →
  label <$> from_option tree_nodes [] (cloneIfRetained q t) =
  label <$> filter (λ x, hasMatch q x = true) (tree_nodes t).
Proof.
  induction t as [i d cs IH] using TreeNode_forall_ind. intros Hint.
  rewrite cloneIfRetained_hasMatch by done.
  destruct (hasMatch q (mkTreeNode i d cs)) eqn:Hm.
  - cbn [from_option tree_nodes node_id data children].
    rewrite filter_cons_True by done. rewrite !fmap_cons. f_equal.
    simpl in Hint. apply Forall_cons in Hint as [_ Hint]. rewrite Forall_bind in Hint.
    clear Hm. induction cs as [|c cs IHcs]; [done|].
    apply Forall_cons in IH as [IHc IH]. apply Forall_cons in Hint as [Hc Hint].
    cbn [omap list_omap mbind list_bind].
    change (list_omap _ _ ?g cs) with (omap g cs).
    change (list_bind _ _ ?g cs) with (cs ≫= g).
    rewrite filter_app, fmap_app, <-(IHcs IH Hint), <-(IHc Hc).
    destruct (cloneIfRetained q c); [|done]. cbn [mbind list_bind from_option].
    by rewrite fmap_app.
  - rewrite filter_none; [done|]. apply Forall_forall. intros x Hx Hmx.
    pose proof (hasMatch_descendant q (mkTreeNode i d cs) x Hx Hmx). congruence.
Qed.

Lemma projection_nodes q f :
  Forall (λ x, intact x = true) (forest_nodes f) →
  label <$> forest_nodes (omap (cloneIfRetained q) f) =
  label <$> filter (λ x, hasMatch q x = true) (forest_nodes f).
Proof.
  unfold forest_nodes. induction f as [|t f IH]; [done|]. intros Hint.
  cbn [mbind list_bind] in Hint. apply Forall_app in Hint as [Ht Hf].
  cbn [omap list_omap mbind list_bind].
  change (list_omap _ _ ?g f) with (omap g f).
  change (list_bind _ _ ?g f) with (f ≫= g).
  rewrite filter_app, fmap_app, <-(IH Hf), <-(clone_nodes q t Ht).
  destruct (cloneIfRetained q t); [|done]. cbn [mbind list_bind from_option].
  by rewrite fmap_app.
Qed.


(** *** The forests of the builder have their payloads *)

Lemma collectVisits_items startT endT fetchedVisits k v :
  (k, v) ∈ collectVisits startT endT fetchedVisits → is_Some (historyItem v).
Proof.
  unfold collectVisits.
  assert (∀ item visits acc,
            Forall (λ e, is_Some (historyItem e.2)) acc →
            Forall (λ e, is_Some (historyItem e.2))
                   (foldl (addVisit startT endT item) acc visits)) as Hinner.
  { intros item visits. induction visits as [|w visits IH]; intros acc Hacc; [done|].
    simpl. apply IH. unfold addVisit. repeat case_match; try done.
    apply Forall_app. split; [done|]. repeat constructor. simpl. eauto. }
  assert (∀ l acc,
            Forall (λ e, is_Some (historyItem e.2)) acc →
            Forall (λ e, is_Some (historyItem e.2))
                   (foldl (addVisits startT endT) acc l)) as Houter.
  { induction l as [|[item visits] l IH]; intros acc Hacc; [done|].
    simpl. apply IH. by apply Hinner. }
  intros Hin. specialize (Houter fetchedVisits [] (Forall_nil_2 _)).
  rewrite Forall_forall in Houter. apply (Houter _ Hin).
Qed.

Lemma toTree_intact m fuel x t :
  (∀ k v, (k, v) ∈ m → is_Some (historyItem v)) →
  toTree (linked m (keys m)) fuel x = Some t →
  Forall (λ n, intact n = true) (tree_nodes t).
Proof.
  intros Hm. revert x t. induction fuel as [|fuel IH]; intros x t; [done|].
  cbn [toTree]. destruct (linked m (keys m) !! x) as [o|] eqn:Ho; [|done].
  cbn [mbind option_bind].
  destruct (mapM _ (obj_children o)) as [cs|] eqn:Hcs; [|done]. intros [= <-].
  cbn [tree_nodes]. apply Forall_cons. split.
  - unfold intact. apply bool_decide_eq_true_2. cbn [data mbind option_bind].
    rewrite linked_lookup in Ho. destruct (createNodes m !! x) as [o0|] eqn:Ho0; [|done].
    simplify_eq/=. destruct (createNodes_lookup _ _ _ Ho0) as (_ & _ & Hin). eauto.
  - apply Forall_bind. apply mapM_Some in Hcs.
    induction Hcs as [|c t' l k Hc _ IHl]; constructor; [by eapply IH|done].
Qed.

Lemma collapseTree_intact t :
  Forall (λ n, intact n = true) (tree_nodes t) →
  Forall (λ n, intact n = true) (tree_nodes (collapseTree t)).
Proof.
  induction t as [i d cs IH] using TreeNode_forall_ind. intros Hint.
  rewrite collapseTree_unfold. destruct (length cs <? 2); [done|].
  cbn [tree_nodes] in *. apply Forall_cons in Hint as [Hroot Hint].
  apply Forall_cons. split; [done|]. rewrite Forall_bind in Hint |- *.
  apply Forall_fmap. apply collapse_Forall.
  rewrite Forall_forall in IH, Hint |- *. intros c Hc. simpl. by apply IH, Hint.
Qed.

(** Every node of the forest stored by a rebuild has its payload. *)
Lemma processedForest_intact inp forest :
  processedForest inp = Some forest →
  Forall (λ n, intact n = true) (forest_nodes forest).
Proof.
  unfold processedForest.
  set (m := collectVisits (startTime inp) (endTime inp) (fetched inp)).
  destruct (builtForest m) as [built|] eqn:Hb; [|done]. intros [= <-].
  assert (Forall (λ t, Forall (λ n, intact n = true) (tree_nodes t)) built) as Hbuilt.
  { unfold builtForest in Hb.
    rewrite buildTree_spec in Hb by apply collectVisits_NoDup.
    apply mapM_Some in Hb. clear -Hb.
    induction Hb as [|x t l k Hx _ IH]; constructor; [|done].
    eapply toTree_intact; [|done]. intros k' v. apply collectVisits_items. }
  unfold forest_nodes. apply Forall_bind.
  destruct (shouldFilterDuplicates inp); [|done].
  rewrite collapsePass_collapse. apply collapse_Forall, Forall_fmap.
  eapply Forall_impl; [done|]. intros t. apply collapseTree_intact.
Qed.


(** With the empty search text the array handed in is handed back: the
    projection is the canonical root array itself, not a copy. *)
Example empty_search_returns_the_array fuel h a :
  filterAndCloneTreeOnHeap fuel EmptyString h a = Some (h, a).
Proof. reflexivity. Qed.

End projector.

Section projector_examples.

#[local] Existing Instance asciiLowerCase.


End projector_examples.

(** ** The search projector on the heap *)

Section heap_projector.

Context `{engine : !LowerCase}.

Implicit Types (h : heap) (D : gset loc) (e a arr : loc) (t : TreeNode)
  (f : list TreeNode).

(** Induction on [repr_node] with the hypothesis for every child. *)
Lemma repr_node_forall_ind D h (P : loc → TreeNode → Prop) :
  (∀ e i d nd fc elems cs,
     e ∉ D → h !! e = Some (CNode i d (Some fc)) →
     (∀ dl, d = Some dl → is_Some (h !! dl)) → payload h d = nd →
     fc ∉ D → h !! fc = Some (CArray elems) →
     Forall2 (repr_node D h) elems cs → Forall2 P elems cs →
     P e (mkTreeNode i nd cs)) →
  ∀ e t, repr_node D h e t → P e t.
Proof.
  intros Hstep. fix IH 3. intros e t [e' i d nd fc elems cs He Hn Hd Hp Hfc Ha Hcs].
  eapply Hstep; try done.
  clear -IH Hcs. induction Hcs as [|x y l k Hxy _ IHl]; [constructor|].
  constructor; [by apply IH|done].
Qed.

Lemma agree_subseteq D h h' : h ⊆ h' → agree D h h'.
Proof. intros Hsub l c Hl. left. by eapply lookup_weaken. Qed.

Lemma agree_insert_array D h h' arr old new :
  agree D h h' → arr ∈ D → h' !! arr = Some (CArray old) →
  agree D h (<[arr := CArray new]> h').
Proof.
  intros Hag Harr Hold l c Hl. destruct (decide (l = arr)) as [->|Hne].
  - right. split; [done|]. rewrite lookup_insert_eq.
    destruct (Hag _ _ Hl) as [?|(_ & e1 & e2 & -> & ?)]; simplify_eq; eauto.
  - rewrite lookup_insert_ne by done. by apply Hag.
Qed.

Lemma payload_agree D h h' d :
  agree D h h' → (∀ dl, d = Some dl → is_Some (h !! dl)) → payload h' d = payload h d.
Proof.
  intros Hag Hd. destruct d as [dl|]; [|done]. simpl.
  destruct (Hd dl eq_refl) as [c Hc]. rewrite Hc.
  destruct (Hag _ _ Hc) as [->|(_ & e1 & e2 & -> & ->)]; done.
Qed.

Lemma repr_node_agree D h h' e t :
  repr_node D h e t → agree D h h' → repr_node D h' e t.
Proof.
  intros Hr Hag. induction Hr as [e i d nd fc elems cs He Hn Hd Hp Hfc Ha _ IH]
    using repr_node_forall_ind.
  assert (∀ l c, l ∉ D → h !! l = Some c → h' !! l = Some c) as Hout.
  { intros l c Hl Hc. destruct (Hag _ _ Hc) as [?|[? _]]; done. }
  econstructor; eauto.
  - intros dl Hdl. destruct (Hd dl Hdl) as [c Hc].
    destruct (Hag _ _ Hc) as [?|(_ & ? & ? & _ & ?)]; eauto.
  - rewrite <-Hp. by eapply payload_agree.
Qed.

Lemma repr_node_weaken D D' h e t :
  repr_node D h e t → D' ⊆ D → repr_node D' h e t.
Proof.
  intros Hr Hsub. induction Hr as [e i d nd fc elems cs He Hn Hd Hp Hfc Ha _ IH]
    using repr_node_forall_ind.
  econstructor; eauto; set_solver.
Qed.

Lemma alloc_spec h c :
  h !! (alloc h c).2 = None ∧ (alloc h c).1 = <[(alloc h c).2 := c]> h ∧
  h ⊆ (alloc h c).1.
Proof.
  unfold alloc. cbn [fst snd].
  assert (h !! fresh (dom h) = None) as Hfresh.
  { apply not_elem_of_dom, is_fresh. }
  split_and!; [done..|]. by apply insert_subseteq.
Qed.

Lemma new_cells_trans h h1 h2 :
  h ⊆ h1 → h1 ⊆ h2 → new_cells h h1 → new_cells h1 h2 → new_cells h h2.
Proof.
  intros H01 H12 N01 N12 l c Hl Hnone. destruct (h1 !! l) as [c1|] eqn:H1.
  - pose proof (lookup_weaken _ _ _ _ H1 H12). simplify_eq. by apply (N01 l).
  - pose proof (N12 l c Hl H1) as Hc. destruct c as [i d cs| |]; [|done..].
    destruct Hc as (o & cs0 & Ho). destruct (h !! o) as [co|] eqn:Hho.
    + pose proof (lookup_weaken _ _ _ _ Hho H01). simplify_eq. eauto.
    + apply (N01 o _ Ho Hho).
Qed.

Lemma payloadItem_payload h d : payloadItem h d = payload h d ≫= historyItem.
Proof.
  destruct d as [dl|]; [|done]. simpl. by destruct (h !! dl) as [[]|].
Qed.

Lemma height_forest_child i nd cs f :
  mkTreeNode i nd cs ∈ f → height_forest cs < height_forest f.
Proof.
  intros Hin. unfold height_forest.
  pose proof (height_child f _ Hin) as Hle. simpl in Hle. lia.
Qed.

Lemma cloneInto_loop recurse q h arr fuel :
  (∀ h1 a f, repr_array ∅ h1 a f → height_forest f < fuel →
             projects q h1 f (recurse h1 (Some a))) →
  h !! arr = None →
  ∀ elems ts, Forall2 (repr_node ∅ h) elems ts →
  Forall (λ t, height_forest (children t) < fuel) ts →
  ∀ hs acc done,
    h ⊆ hs → hs !! arr = Some (CArray acc) →
    Forall2 (repr_node ({[arr]} ∪ dom h) hs) acc done → new_cells h hs →
    ∃ hs' new,
      foldl (cloneInto recurse q arr) (Some hs) elems = Some hs' ∧
      h ⊆ hs' ∧ hs' !! arr = Some (CArray (acc ++ new)) ∧
      Forall2 (repr_node ({[arr]} ∪ dom h) hs') (acc ++ new)
              (done ++ omap (cloneIfRetained q) ts) ∧
      new_cells h hs'.
Proof.
  intros Hrec Harr elems ts Hrepr.
  induction Hrepr as [|e t elems ts He _ IH]; intros Hfuel hs acc done Hsub Hacc Hdone Hnew.
  { exists hs, []. rewrite !app_nil_r. done. }
  apply Forall_cons in Hfuel as [Hft Hfuel]. specialize (IH Hfuel).
  destruct He as [e i d nd fc celems cs _ Hn Hd Hp _ Hfc Hcs].
  pose proof (agree_subseteq ∅ h hs Hsub) as Hag.
  assert (payload hs d = nd) as Hp' by (rewrite <-Hp; by eapply payload_agree).
  cbn [foldl]. unfold cloneInto at 2. cbn [mbind option_bind].
  rewrite (lookup_weaken _ _ _ _ Hn Hsub), payloadItem_payload, Hp'.
  cbn [omap list_omap cloneIfRetained].
  change (list_omap _ _ ?g ?l) with (omap g l).
  destruct (nd ≫= historyItem) as [item|] eqn:Hitem; [|by apply IH].
  destruct (Hrec hs fc cs) as (h2 & r2 & -> & Hsub2 & (Hr2 & elems2 & Hr2a & Hr2f) & Hnew2);
    [|done|].
  { split; [set_solver|]. exists celems. split; [by eapply lookup_weaken|].
    eapply Forall2_impl; [done|]. intros. by eapply repr_node_agree. }
  cbn [mbind option_bind]. unfold arrayLength. rewrite Hr2a. cbn [mbind option_bind].
  rewrite (Forall2_length _ _ _ Hr2f).
  assert (h ⊆ h2) as Hsub02 by (by etrans).
  assert (new_cells h h2) as Hnew02 by (by apply (new_cells_trans h hs h2)).
  assert (arr ∈ dom hs) as Harrs by (apply elem_of_dom; eauto).
  destruct (nodeMatches q item || (0 <? length _)).
  - destruct (alloc_spec h2 (CNode i d (Some r2))) as (Hc & Hh3 & Hsub3).
    destruct (alloc h2 (CNode i d (Some r2))) as [h3 c]. cbn [fst snd] in *.
    assert (h3 !! arr = Some (CArray acc)) as Hacc3.
    { eapply lookup_weaken; [|exact Hsub3]. by eapply lookup_weaken. }
    unfold push. rewrite Hacc3.
    assert (c ≠ arr) as Hcarr.
    { intros ->. pose proof (lookup_weaken _ _ _ _ Hacc Hsub2). congruence. }
    assert (agree ({[arr]} ∪ dom h) h2 (<[arr := CArray (acc ++ [c])]> h3)) as Hag4.
    { eapply agree_insert_array; [by apply agree_subseteq|set_solver|done]. }
    destruct (IH (<[arr := CArray (acc ++ [c])]> h3) (acc ++ [c])
                 (done ++ [mkTreeNode i nd (omap (cloneIfRetained q) cs)]))
      as (hs' & new & Hfold & ? & Harr' & Hall & ?).
    + apply insert_subseteq_r; [done|]. by etrans.
    + by rewrite lookup_insert_eq.
    + apply Forall2_app.
      * eapply Forall2_impl; [done|]. intros x y Hxy.
        eapply repr_node_agree; [done|]. intros l cl Hl.
        apply Hag4. by eapply lookup_weaken.
      * constructor; [|constructor].
        apply (repr_node_intro _ _ c i d nd r2 elems2).
        -- apply not_elem_of_union. split; [set_solver|].
           intros Hin%elem_of_dom. destruct Hin as [? Hin].
           pose proof (lookup_weaken _ _ _ _ Hin Hsub02). congruence.
        -- rewrite lookup_insert_ne by done. rewrite Hh3. by rewrite lookup_insert_eq.
        -- intros dl Hdl. destruct (Hd dl Hdl) as [cd Hcd].
           pose proof (lookup_weaken _ _ _ _ Hcd Hsub02) as Hcd2.
           destruct (Hag4 _ _ Hcd2) as [?|(_ & ? & ? & _ & ?)]; eauto.
        -- rewrite <-Hp. eapply payload_agree; [|done].
           intros l cl Hl. apply Hag4. by eapply lookup_weaken.
        -- apply not_elem_of_union. split; [set_solver|].
           intros Hin. apply Hr2. apply elem_of_dom. apply elem_of_dom in Hin as [? Hin].
           exists x. by eapply lookup_weaken.
        -- destruct (Hag4 _ _ Hr2a) as [?|[Hin _]]; [done|]. exfalso. apply Hr2.
           apply elem_of_union in Hin as [->%elem_of_singleton|Hin]; [done|].
           by apply (subseteq_dom _ _ Hsub).
        -- eapply Forall2_impl; [done|]. intros x y Hxy.
           eapply repr_node_agree; [|done]. eapply repr_node_weaken; [done|].
           apply union_least; [|by apply subseteq_dom]. by apply singleton_subseteq_l.
    + intros l cl Hl Hnone. destruct (decide (l = arr)) as [->|Hne].
      { rewrite lookup_insert_eq in Hl. by simplify_eq. }
      rewrite lookup_insert_ne in Hl by done. rewrite Hh3 in Hl.
      destruct (decide (l = c)) as [->|Hnc].
      { rewrite lookup_insert_eq in Hl. simplify_eq. eauto. }
      rewrite lookup_insert_ne in Hl by done. by apply (Hnew02 l).
    + exists hs', (c :: new). rewrite <-(app_assoc acc) in Hall, Harr'.
      rewrite <-(app_assoc done) in Hall. done.
  - destruct (IH h2 acc done) as (hs' & new & ? & ? & ? & ? & ?); try done.
    + by eapply lookup_weaken.
    + eapply Forall2_impl; [done|]. intros x y Hxy.
      eapply repr_node_agree; [done|]. by apply agree_subseteq.
    + exists hs', new. done.
Qed.

Lemma filterAndCloneHeap_projects fuel q h a f :
  repr_array ∅ h a f → height_forest f < fuel →
  projects q h f (filterAndCloneHeap fuel q h (Some a)).
Proof.
  revert h a f. induction fuel as [|fuel IH]; intros h a f Hrepr Hfuel; [lia|].
  destruct Hrepr as (_ & elems & Ha & Hf). cbn [filterAndCloneHeap]. rewrite Ha.
  destruct (alloc_spec h (CArray [])) as (Harr & Hh0 & Hsub0).
  destruct (alloc h (CArray [])) as [h0 arr]. cbn [fst snd] in *.
  destruct (cloneInto_loop (filterAndCloneHeap fuel q) q h arr fuel IH Harr elems f Hf)
    with (hs := h0) (acc := @nil loc) (done := @nil TreeNode)
    as (hs' & new & Hfold & Hsub & Harr' & Hall & Hnew); try done.
  - apply Forall_forall. intros [i nd cs] Hin.
    pose proof (height_forest_child _ _ _ _ Hin). simpl. lia.
  - rewrite Hh0. by rewrite lookup_insert_eq.
  - intros l c Hl Hnone. rewrite Hh0 in Hl. destruct (decide (l = arr)) as [->|Hne].
    + rewrite lookup_insert_eq in Hl. by simplify_eq.
    + rewrite lookup_insert_ne in Hl by done. congruence.
  - rewrite Hfold. cbn [mbind option_bind]. exists hs', arr. split_and!; [done..| |done].
    split; [by apply not_elem_of_dom|]. exists new. split; [done|].
    eapply Forall2_impl; [done|]. intros x y Hxy.
    eapply repr_node_weaken; [done|]. apply union_subseteq_r.
Qed.

(** C6: on a heap where the array [a] stands for the forest [f], the
    projector called with a non-empty search text and enough fuel returns;
    every object of the heap is as before, so [a] still stands for [f];
    the returned array and every node object and children array reached
    from it are new objects, none is an object of the heap before the
    call, and they stand for the projection of [f]; every new object is an
    array or a node object with the id and the payload reference of a node
    object of the heap before the call. *)
Theorem C6_projection_is_fresh fuel q h a f :
  truthy q = true → repr_array ∅ h a f → height_forest f < fuel →
  ∃ h' r, filterAndCloneTreeOnHeap fuel q h a = Some (h', r) ∧
          h ⊆ h' ∧
          repr_array ∅ h' a f ∧
          repr_array (dom h) h' r (filterAndCloneTree f q) ∧
          new_cells h h'.
Proof.
  intros Hq Hrepr Hfuel. unfold filterAndCloneTreeOnHeap, filterAndCloneTree.
  rewrite Hq.
  destruct (filterAndCloneHeap_projects fuel q h a f Hrepr Hfuel)
    as (h' & r & Hres & Hsub & Hr & Hnew).
  exists h', r. split_and!; [done..| |done|done].
  destruct Hrepr as (Ha & elems & Hl & Hf). split; [done|]. exists elems.
  split; [by eapply lookup_weaken|].
  eapply Forall2_impl; [done|]. intros x y Hxy.
  eapply repr_node_agree; [done|]. by apply agree_subseteq.
Qed.

Lemma demoHeap_repr : repr_array ∅ demoHeap 30%positive demoForest.
Proof.
  split; [apply not_elem_of_empty|]. exists [11; 15]%positive.
  split; [by vm_compute|].
  assert (∀ e i d nd,
            demoHeap !! e = Some (CNode i (Some d) (Some (e + 10)%positive)) →
            demoHeap !! d = Some (CData nd) →
            demoHeap !! (e + 10)%positive = Some (CArray []) →
            repr_node ∅ demoHeap e (mkTreeNode i (Some nd) [])) as Hleaf.
  { intros e i d nd He Hd Hc.
    apply (repr_node_intro ∅ demoHeap e i (Some d) (Some nd) (e + 10)%positive []);
      [apply not_elem_of_empty|done|intros ? [= <-]; eauto|unfold payload; simpl; by rewrite Hd
      |apply not_elem_of_empty|done|constructor]. }
  assert (repr_node ∅ demoHeap 14%positive
            (page "4" "https://club.example/" "The Rocq Club" [])) as H14.
  { apply (Hleaf 14 "4" 4 _)%positive; by vm_compute. }
  assert (repr_node ∅ demoHeap 13%positive
            (page "3" "https://news.example/weather" "Weather" [])) as H13.
  { apply (Hleaf 13 "3" 3 _)%positive; by vm_compute. }
  assert (repr_node ∅ demoHeap 15%positive
            (page "5" "https://mail.example/" "Inbox" [])) as H15.
  { apply (Hleaf 15 "5" 5 _)%positive; by vm_compute. }
  assert (repr_node ∅ demoHeap 12%positive
            (page "2" "https://news.example/sport" "Sport"
               [page "4" "https://club.example/" "The Rocq Club" []])) as H12.
  { apply (repr_node_intro ∅ demoHeap 12 "2" (Some 2) _ 22 [14])%positive;
      [apply not_elem_of_empty|by vm_compute|intros ? [= <-]; vm_compute; eauto
      |by vm_compute|apply not_elem_of_empty|by vm_compute|by repeat constructor]. }
  repeat constructor; [|done].
  apply (repr_node_intro ∅ demoHeap 11 "1" (Some 1) _ 21 [12; 13])%positive;
    [apply not_elem_of_empty|by vm_compute|intros ? [= <-]; vm_compute; eauto
    |by vm_compute|apply not_elem_of_empty|by vm_compute|by repeat constructor].
Qed.

End heap_projector.

Section heap_projector_examples.

#[local] Existing Instance asciiLowerCase.

Lemma C6_projection_is_fresh_witness :
  truthy "rocq" = true ∧ repr_array ∅ demoHeap 30%positive demoForest ∧
  height_forest demoForest < 4 ∧
  ∃ h' r, filterAndCloneTreeOnHeap 4 "rocq" demoHeap 30%positive = Some (h', r) ∧
          demoHeap ⊆ h' ∧
          repr_array ∅ h' 30%positive demoForest ∧
          repr_array (dom demoHeap) h' r (filterAndCloneTree demoForest "rocq") ∧
          new_cells demoHeap h'.
Proof.
  split; [reflexivity|]. split; [apply demoHeap_repr|]. split; [vm_compute; lia|].
  apply (C6_projection_is_fresh 4 "rocq" demoHeap 30%positive demoForest);
    [reflexivity|apply demoHeap_repr|vm_compute; lia].
Defined.

End heap_projector_examples.


(** ** The selection range tracker *)

Section selection.

Implicit Types (s : Selection) (arr : list elem) (box clicked : elem).

Lemma elem_of_indices (start end_ j : Z) :
  j ∈ indices start end_ ↔ (start ≤ j ≤ end_)%Z.
Proof.
  unfold indices. rewrite list_elem_of_fmap. split.
  - intros (k & -> & Hk%elem_of_seq). lia.
  - intros Hj. exists (Z.to_nat (j - start)). rewrite elem_of_seq. lia.
Qed.

Lemma at_index_nat arr (j : nat) : at_index arr (Z.of_nat j) = arr !! j.
Proof.
  unfold at_index. rewrite (proj2 (Z.ltb_ge _ _)) by lia. by rewrite Nat2Z.id.
Qed.

Lemma at_index_Some arr (j : Z) box :
  at_index arr j = Some box ↔ ∃ k : nat, j = Z.of_nat k ∧ arr !! k = Some box.
Proof.
  split.
  - unfold at_index. destruct (Z.ltb_spec j 0); [done|]. intros Hj.
    exists (Z.to_nat j). split; [lia|done].
  - intros (k & -> & Hk). by rewrite at_index_nat.
Qed.

(** The loop writes [targetState] to the boxes it finds and leaves the
    others. *)
Lemma setRange_loop arr targetState (l : list Z) chk box :
  foldl (λ chk i, match at_index arr i with
                  | Some b => setChecked b targetState chk
                  | None => chk
                  end) chk l box =
  if bool_decide (Exists (λ i, at_index arr i = Some box) l)
  then targetState else chk box.
Proof.
  induction l as [|i l IH] using rev_ind.
  - cbn [foldl]. by rewrite bool_decide_eq_false_2 by (by intros ?%Exists_nil).
  - rewrite foldl_snoc. destruct (at_index arr i) as [b|] eqn:Hi.
    + unfold setChecked at 1. destruct (decide (box = b)) as [->|Hb].
      * rewrite (bool_decide_eq_true_2 (b = b)) by done.
        rewrite bool_decide_eq_true_2; [done|].
        apply Exists_app. right. by constructor.
      * rewrite (bool_decide_eq_false_2 (box = b)) by done. rewrite IH. apply (f_equal (λ c : bool, if c then targetState else chk box)).
        apply bool_decide_ext. rewrite Exists_app, Exists_cons, Exists_nil.
        split; [tauto|]. intros [?|[?|[]]]; [done|congruence].
    + rewrite IH. apply (f_equal (λ c : bool, if c then targetState else chk box)).
      apply bool_decide_ext. rewrite Exists_app, Exists_cons, Exists_nil.
      split; [tauto|]. intros [?|[?|[]]]; [done|congruence].
Qed.

Lemma setRange_inside arr start end_ targetState chk (j : nat) box :
  arr !! j = Some box → (start ≤ Z.of_nat j ≤ end_)%Z →
  setRange arr start end_ targetState chk box = targetState.
Proof.
  intros Hj Hin. unfold setRange. rewrite setRange_loop, bool_decide_eq_true_2; [done|].
  apply Exists_exists. exists (Z.of_nat j). by rewrite elem_of_indices, at_index_nat.
Qed.

Lemma setRange_outside arr start end_ targetState chk box :
  (∀ j : nat, arr !! j = Some box → ¬ (start ≤ Z.of_nat j ≤ end_)%Z) →
  setRange arr start end_ targetState chk box = chk box.
Proof.
  intros Hout. unfold setRange. rewrite setRange_loop, bool_decide_eq_false_2; [done|].
  rewrite Exists_exists. intros (i & Hi%elem_of_indices & (k & -> & Hk)%at_index_Some).
  by apply (Hout k).
Qed.

Lemma indexOf_lookup arr (i : nat) box :
  NoDup arr → arr !! i = Some box → indexOf arr box = Z.of_nat i.
Proof.
  revert i. induction arr as [|y arr IH]; intros i Hnd Hi; [done|].
  apply NoDup_cons in Hnd as [Hy Hnd]. destruct i as [|i]; simpl in *.
  - simplify_eq. by rewrite bool_decide_eq_true_2.
  - rewrite bool_decide_eq_false_2.
    2:{ intros ->. apply Hy. by eapply list_elem_of_lookup_2. }
    rewrite (IH i) by done. destruct (Z.ltb_spec (Z.of_nat i) 0); lia.
Qed.

(** A click on a checkbox of the cached list goes to
    [handleShiftClickLogic] with the index of that checkbox. *)
Lemma handleCheckboxClick_found shiftKey s (i : nat) clicked :
  NoDup (visibleCheckboxes s) → visibleCheckboxes s !! i = Some clicked →
  handleCheckboxClick shiftKey clicked s =
  handleShiftClickLogic shiftKey clicked (Z.of_nat i) s.
Proof.
  intros Hnd Hi. unfold handleCheckboxClick. rewrite (indexOf_lookup _ i) by done.
  destruct (Z.eqb_spec (Z.of_nat i) (-1)); [lia|done].
Qed.

(** A click without the shift key returns and sets the anchor, whether
    the anchor has a binding or not. *)
Lemma handleShiftClickLogic_plain clicked currentIndex s :
  handleShiftClickLogic false clicked currentIndex s =
  Returns (mkSelection (visibleCheckboxes s) (Some currentIndex) (checked s)
             (rendered s)).
Proof. done. Qed.

(** C9: a shift-click on the item at index [i] while the anchor [a] is set
    and within the bounds of the visible checkbox sequence returns, gives
    every item at an index in the inclusive range from [min a i] to
    [max a i] the post-click state of the clicked item, leaves every
    checkbox that is not at an index of that range as it was, and leaves
    the anchor unchanged. *)
Theorem C9_shift_click_sets_range s clicked (i : nat) (a : Z) :
  lastCheckedIndex s = Some a →
  (0 ≤ a < Z.of_nat (length (visibleCheckboxes s)))%Z →
  visibleCheckboxes s !! i = Some clicked →
  ∃ s',
    handleShiftClickLogic true clicked (Z.of_nat i) s = Returns s' ∧
    (∀ (j : nat) box,
       visibleCheckboxes s !! j = Some box →
       (Z.min a (Z.of_nat i) ≤ Z.of_nat j ≤ Z.max a (Z.of_nat i))%Z →
       checked s' box = checked s clicked) ∧
    (∀ box,
       (∀ j : nat, visibleCheckboxes s !! j = Some box →
                   ¬ (Z.min a (Z.of_nat i) ≤ Z.of_nat j ≤ Z.max a (Z.of_nat i))%Z) →
       checked s' box = checked s box) ∧
    (NoDup (visibleCheckboxes s) →
     ∀ (j : nat) box,
       visibleCheckboxes s !! j = Some box →
       ¬ (Z.min a (Z.of_nat i) ≤ Z.of_nat j ≤ Z.max a (Z.of_nat i))%Z →
       checked s' box = checked s box) ∧
    lastCheckedIndex s' = Some a ∧
    visibleCheckboxes s' = visibleCheckboxes s.
Proof.
  intros Hbound Ha Hi. unfold handleShiftClickLogic. rewrite Hbound.
  assert ((a =? -1)%Z = false) as -> by (apply Z.eqb_neq; lia).
  assert ((a <? Z.of_nat (length (visibleCheckboxes s)))%Z = true)
    as -> by (apply Z.ltb_lt; lia).
  cbn [andb negb]. eexists. split; [done|].
  cbn [checked lastCheckedIndex visibleCheckboxes].
  split_and!; [|by apply setRange_outside| |done..].
  - intros j box Hj Hin. by eapply setRange_inside.
  - intros Hnd j box Hj Hout. apply setRange_outside. intros k Hk.
    by rewrite (NoDup_lookup _ _ _ _ Hnd Hk Hj).
Qed.

Lemma C9_shift_click_sets_range_witness :
  lastCheckedIndex demoSelection = Some 2%Z ∧
  (0 ≤ 2 < Z.of_nat (length (visibleCheckboxes demoSelection)))%Z ∧
  visibleCheckboxes demoSelection !! 5 = Some 15 ∧
  ∃ s',
    handleShiftClickLogic true 15 5 demoSelection = Returns s' ∧
    checked s' <$> visibleCheckboxes s' =
      [true; false; true; true; true; true; false; false] ∧
    (∀ (j : nat) box,
       visibleCheckboxes demoSelection !! j = Some box →
       (Z.min 2 5 ≤ Z.of_nat j ≤ Z.max 2 5)%Z →
       checked s' box = checked demoSelection 15) ∧
    lastCheckedIndex s' = Some 2%Z.
Proof.
  assert (0 ≤ 2 < Z.of_nat (length (visibleCheckboxes demoSelection)))%Z as Ha
    by (simpl; lia).
  split; [reflexivity|]. split; [exact Ha|]. split; [reflexivity|].
  destruct (C9_shift_click_sets_range demoSelection 15 5 2 eq_refl Ha eq_refl)
    as (s' & Hs' & Hin & _ & _ & Hanchor & _).
  exists s'. split; [exact Hs'|]. split.
  - change (handleShiftClickLogic true 15 (Z.of_nat 5) demoSelection)
      with (Returns (state_after
                       (handleShiftClickLogic true 15 (Z.of_nat 5) demoSelection)))
      in Hs'.
    injection Hs' as <-. reflexivity.
  - split; [exact Hin|exact Hanchor].
Defined.

(** C10: a shift-click without a valid anchor.  While the anchor holds
    [-1] or an index that is not less than the length of the visible
    checkbox list, the shift-click is handled exactly like a plain click:
    it returns, the anchor becomes the index of the clicked item and no
    checkbox changes its state.  While the anchor has no binding, which
    is its state until the first plain click since the page script neither
    declares it nor ever assigns [-1], the shift-click throws a
    [ReferenceError] and leaves everything as it is: the anchor is not
    set, where a plain click in the same state returns and sets it. *)
Theorem C10_shift_click_without_anchor s clicked (currentIndex : Z) :
  (∀ anchor,
     lastCheckedIndex s = Some anchor →
     (anchor = -1 ∨ Z.of_nat (length (visibleCheckboxes s)) ≤ anchor)%Z →
     handleShiftClickLogic true clicked currentIndex s =
       handleShiftClickLogic false clicked currentIndex s ∧
     ∃ s', handleShiftClickLogic true clicked currentIndex s = Returns s' ∧
           lastCheckedIndex s' = Some currentIndex ∧
           checked s' = checked s ∧
           visibleCheckboxes s' = visibleCheckboxes s) ∧
  (lastCheckedIndex s = None →
   (∃ error, handleShiftClickLogic true clicked currentIndex s = Throws error s) ∧
   handleShiftClickLogic true clicked currentIndex s ≠
     handleShiftClickLogic false clicked currentIndex s ∧
   lastCheckedIndex
     (state_after (handleShiftClickLogic true clicked currentIndex s)) = None ∧
   lastCheckedIndex
     (state_after (handleShiftClickLogic false clicked currentIndex s))
     = Some currentIndex).
Proof.
  split.
  - intros anchor Hbound Ha. unfold handleShiftClickLogic. rewrite Hbound.
    assert (negb (anchor =? -1)%Z &&
            (anchor <? Z.of_nat (length (visibleCheckboxes s)))%Z = false) as ->.
    { destruct Ha as [->|Ha]; [done|]. apply andb_false_iff. right.
      apply Z.ltb_ge. lia. }
    split; [done|]. by eexists.
  - intros Hunbound. unfold handleShiftClickLogic. rewrite Hunbound.
    split_and!; [by eexists|done|done|done].
Qed.

Lemma C10_shift_click_without_anchor_witness :
  lastCheckedIndex freshSelection = None ∧
  visibleCheckboxes freshSelection !! 1 = Some 11 ∧
  (∃ error, handleCheckboxClick true 11 freshSelection = Throws error freshSelection) ∧
  lastCheckedIndex (state_after (handleCheckboxClick true 11 freshSelection)) = None ∧
  lastCheckedIndex (state_after (handleCheckboxClick false 11 freshSelection))
    = Some 1%Z.
Proof.
  split; [reflexivity|]. split; [reflexivity|].
  destruct (C10_shift_click_without_anchor freshSelection 11 1) as [_ Hthrows].
  destruct (Hthrows eq_refl) as (Herror & _ & Hshift & Hplain).
  split; [exact Herror|]. split; [exact Hshift|exact Hplain].
Defined.

End selection.

(** ** The stable sort of the renderer *)

Section stable_sort.

Context {A : Type} (R : relation A) `{!RelDecision R}.

Lemma insertSorted_Permutation (x : A) (l : list A) : insertSorted R x l ≡ₚ x :: l.
Proof.
  induction l as [|y l IH]; [done|]. simpl. destruct (decide (R x y)); [done|].
  by rewrite IH, Permutation_swap.
Qed.

Lemma stableSort_Permutation (l : list A) : stableSort R l ≡ₚ l.
Proof.
  induction l as [|x l IH]; [done|]. simpl. by rewrite insertSorted_Permutation, IH.
Qed.

Lemma stableSort_length (l : list A) : length (stableSort R l) = length l.
Proof. by rewrite stableSort_Permutation. Qed.

Lemma insertSorted_StronglySorted (x : A) (l : list A) :
  Transitive R → Total R →
  StronglySorted R l → StronglySorted R (insertSorted R x l).
Proof.
  intros Htrans Htotal. induction 1 as [|y l Hl IH Hy]; simpl.
  - repeat constructor.
  - destruct (decide (R x y)) as [Hxy|Hxy].
    + constructor; [by constructor|]. constructor; [done|].
      eapply Forall_impl; [done|]. intros z Hz. by trans y.
    + constructor; [done|]. rewrite insertSorted_Permutation. constructor; [|done].
      by destruct (Htotal x y).
Qed.

Lemma StronglySorted_stableSort (l : list A) :
  Transitive R → Total R → StronglySorted R (stableSort R l).
Proof.
  intros Htrans Htotal. induction l as [|x l IH]; [constructor|]. simpl.
  by apply insertSorted_StronglySorted.
Qed.

(** Sorting what is sorted changes nothing. *)
Lemma stableSort_sorted (l : list A) : StronglySorted R l → stableSort R l = l.
Proof.
  induction 1 as [|x l Hl IH Hx]; [done|]. simpl. rewrite IH.
  destruct Hx as [|y l Hxy _]; [done|]. simpl. by rewrite decide_True.
Qed.

(** The sort is stable: the elements that [R] takes as equal to [z] come
    out in the order they went in. *)
Lemma insertSorted_stable (E : A → Prop) `{!∀ y, Decision (E y)} (x : A) (l : list A) :
  (∀ a b, E a → E b → R a b) →
  filter E (insertSorted R x l) = filter E (x :: l).
Proof.
  intros HE. induction l as [|y l IH]; [done|]. simpl.
  destruct (decide (R x y)) as [Hxy|Hxy]; [done|].
  rewrite filter_cons, IH, !filter_cons.
  destruct (decide (E y)) as [Hy|Hy], (decide (E x)) as [Hx|Hx]; try done.
  destruct Hxy. by apply HE.
Qed.

Lemma stableSort_stable (E : A → Prop) `{!∀ y, Decision (E y)} (l : list A) :
  (∀ a b, E a → E b → R a b) →
  filter E (stableSort R l) = filter E l.
Proof.
  intros HE. induction l as [|x l IH]; [done|]. simpl.
  rewrite insertSorted_stable by done. by rewrite !filter_cons, IH.
Qed.

End stable_sort.

(** ** The renderer's order *)

Section renderer.

Lemma oldest_first_trans : Transitive oldest_first.
Proof. intros a b c. unfold oldest_first. lia. Qed.

Lemma oldest_first_total : Total oldest_first.
Proof. intros a b. unfold oldest_first. lia. Qed.

Lemma newest_first_trans : Transitive newest_first.
Proof. intros a b c. unfold newest_first. lia. Qed.

Lemma newest_first_total : Total newest_first.
Proof. intros a b. unfold newest_first. lia. Qed.

Lemma time_of_renderNode t : time_of (renderNode t) = time_of t.
Proof. by destruct t. Qed.

Lemma renderNode_unfold i d cs :
  renderNode (mkTreeNode i d cs) =
  mkTreeNode i d (stableSort oldest_first (renderNode <$> cs)).
Proof. done. Qed.

Lemma fmap_fixed {A} (g : A → A) (l : list A) :
  Forall (λ x, g x = x) l → g <$> l = l.
Proof. induction 1 as [|x l Hx _ IH]; [done|]. by rewrite fmap_cons, Hx, IH. Qed.

(** Rendering what is rendered changes nothing. *)
Lemma renderNode_idemp t : renderNode (renderNode t) = renderNode t.
Proof.
  induction t as [i d cs IH] using TreeNode_forall_ind.
  rewrite !renderNode_unfold. f_equal.
  rewrite (fmap_fixed renderNode).
  - apply stableSort_sorted, StronglySorted_stableSort;
      [apply oldest_first_trans|apply oldest_first_total].
  - rewrite stableSort_Permutation. by apply Forall_fmap.
Qed.

Lemma sortForRender_sorted f : StronglySorted newest_first (sortForRender f).
Proof.
  unfold sortForRender. apply (StronglySorted_fmap _ newest_first).
  - intros x y. unfold newest_first. by rewrite !time_of_renderNode.
  - apply StronglySorted_stableSort;
      [apply newest_first_trans|apply newest_first_total].
Qed.

Lemma sortForRender_idemp f : sortForRender (sortForRender f) = sortForRender f.
Proof.
  unfold sortForRender at 1. rewrite stableSort_sorted by apply sortForRender_sorted.
  unfold sortForRender. apply fmap_fixed, Forall_fmap, Forall_forall.
  intros t _. apply renderNode_idemp.
Qed.

Lemma sortForRender_length f : length (sortForRender f) = length f.
Proof. unfold sortForRender. by rewrite length_fmap, stableSort_length. Qed.

End renderer.

(** ** The rebuild cycle *)

Section rebuild.

Context `{engine : !LowerCase}.

Implicit Types (inp : Inputs) (p : Page) (σ : System) (e : Event).

Lemma processedForest_total inp : is_Some (processedForest inp).
Proof.
  unfold processedForest.
  destruct (builtForest_total _ (collectVisits_NoDup (startTime inp) (endTime inp)
                                   (fetched inp))) as [forest ->].
  by eexists.
Qed.

(** What a render does to the slot and what it shows. *)
Lemma renderFilteredTree_spec q p :
  let p' := renderFilteredTree q p in
  loadingShown p' = false ∧
  (currentFullTree p' = currentFullTree p ∨
   (truthy (toLowerCase q) = false ∧
    currentFullTree p' = sortForRender (currentFullTree p))) ∧
  (currentFullTree p = [] → currentFullTree p' = []) ∧
  (∀ f, historyTreeDiv p' = ShowTree f →
        f = sortForRender (filterAndCloneTree (currentFullTree p) (toLowerCase q))).
Proof.
  unfold renderFilteredTree.
  destruct (filterAndCloneTree (currentFullTree p) (toLowerCase q))
    as [|t shown] eqn:Hshown.
  - cbn [length Nat.ltb Nat.leb currentFullTree loadingShown historyTreeDiv].
    split_and!; [done|by left|done|done].
  - cbn [length Nat.ltb Nat.leb currentFullTree loadingShown historyTreeDiv].
    unfold filterAndCloneTree in Hshown.
    destruct (truthy (toLowerCase q)) eqn:Hq.
    + split_and!; [done|by left|done|]. by intros f [= <-].
    + rewrite <-Hshown. split_and!; [done|by right| |by intros f [= <-]].
      intros Hnil. by rewrite Hnil in Hshown.
Qed.

Lemma renderFilteredTree_slot q forest d l :
  loadingShown (renderFilteredTree q (mkPage forest d l)) = false ∧
  (currentFullTree (renderFilteredTree q (mkPage forest d l)) = forest ∨
   (truthy (toLowerCase q) = false ∧
    currentFullTree (renderFilteredTree q (mkPage forest d l)) =
    sortForRender forest)).
Proof.
  destruct (renderFilteredTree_spec q (mkPage forest d l)) as (Hload & Hslot & _).
  done.
Qed.

(** A render keeps the slot within a set of forests closed under the
    renderer's sorts, and shows a projection of a forest of the set. *)
Lemma renderFilteredTree_inv (C : Forest → Prop) q p :
  (∀ f, C f → C (sortForRender f)) →
  currentFullTree p = [] ∨ C (currentFullTree p) →
  let p' := renderFilteredTree q p in
  (currentFullTree p' = [] ∨ C (currentFullTree p')) ∧
  (∀ f, historyTreeDiv p' = ShowTree f →
        ∃ f0 q', C f0 ∧ f = sortForRender (filterAndCloneTree f0 q')).
Proof.
  intros Hsort Hslot p'. subst p'.
  destruct (renderFilteredTree_spec q p) as (_ & Hs & Hnil & Hshow). split.
  - destruct Hslot as [Hempty|HC]; [left; by apply Hnil|].
    destruct Hs as [->|[_ ->]]; right; [done|by apply Hsort].
  - intros f Hf. specialize (Hshow f Hf).
    destruct Hslot as [Hempty|HC]; [|by eauto].
    exfalso. unfold renderFilteredTree in Hf. rewrite Hempty in Hf.
    unfold filterAndCloneTree in Hf. by destruct (truthy _).
Qed.

(** *** The page script at large *)

(** A rebuild that has stored its forest stays so. *)
Lemma finished_step σ e n inp :
  rebuilds σ !! n = Some (inp, Stored) → rebuilds (step σ e) !! n = Some (inp, Stored).
Proof.
  intros Hn. destruct e as [inp'|m|q|]; cbn [step]; [| |done|done].
  - destruct (startRebuild inp' (pageState σ)) as [p' stage].
    cbn [rebuilds]. by apply lookup_app_l_Some.
  - destruct (rebuilds σ !! m) as [[inp' stage]|] eqn:Hm; [|done].
    destruct (decide (m = n)) as [->|Hne].
    + rewrite Hn in Hm. injection Hm as <- <-. cbn [resume rebuilds].
      apply list_lookup_insert_eq. by eapply lookup_lt_Some.
    + destruct (resume inp' stage (pageState σ)) as [p' stage']. cbn [rebuilds].
      by rewrite list_lookup_insert_ne.
Qed.

Lemma complete_step σ e f : complete σ f → complete (step σ e) f.
Proof.
  intros (n & inp & forest & Hn & Hf & Hor). exists n, inp, forest.
  split; [by apply finished_step|done].
Qed.

Lemma complete_sortForRender σ f : complete σ f → complete σ (sortForRender f).
Proof.
  intros (n & inp & forest & Hn & Hf & [->| ->]); exists n, inp, forest;
    (split; [done|]); (split; [done|]); right; [done|].
  apply sortForRender_idemp.
Qed.

Lemma complete_rebuilds σ σ' f :
  rebuilds σ' = rebuilds σ → complete σ f → complete σ' f.
Proof.
  intros Hrb (n & inp & forest & Hn & Hf). exists n, inp, forest. by rewrite Hrb.
Qed.

Lemma settled_weaken σ σ' :
  currentFullTree (pageState σ') = currentFullTree (pageState σ) →
  historyTreeDiv (pageState σ') = historyTreeDiv (pageState σ) →
  (∀ f, complete σ f → complete σ' f) →
  settled σ → settled σ'.
Proof.
  intros Hp Hd Hc [Hslot Hshow]. unfold settled. rewrite Hp, Hd. split.
  - destruct Hslot; [by left|right; by apply Hc].
  - intros f (f0 & q & Hf0 & ->)%Hshow. exists f0, q. split; [by apply Hc|done].
Qed.

Lemma settled_render rb q p :
  currentFullTree p = [] ∨ complete (mkSystem p rb) (currentFullTree p) →
  settled (mkSystem (renderFilteredTree q p) rb).
Proof.
  intros Hslot.
  apply (renderFilteredTree_inv (complete (mkSystem p rb)) q p); [|done].
  intros f. apply complete_sortForRender.
Qed.

Lemma settled_step σ e : settled σ → settled (step σ e).
Proof.
  intros Hσ. pose proof (complete_step σ e) as Hmono.
  destruct e as [inp|n|q|]; cbn [step] in *.
  - unfold startRebuild. destruct (datesValid inp); cbn [negb].
    + split; [by left|]. by intros f [=].
    + split; [by left|]. by intros f [=].
  - destruct (rebuilds σ !! n) as [[inp stage]|] eqn:Hn; [|done].
    destruct stage; cbn [resume] in *.
    + unfold afterSearch in *. destruct (searchOutcome inp) as [message|raw].
      * split; [by left|]. by intros f [=].
      * destruct (length _ =? 0).
        -- apply settled_render. by left.
        -- by apply (settled_weaken σ).
    + unfold afterVisits in *.
      destruct (processedForest inp) as [forest|] eqn:Hforest.
      * apply settled_render. right. exists n, inp, forest.
        split_and!; [|done|by left]. cbn [rebuilds].
        apply list_lookup_insert_eq. by eapply lookup_lt_Some.
      * split; [by left|]. by intros f [=].
    + by apply (settled_weaken σ).
    + by apply (settled_weaken σ).
  - destruct Hσ as [Hslot _]. apply settled_render.
    destruct Hslot as [?|Hc]; [by left|right]. by apply (complete_rebuilds σ).
  - apply (settled_weaken σ); [done|done| |done].
    intros f. by apply complete_rebuilds.
Qed.

Lemma settled_run σ events : settled σ → settled (run σ events).
Proof.
  unfold run. revert σ. induction events as [|e events IH]; intros σ Hσ; [done|].
  simpl. by apply IH, settled_step.
Qed.

(** A step leaves the slot empty unless it is the last piece of a
    rebuild. *)
Lemma slot_filled_step σ e :
  currentFullTree (pageState σ) = [] →
  currentFullTree (pageState (step σ e)) ≠ [] →
  ∃ n inp, e = Settle n ∧ rebuilds σ !! n = Some (inp, AwaitingVisits).
Proof.
  intros Hempty. destruct e as [inp|n|q|]; cbn [step].
  - unfold startRebuild. by destruct (datesValid inp).
  - destruct (rebuilds σ !! n) as [[inp stage]|] eqn:Hn; [|done].
    destruct stage; cbn [resume]; [|by eauto|done|done].
    unfold afterSearch. destruct (searchOutcome inp) as [message|raw]; [done|].
    destruct (length _ =? 0); [|done]. cbn [pageState].
    destruct (renderFilteredTree_spec (searchText inp) (setSlot [] (pageState σ)))
      as (_ & _ & Hnil & _).
    intros Hne. by destruct Hne; apply Hnil.
  - cbn [pageState].
    destruct (renderFilteredTree_spec q (pageState σ)) as (_ & _ & Hnil & _).
    intros Hne. by destruct Hne; apply Hnil.
  - done.
Qed.

(** A rebuild with no other handler in between. *)
Lemma rebuild_alone inp p :
  ∃ suspended final,
    fetchAndBuildTree inp p = suspended ++ [final] ∧
    Forall (λ st, st = cleared) suspended ∧
    loadingShown final = false ∧
    (∀ historyItemsRaw,
       datesValid inp = true →
       searchOutcome inp = SearchReturns historyItemsRaw →
       filter (λ item, url item ≠ Some (historyPageUrl inp)) historyItemsRaw ≠ [] →
       ∃ forest,
         processedForest inp = Some forest ∧
         suspended = [cleared; cleared] ∧
         final = renderFilteredTree (searchText inp) (mkPage forest Blank true) ∧
         (currentFullTree final = forest ∨
          (truthy (toLowerCase (searchText inp)) = false ∧
           currentFullTree final = sortForRender forest))) ∧
    (datesValid inp = false ∨
     (∃ message, searchOutcome inp = SearchThrows message) ∨
     (∃ historyItemsRaw,
        searchOutcome inp = SearchReturns historyItemsRaw ∧
        filter (λ item, url item ≠ Some (historyPageUrl inp)) historyItemsRaw = []) →
     currentFullTree final = []) ∧
    (∀ message, datesValid inp = true → searchOutcome inp = SearchThrows message →
       suspended = [cleared] ∧
       final = mkPage [] (ShowText (ErrorOccurred message)) false).
Proof.
  unfold fetchAndBuildTree, startRebuild.
  destruct (datesValid inp); cbn [negb].
  2:{ exists [], (mkPage [] (ShowText InvalidDateRange) false).
      split_and!; [done|constructor|done|done|done|done]. }
  unfold afterSearch. destruct (searchOutcome inp) as [message|historyItemsRaw].
  { exists [cleared], (mkPage [] (ShowText (ErrorOccurred message)) false).
    split_and!; [done|by repeat constructor|done|done|done|].
    by intros ? _ [= <-]. }
  destruct (filter _ historyItemsRaw) as [|item items] eqn:Hitems.
  { cbn [length Nat.eqb].
    exists [cleared], (renderFilteredTree (searchText inp) (mkPage [] Blank true)).
    destruct (renderFilteredTree_spec (searchText inp) (mkPage [] Blank true))
      as (Hload & _ & Hnil & _).
    split_and!; [done|by repeat constructor|done| |by intros _; apply Hnil|done].
    intros raw _ [= <-] Hne. by rewrite Hitems in Hne. }
  cbn [length Nat.eqb]. unfold afterVisits.
  destruct (processedForest_total inp) as [forest Hf]. rewrite Hf.
  exists [cleared; cleared],
    (renderFilteredTree (searchText inp) (mkPage forest Blank true)).
  destruct (renderFilteredTree_slot (searchText inp) forest Blank true)
    as [Hload Hslot].
  split_and!; [done|by repeat constructor|done| | |done].
  + intros raw _ _ _. by exists forest.
  + intros [?|[[message ?]|(raw & [= <-] & Hnil)]]; [done|done|].
    by rewrite Hitems in Hnil.
Qed.

(** It is the run of the page script in which the rebuild is triggered
    and its two [await]s are settled with nothing in between. *)
Lemma run_alone inp p :
  pageState (run (mkSystem p []) [Trigger inp; Settle 0; Settle 0]) =
  default p (last (fetchAndBuildTree inp p)).
Proof.
  unfold run, fetchAndBuildTree. cbn [foldl step pageState rebuilds].
  unfold startRebuild. destruct (datesValid inp); cbn [negb app]; [|done].
  cbn [lookup list_lookup resume pageState rebuilds].
  unfold afterSearch. destruct (searchOutcome inp) as [message|historyItemsRaw];
    [done|].
  destruct (length _ =? 0); [done|].
  cbn [insert list_insert lookup list_lookup resume pageState rebuilds].
  unfold afterVisits. by destruct (processedForest inp).
Qed.

(** C7 (amended).  A rebuild resets the canonical forest slot to empty
    and clears the display in its synchronous start, whatever was stored
    and shown before, so the previous forest does not stay.  With all the
    handlers of the page that may run while rebuilds are suspended:
    - the only step that puts a forest into an empty slot is the last
      piece of a rebuild, so the slot stays empty while a rebuild is
      suspended unless another rebuild ends meanwhile;
    - that last piece stores the forest the rebuild has built and
      processed as a whole and renders it in the same step, and the
      loading indicator is off after it;
    - when the history query throws the slot is emptied and the error
      text shown; when no history item is left the slot is empty;
    - from the load of the page on the slot is always empty or holds the
      complete forest that a rebuild has stored, up to the order the
      renderer gives it, and a forest on display is always a projection of
      such a forest: a partly built forest is never stored or shown.
    A rebuild that runs with no other handler in between is suspended on
    the cleared page and ends with its processed forest in the slot when
    the dates are valid and the query returns an item other than the
    history page, and with the empty slot otherwise. *)
Theorem C7_slot_during_rebuild :
  (∀ σ inp,
     let σ' := step σ (Trigger inp) in
     currentFullTree (pageState σ') = [] ∧
     (datesValid inp = true →
      pageState σ' = cleared ∧
      rebuilds σ' = rebuilds σ ++ [(inp, AwaitingSearch)]) ∧
     (datesValid inp = false →
      pageState σ' = mkPage [] (ShowText InvalidDateRange) false ∧
      rebuilds σ' = rebuilds σ ++ [(inp, Ended)])) ∧
  (∀ σ e,
     currentFullTree (pageState σ) = [] →
     currentFullTree (pageState (step σ e)) ≠ [] →
     ∃ n inp, e = Settle n ∧ rebuilds σ !! n = Some (inp, AwaitingVisits)) ∧
  (∀ σ n inp,
     rebuilds σ !! n = Some (inp, AwaitingVisits) →
     let σ' := step σ (Settle n) in
     ∃ forest,
       processedForest inp = Some forest ∧
       pageState σ' =
         renderFilteredTree (searchText inp) (setSlot forest (pageState σ)) ∧
       (currentFullTree (pageState σ') = forest ∨
        (truthy (toLowerCase (searchText inp)) = false ∧
         currentFullTree (pageState σ') = sortForRender forest)) ∧
       loadingShown (pageState σ') = false ∧
       rebuilds σ' !! n = Some (inp, Stored)) ∧
  (∀ σ n inp,
     rebuilds σ !! n = Some (inp, AwaitingSearch) →
     let σ' := step σ (Settle n) in
     (∀ message,
        searchOutcome inp = SearchThrows message →
        pageState σ' = mkPage [] (ShowText (ErrorOccurred message)) false ∧
        rebuilds σ' !! n = Some (inp, Ended)) ∧
     (∀ historyItemsRaw,
        searchOutcome inp = SearchReturns historyItemsRaw →
        filter (λ item, url item ≠ Some (historyPageUrl inp)) historyItemsRaw = [] →
        currentFullTree (pageState σ') = [] ∧
        loadingShown (pageState σ') = false ∧
        rebuilds σ' !! n = Some (inp, Ended)) ∧
     (∀ historyItemsRaw,
        searchOutcome inp = SearchReturns historyItemsRaw →
        filter (λ item, url item ≠ Some (historyPageUrl inp)) historyItemsRaw ≠ [] →
        pageState σ' = pageState σ ∧
        rebuilds σ' !! n = Some (inp, AwaitingVisits))) ∧
  (∀ d l events,
     let σ := run (mkSystem (mkPage [] d l) []) events in
     (∀ f, d ≠ ShowTree f) →
     (currentFullTree (pageState σ) = [] ∨
      ∃ n inp forest,
        rebuilds σ !! n = Some (inp, Stored) ∧
        processedForest inp = Some forest ∧
        (currentFullTree (pageState σ) = forest ∨
         currentFullTree (pageState σ) = sortForRender forest)) ∧
     (∀ f, historyTreeDiv (pageState σ) = ShowTree f →
           ∃ n inp forest f0 q,
             rebuilds σ !! n = Some (inp, Stored) ∧
             processedForest inp = Some forest ∧
             (f0 = forest ∨ f0 = sortForRender forest) ∧
             f = sortForRender (filterAndCloneTree f0 q))) ∧
  (∀ inp p,
     ∃ suspended final,
       fetchAndBuildTree inp p = suspended ++ [final] ∧
       pageState (run (mkSystem p []) [Trigger inp; Settle 0; Settle 0]) = final ∧
       Forall (λ st, st = cleared) suspended ∧
       loadingShown final = false ∧
       (∀ historyItemsRaw,
          datesValid inp = true →
          searchOutcome inp = SearchReturns historyItemsRaw →
          filter (λ item, url item ≠ Some (historyPageUrl inp)) historyItemsRaw ≠ [] →
          ∃ forest,
            processedForest inp = Some forest ∧
            suspended = [cleared; cleared] ∧
            final = renderFilteredTree (searchText inp) (mkPage forest Blank true) ∧
            (currentFullTree final = forest ∨
             (truthy (toLowerCase (searchText inp)) = false ∧
              currentFullTree final = sortForRender forest))) ∧
       (datesValid inp = false ∨
        (∃ message, searchOutcome inp = SearchThrows message) ∨
        (∃ historyItemsRaw,
           searchOutcome inp = SearchReturns historyItemsRaw ∧
           filter (λ item, url item ≠ Some (historyPageUrl inp)) historyItemsRaw = []) →
        currentFullTree final = []) ∧
       (∀ message, datesValid inp = true → searchOutcome inp = SearchThrows message →
          suspended = [cleared] ∧
          final = mkPage [] (ShowText (ErrorOccurred message)) false)).
Proof.
  split_and!.
  - intros σ inp σ'. subst σ'. cbn [step]. unfold startRebuild.
    destruct (datesValid inp); cbn [negb pageState rebuilds]; by split_and!.
  - apply slot_filled_step.
  - intros σ n inp Hn σ'. subst σ'. cbn [step]. rewrite Hn. cbn [resume].
    unfold afterVisits.
    destruct (processedForest_total inp) as [forest Hf]. rewrite Hf.
    cbn [pageState rebuilds]. exists forest.
    destruct (renderFilteredTree_spec (searchText inp) (setSlot forest (pageState σ)))
      as (Hload & Hslot & _).
    split_and!; [done|done|done|done|].
    apply list_lookup_insert_eq. by eapply lookup_lt_Some.
  - intros σ n inp Hn σ'. subst σ'. cbn [step]. rewrite Hn. cbn [resume].
    unfold afterSearch.
    pose proof (lookup_lt_Some _ _ _ Hn) as Hlt.
    split_and!.
    + intros message ->. cbn [pageState rebuilds]. split; [done|].
      by apply list_lookup_insert_eq.
    + intros raw -> ->. cbn [length Nat.eqb pageState rebuilds].
      destruct (renderFilteredTree_spec (searchText inp) (setSlot [] (pageState σ)))
        as (Hload & _ & Hnil & _).
      split_and!; [by apply Hnil|done|by apply list_lookup_insert_eq].
    + intros raw -> Hne. destruct (filter _ raw); [done|].
      cbn [length Nat.eqb pageState rebuilds]. split; [done|].
      by apply list_lookup_insert_eq.
  - intros d l events σ Hd.
    assert (settled (mkSystem (mkPage [] d l) [])) as Hinit.
    { split; [by left|]. intros f Hf. by destruct (Hd f). }
    destruct (settled_run _ events Hinit) as [Hslot Hshow]. fold σ in Hslot, Hshow.
    split.
    + destruct Hslot as [?|(n & inp & forest & ?)]; [by left|right; by eauto].
    + intros f (f0 & q & (n & inp & forest & Hn & Hf & Hor) & ->)%Hshow.
      by exists n, inp, forest, f0, q.
  - intros inp p.
    destruct (rebuild_alone inp p) as (suspended & final & Htrace & Hrest).
    exists suspended, final. split; [done|]. split; [|done].
    by rewrite run_alone, Htrace, last_snoc.
Qed.

End rebuild.

Section rebuild_examples.

#[local] Existing Instance asciiLowerCase.

(** A rebuild started while a forest is stored and shown: at both
    suspension points the slot is empty and the display is blank, the
    previous forest is neither stored nor shown. *)
Lemma C7_counterexample_previous_forest_is_dropped :
  ∃ final,
    fetchAndBuildTree demoInputs demoPage = [cleared; cleared; final] ∧
    currentFullTree cleared = [] ∧
    historyTreeDiv cleared = Blank ∧
    currentFullTree demoPage = demoForest ∧
    historyTreeDiv demoPage = ShowTree demoForest ∧
    currentFullTree cleared ≠ currentFullTree demoPage ∧
    historyTreeDiv cleared ≠ historyTreeDiv demoPage ∧
    forest_ids (currentFullTree final) = ["1"; "2"].
Proof.
  eexists. split; [by vm_compute|]. split_and!; done.
Qed.

End rebuild_examples.

(* ================================================================= *)
(** * Further properties of the page script *)

(** ** The normalizer *)

Section normalizer.

Implicit Types (acc l : VisitMap) (item : HistoryItem) (v : VisitItem)
  (visits : list VisitItem) (fetchedVisits : list (HistoryItem * list VisitItem)).

Variables startT endT : Z.

Lemma addVisit_eligible item acc v :
  addVisit startT endT item acc v =
  if decide (eligible startT endT v) then
    if decide (visitId v ∈ keys acc) then acc
    else acc ++ [(visitId v, mkNodeData v (Some item))]
  else acc.
Proof.
  unfold addVisit, eligible, map_has.
  destruct (Z.leb_spec startT (visitTime v)), (Z.leb_spec (visitTime v) endT);
    cbn [andb]; try (rewrite decide_False by lia; done).
  destruct (String.eqb_spec (transition v) "reload") as [Hr|Hr].
  - rewrite decide_False; [done|]. intros [_ ?]. done.
  - rewrite decide_True by (split; [lia|done]).
    case_bool_decide; [by rewrite decide_True|by rewrite decide_False].
Qed.

Lemma addVisits_candidates acc item visits :
  foldl (addVisit startT endT item) acc visits =
  foldl (λ acc e, if decide (e.1 ∈ keys acc) then acc else acc ++ [e]) acc
    ((λ v, (visitId v, mkNodeData v (Some item))) <$>
       filter (eligible startT endT) visits).
Proof.
  revert acc. induction visits as [|v visits IH]; intros acc; [done|].
  cbn [foldl]. rewrite addVisit_eligible, filter_cons.
  destruct (decide (eligible startT endT v)); [|apply IH].
  rewrite fmap_cons. cbn [foldl fst]. apply IH.
Qed.

Lemma collectVisits_fold acc fetchedVisits :
  foldl (addVisits startT endT) acc fetchedVisits =
  foldl (λ acc e, if decide (e.1 ∈ keys acc) then acc else acc ++ [e]) acc
    (candidates startT endT fetchedVisits).
Proof.
  unfold candidates. revert acc.
  induction fetchedVisits as [|[item visits] l IH]; intros acc; [done|].
  cbn [foldl mbind list_bind]. rewrite foldl_app, <-IH. f_equal.
  apply addVisits_candidates.
Qed.

Lemma collectVisits_keepFirst fetchedVisits :
  collectVisits startT endT fetchedVisits =
  keepFirst (candidates startT endT fetchedVisits).
Proof. apply collectVisits_fold. Qed.

Lemma keepFirst_fold_spec (l acc r : VisitMap) :
  NoDup (keys acc) →
  r = foldl (λ acc e, if decide (e.1 ∈ keys acc) then acc else acc ++ [e]) acc l →
  NoDup (keys r) ∧
  (∃ new, r = acc ++ new ∧ new ⊆ l) ∧
  (∀ e, e ∈ l → e.1 ∈ keys r).
Proof.
  revert acc r. induction l as [|e l IH]; intros acc r Hnd ->; cbn [foldl].
  - split_and!; [done|exists []; by rewrite app_nil_r|by intros ? ?%elem_of_nil].
  - set (acc' := if decide (e.1 ∈ keys acc) then acc else acc ++ [e]).
    assert (NoDup (keys acc')) as Hnd'.
    { unfold acc'. case_decide; [done|]. unfold keys. rewrite fmap_app.
      apply NoDup_app. split_and!; [done| |apply NoDup_singleton].
      intros k Hk ->%list_elem_of_singleton. done. }
    assert (e.1 ∈ keys acc') as He.
    { unfold acc'. case_decide; [done|]. unfold keys. rewrite fmap_app.
      apply elem_of_app. right. by apply list_elem_of_singleton. }
    destruct (IH acc' _ Hnd' eq_refl) as (Hr & (new & Hnew & Hsub) & Hall).
    split_and!; [done| |].
    + rewrite Hnew. unfold acc'. case_decide.
      * exists new. split; [done|]. set_solver.
      * exists (e :: new). rewrite <-app_assoc. split; [done|]. set_solver.
    + intros e' [->|He']%elem_of_cons; [|by apply Hall].
      rewrite Hnew. unfold keys. rewrite fmap_app. apply elem_of_app. by left.
Qed.

Lemma elem_of_candidates fetchedVisits k nd :
  (k, nd) ∈ candidates startT endT fetchedVisits ↔
  ∃ item visits, (item, visits) ∈ fetchedVisits ∧ visitData nd ∈ visits ∧
                 eligible startT endT (visitData nd) ∧
                 k = visitId (visitData nd) ∧ nd = mkNodeData (visitData nd) (Some item).
Proof.
  unfold candidates. rewrite list_elem_of_bind. split.
  - intros ([item visits] & Hin & Hf). apply list_elem_of_fmap in Hin as (v & [= -> ->] & Hv).
    apply list_elem_of_filter in Hv as [He Hv]. exists item, visits. done.
  - intros (item & visits & Hf & Hv & He & -> & Hnd). exists (item, visits).
    split; [|done]. apply list_elem_of_fmap. exists (visitData nd).
    split; [simpl; by rewrite <-Hnd|]. by apply list_elem_of_filter.
Qed.

Lemma keepFirst_spec l :
  NoDup (keys (keepFirst l)) ∧ keepFirst l ⊆ l ∧
  (∀ e, e ∈ l → e.1 ∈ keys (keepFirst l)).
Proof.
  destruct (keepFirst_fold_spec l [] (keepFirst l)) as (Hnd & (new & Hnew & Hsub) & Hall);
    [constructor|done|]. rewrite Hnew at 2. done.
Qed.

Lemma keepFirst_first l1 e l2 :
  e.1 ∉ keys l1 → e ∈ keepFirst (l1 ++ e :: l2).
Proof.
  intros Hfresh. unfold keepFirst. rewrite foldl_app. cbn [foldl].
  destruct (keepFirst_fold_spec l1 [] _ (NoDup_nil_2) eq_refl)
    as (Hnd1 & (new1 & Hr1 & Hsub1) & _).
  fold (keepFirst l1) in *. simpl in Hr1.
  rewrite decide_False.
  2:{ rewrite Hr1. intros (e' & He' & Hin)%list_elem_of_fmap. apply Hfresh.
      apply list_elem_of_fmap. exists e'. split; [done|]. by apply Hsub1. }
  assert (NoDup (keys (keepFirst l1 ++ [e]))) as Hnd.
  { unfold keys. rewrite fmap_app. apply NoDup_app.
    split_and!; [done| |apply NoDup_singleton].
    intros k Hk ->%list_elem_of_singleton. rewrite Hr1 in Hk.
    apply list_elem_of_fmap in Hk as (e' & He' & Hin). apply Hfresh.
    apply list_elem_of_fmap. exists e'. split; [done|]. by apply Hsub1. }
  destruct (keepFirst_fold_spec l2 _ _ Hnd eq_refl) as (_ & (new & -> & _) & _).
  apply elem_of_app. left. apply elem_of_app. right. by apply list_elem_of_singleton.
Qed.

(** X1: every entry of the collected mapping comes from a visit that
    [getVisits] returned for the history item stored with it, lies inside
    the time window, is not a reload and is keyed by its visit id. *)
Theorem X1_collectVisits_sound fetchedVisits k nd :
  (k, nd) ∈ collectVisits startT endT fetchedVisits →
  ∃ item visits,
    (item, visits) ∈ fetchedVisits ∧ visitData nd ∈ visits ∧
    historyItem nd = Some item ∧ k = visitId (visitData nd) ∧
    (startT ≤ visitTime (visitData nd) ≤ endT)%Z ∧
    transition (visitData nd) ≠ "reload".
Proof.
  rewrite collectVisits_keepFirst. intros Hin.
  destruct (keepFirst_spec (candidates startT endT fetchedVisits)) as (_ & Hsub & _).
  apply Hsub, elem_of_candidates in Hin
    as (item & visits & Hf & Hv & [Ht Hr] & -> & Hnd).
  exists item, visits. split_and!; try done; try lia. by rewrite Hnd.
Qed.

(** X2: every visit returned by [getVisits] that lies inside the time
    window and is not a reload has its id among the keys of the collected
    mapping, and no key occurs twice. *)
Theorem X2_collectVisits_complete fetchedVisits item visits v :
  (item, visits) ∈ fetchedVisits → v ∈ visits →
  (startT ≤ visitTime v ≤ endT)%Z → transition v ≠ "reload" →
  visitId v ∈ keys (collectVisits startT endT fetchedVisits) ∧
  NoDup (keys (collectVisits startT endT fetchedVisits)).
Proof.
  intros Hf Hv Ht Hr. rewrite collectVisits_keepFirst.
  destruct (keepFirst_spec (candidates startT endT fetchedVisits)) as (Hnd & _ & Hall).
  split; [|done].
  apply (Hall (visitId v, mkNodeData v (Some item))). apply elem_of_candidates.
  exists item, visits. done.
Qed.

(** X3: first seen wins.  The entry stored for a visit id is the one of
    the first eligible visit with that id in the order the callbacks meet
    the visits; a later visit with the same id does not replace it. *)
Theorem X3_collectVisits_first_seen_wins pre item vs1 v vs2 post :
  (startT ≤ visitTime v ≤ endT)%Z → transition v ≠ "reload" →
  (∀ item' vs' v', (item', vs') ∈ pre → v' ∈ vs' →
                   eligible startT endT v' → visitId v' ≠ visitId v) →
  (∀ v', v' ∈ vs1 → eligible startT endT v' → visitId v' ≠ visitId v) →
  entry (collectVisits startT endT (pre ++ (item, vs1 ++ v :: vs2) :: post))
        (visitId v) = Some (mkNodeData v (Some item)).
Proof.
  intros Ht Hr Hpre Hvs1. apply entry_Some; [apply collectVisits_NoDup|].
  rewrite collectVisits_keepFirst. unfold candidates.
  rewrite bind_app. cbn [mbind list_bind fst snd].
  rewrite filter_app, filter_cons_True by done. rewrite fmap_app, fmap_cons.
  rewrite <-!app_assoc, app_assoc. cbn [app].
  apply keepFirst_first. cbn [fst]. unfold keys. rewrite fmap_app.
  intros [Hk|Hk]%elem_of_app.
  - apply list_elem_of_fmap in Hk as ([k nd] & Heq & Hin). simpl in Heq. subst k.
    apply (elem_of_candidates pre) in Hin as (item' & vs' & Hf & Hv & He & Hid & _).
    by apply (Hpre item' vs' (visitData nd)).
  - rewrite <-list_fmap_compose in Hk. apply list_elem_of_fmap in Hk as (v' & Heq & Hin).
    apply list_elem_of_filter in Hin as [He Hin]. simpl in Heq.
    by apply (Hvs1 v').
Qed.

End normalizer.

Lemma X1_collectVisits_sound_witness :
  let nd := mkNodeData (mkVisitItem "1" (Some "0") 300 "typed")
              (Some (mkHistoryItem (Some "https://a.example/") (Some "A"))) in
  ("1", nd) ∈ collectVisits 0 1000 laterFirstFetched ∧
  ∃ item visits,
    (item, visits) ∈ laterFirstFetched ∧ visitData nd ∈ visits ∧
    historyItem nd = Some item ∧ "1" = visitId (visitData nd) ∧
    (0 ≤ visitTime (visitData nd) ≤ 1000)%Z ∧
    transition (visitData nd) ≠ "reload".
Proof.
  intros nd.
  assert (("1", nd) ∈ collectVisits 0 1000 laterFirstFetched) as Hin.
  { vm_compute. by left. }
  split; [done|]. by apply (X1_collectVisits_sound 0 1000 laterFirstFetched "1" nd).
Defined.

Lemma X2_collectVisits_complete_witness :
  let item := mkHistoryItem (Some "https://a.example/") (Some "A") in
  let v := mkVisitItem "2" (Some "0") 200 "typed" in
  let visits := [mkVisitItem "1" (Some "0") 300 "typed"; v] in
  (item, visits) ∈ laterFirstFetched ∧ v ∈ visits ∧
  (0 ≤ visitTime v ≤ 1000)%Z ∧ transition v ≠ "reload" ∧
  visitId v ∈ keys (collectVisits 0 1000 laterFirstFetched) ∧
  NoDup (keys (collectVisits 0 1000 laterFirstFetched)).
Proof.
  intros item v visits.
  assert ((item, visits) ∈ laterFirstFetched) as Hf by (by left).
  assert (v ∈ visits) as Hv by (right; by left).
  assert (0 ≤ visitTime v ≤ 1000)%Z as Ht by (simpl; lia).
  assert (transition v ≠ "reload") as Hr by done.
  split_and!; [done..| |];
    by apply (X2_collectVisits_complete 0 1000 laterFirstFetched item visits v).
Defined.

Lemma X3_collectVisits_first_seen_wins_witness :
  let item := mkHistoryItem (Some "https://a.example/") (Some "A") in
  let item' := mkHistoryItem (Some "https://b.example/") (Some "B") in
  let v := mkVisitItem "7" (Some "0") 200 "typed" in
  let late := mkVisitItem "7" (Some "0") 400 "link" in
  (0 ≤ visitTime v ≤ 1000)%Z ∧ transition v ≠ "reload" ∧
  entry (collectVisits 0 1000 ([] ++ (item, [] ++ v :: []) :: [(item', [late])]))
        (visitId v) = Some (mkNodeData v (Some item)).
Proof.
  intros item item' v late.
  assert (0 ≤ visitTime v ≤ 1000)%Z as Ht by (simpl; lia).
  assert (transition v ≠ "reload") as Hr by done.
  split_and!; [done..|].
  apply (X3_collectVisits_first_seen_wins 0 1000 [] item [] v [] [(item', [late])]);
    [done|done|by intros ? ? ? ?%elem_of_nil|by intros ? ?%elem_of_nil].
Defined.

(** ** The tree builder *)

Section builder_more.

Implicit Types (m : VisitMap) (x p : string).

Lemma truthy_true (s : string) : truthy s = true ↔ s ≠ EmptyString.
Proof. unfold truthy. destruct (String.eqb_spec s EmptyString); naive_solver. Qed.

Lemma referrer_Some m x p :
  NoDup (keys m) →
  referrer m x = Some p ↔
  ∃ v, (x, v) ∈ m ∧ referringVisitId (visitData v) = Some p ∧
       p ≠ EmptyString ∧ p ≠ "0" ∧ p ∈ keys m.
Proof.
  intros Hnd. unfold referrer, resolveReferrer. split.
  - destruct (entry m x) as [v|] eqn:Hv; [|done]. cbn [mbind option_bind].
    destruct (referringVisitId (visitData v)) as [r|] eqn:Hr; [|done].
    case_match eqn:Hc; [|done]. intros [= ->].
    apply andb_prop in Hc as [[Ht H0]%andb_prop Hk%bool_decide_eq_true].
    exists v. split_and!; [by apply entry_Some|done|by apply truthy_true| |].
    + apply negb_true_iff in H0. by destruct (String.eqb_spec p "0").
    + by apply createNodes_is_Some.
  - intros (v & Hv%entry_Some & Hr & He & H0 & Hk); [|done]. rewrite Hv.
    cbn [mbind option_bind]. rewrite Hr.
    rewrite (proj2 (truthy_true p)) by done.
    destruct (String.eqb_spec p "0"); [done|]. cbn [negb andb].
    by rewrite bool_decide_eq_true_2 by (by apply createNodes_is_Some).
Qed.

Lemma referrer_None m x v :
  NoDup (keys m) → (x, v) ∈ m →
  referrer m x = None ↔
  match referringVisitId (visitData v) with
  | None => True
  | Some r => r = EmptyString ∨ r = "0" ∨ r ∉ keys m
  end.
Proof.
  intros Hnd Hv. destruct (referrer m x) as [p|] eqn:Hp.
  - apply referrer_Some in Hp as (v' & Hv' & Hr & He & H0 & Hk); [|done].
    assert (v' = v) as ->.
    { apply entry_Some in Hv, Hv'; try done. congruence. }
    rewrite Hr. naive_solver.
  - split; [|done]. intros _.
    destruct (referringVisitId (visitData v)) as [r|] eqn:Hr; [|done].
    destruct (decide (r = EmptyString)); [by left|].
    destruct (decide (r = "0")); [by right; left|]. right. right. intros Hk.
    assert (referrer m x = Some r) as Hsome; [|congruence].
    apply referrer_Some; [done|]. by exists v.
Qed.

(** X4: the roots.  A visit of the mapping ends up in the final root
    array iff its referrer is absent, the empty string, the sentinel "0"
    or not a key of the mapping; the roots stand in mapping order without
    repetition, and the refinement after the linking pass removes none of
    the roots the linking pass collected. *)
Theorem X4_roots_are_the_unresolved_visits m :
  NoDup (keys m) →
  (∀ x v, (x, v) ∈ m →
     (x ∈ (buildTree m).2 ↔
      match referringVisitId (visitData v) with
      | None => True
      | Some r => r = EmptyString ∨ r = "0" ∨ r ∉ keys m
      end)) ∧
  (∀ x, x ∈ (buildTree m).2 → x ∈ keys m) ∧
  sublist (buildTree m).2 (keys m) ∧
  NoDup (buildTree m).2 ∧
  (buildTree m).2 = (linkNodes m).2.
Proof.
  intros Hnd. rewrite buildTree_spec, linkNodes_spec by done. cbn [snd].
  unfold tops. split_and!.
  - intros x v Hv. rewrite list_elem_of_filter, <-(referrer_None m x v) by done.
    split; [naive_solver|]. intros H. split; [done|].
    apply list_elem_of_fmap. by exists (x, v).
  - intros x. rewrite list_elem_of_filter. naive_solver.
  - apply sublist_filter.
  - by apply NoDup_filter.
  - done.
Qed.

(** X5: the children arrays.  The node object of visit [p] carries the id
    and the entry of [p]; its children are exactly the visits whose
    referrer is [p] (for [p] neither empty nor "0"), in mapping order and
    without repetition; no visit is in the children arrays of two
    different nodes. *)
Theorem X5_children_are_the_referred_visits m p o :
  NoDup (keys m) → (buildTree m).1 !! p = Some o →
  obj_id o = p ∧
  entry m p = Some (obj_data o) ∧
  (∀ x, x ∈ obj_children o ↔
        ∃ v, (x, v) ∈ m ∧ referringVisitId (visitData v) = Some p ∧
             p ≠ EmptyString ∧ p ≠ "0") ∧
  sublist (obj_children o) (keys m) ∧
  NoDup (obj_children o) ∧
  (∀ p' o' x, (buildTree m).1 !! p' = Some o' →
              x ∈ obj_children o → x ∈ obj_children o' → p' = p).
Proof.
  intros Hnd. rewrite buildTree_spec by done. cbn [fst]. intros Ho.
  assert (p ∈ keys m) as Hp by (apply (linked_is_Some m (keys m)); eauto).
  destruct (linked_children _ _ _ Ho) as [Hid Hkids].
  split_and!.
  - done.
  - rewrite linked_lookup in Ho. destruct (createNodes m !! p) as [o0|] eqn:Ho0; [|done].
    destruct (createNodes_lookup _ _ _ Ho0) as (_ & _ & Hin).
    apply entry_Some; [done|]. simpl in Ho. by injection Ho as <-.
  - intros x. rewrite Hkids, elem_of_kids, referrer_Some by done. naive_solver.
  - rewrite Hkids. apply sublist_filter.
  - rewrite Hkids. by apply NoDup_kids.
  - intros p' o' x Ho' Hx Hx'. destruct (linked_children _ _ _ Ho') as [_ Hkids'].
    rewrite Hkids, elem_of_kids in Hx. rewrite Hkids', elem_of_kids in Hx'. congruence.
Qed.

Lemma at_depth_ancestor_None m d x :
  at_depth m d x = true → ancestor m (S d) x = None.
Proof.
  revert x. induction d as [|d IH]; intros x.
  - rewrite at_depth_0. simpl. by intros ->.
  - rewrite at_depth_S. intros (p & Hp & Hd). cbn [ancestor]. rewrite Hp.
    cbn [mbind option_bind]. by apply IH.
Qed.

Lemma builtForest_ids m forest :
  NoDup (keys m) → builtForest m = Some forest →
  NoDup (forest_ids forest) ∧
  (∀ x, x ∈ forest_ids forest ↔ x ∈ keys m ∧ ∃ n, ancestor m n x = None).
Proof.
  intros Hnd Hf. unfold builtForest in Hf. rewrite buildTree_spec in Hf by done.
  rewrite size_linked in Hf by done.
  assert (forest_ids forest ≡ₚ seq 0 (length (keys m)) ≫= level m) as Hperm.
  { rewrite (toTree_ids _ _ _ _ Hf), tops_level. by apply walk_levels. }
  split.
  - rewrite Hperm. apply NoDup_bind; [|intros; by apply NoDup_level|apply NoDup_seq].
    intros k1 k2 y _ _ [_ H1]%elem_of_level [_ H2]%elem_of_level.
    by eapply at_depth_unique.
  - intros x. rewrite Hperm, list_elem_of_bind. split.
    + intros (k & [Hx Hd]%elem_of_level & _). split; [done|].
      exists (S k). by apply at_depth_ancestor_None.
    + intros (Hx & n & Hn). destruct (ancestor_None_depth _ _ _ Hn) as (d & _ & Hd).
      exists d. rewrite elem_of_level, elem_of_seq. split; [done|].
      pose proof (at_depth_lt m d x Hx Hd). lia.
Qed.

(** X6: the forest without the precondition of acyclicity.  For every
    mapping with one entry per key the forest below the final roots is
    finite and is read off completely; no visit id occurs in it twice,
    and a visit is in it iff following its referrers leaves the
    mapping after finitely many steps: the visits on a referrer cycle and
    all visits leading to one are dropped. *)
Theorem X6_forest_is_the_rooted_part m :
  NoDup (keys m) →
  ∃ forest, builtForest m = Some forest ∧
            NoDup (forest_ids forest) ∧
            (∀ x, x ∈ forest_ids forest ↔
                  x ∈ keys m ∧ ∃ n, ancestor m n x = None).
Proof.
  intros Hnd. destruct (builtForest_total m Hnd) as [forest Hf]. exists forest.
  split; [done|]. by apply builtForest_ids.
Qed.

End builder_more.

Lemma X4_roots_are_the_unresolved_visits_witness :
  NoDup (keys demoMap) ∧
  (buildTree demoMap).2 = ["1"; "4"] ∧
  sublist (buildTree demoMap).2 (keys demoMap) ∧
  (buildTree demoMap).2 = (linkNodes demoMap).2.
Proof.
  assert (NoDup (keys demoMap)) as Hnd.
  { apply (bool_decide_unpack _). vm_compute. exact I. }
  destruct (X4_roots_are_the_unresolved_visits demoMap Hnd) as (_ & _ & Hsub & _ & Heq).
  split_and!; [done|by vm_compute|done|done].
Defined.

Lemma X5_children_are_the_referred_visits_witness :
  NoDup (keys demoMap) ∧
  ∃ o, (buildTree demoMap).1 !! "1" = Some o ∧
       obj_children o = ["2"; "3"] ∧
       obj_id o = "1" ∧
       sublist (obj_children o) (keys demoMap) ∧
       NoDup (obj_children o).
Proof.
  assert (NoDup (keys demoMap)) as Hnd.
  { apply (bool_decide_unpack _). vm_compute. exact I. }
  split; [done|].
  destruct ((buildTree demoMap).1 !! "1") as [o|] eqn:Ho; [|by vm_compute in Ho].
  exists o.
  destruct (X5_children_are_the_referred_visits demoMap "1" o Hnd Ho)
    as (Hid & _ & _ & Hsub & Hnd' & _).
  split_and!; [done| |done..]. vm_compute in Ho. by simplify_eq.
Defined.

Lemma X6_forest_is_the_rooted_part_witness :
  NoDup (keys cyclicMap) ∧
  ∃ forest, builtForest cyclicMap = Some forest ∧
            NoDup (forest_ids forest) ∧
            (∀ x, x ∈ forest_ids forest ↔
                  x ∈ keys cyclicMap ∧ ∃ n, ancestor cyclicMap n x = None).
Proof.
  assert (NoDup (keys cyclicMap)) as Hnd.
  { apply (bool_decide_unpack _). vm_compute. exact I. }
  split; [done|]. by apply (X6_forest_is_the_rooted_part cyclicMap).
Defined.

(** ** The duplicate collapser *)

Section collapser_more.

Lemma sublist_bind_l {A B} (f : A → list B) (l1 l2 : list A) :
  sublist l1 l2 → sublist (l1 ≫= f) (l2 ≫= f).
Proof.
  induction 1 as [|x l1 l2 _ IH|x l1 l2 _ IH]; [done|..]; cbn [mbind list_bind].
  - by apply sublist_app.
  - by apply sublist_inserts_l.
Qed.

Lemma sublist_bind_pointwise {A B} (f g : A → list B) (l : list A) :
  Forall (λ x, sublist (f x) (g x)) l → sublist (l ≫= f) (l ≫= g).
Proof.
  induction 1 as [|x l Hx _ IH]; [done|]. cbn [mbind list_bind]. by apply sublist_app.
Qed.

Lemma fmap_list_bind {A B C} (f : B → C) (g : A → list B) (l : list A) :
  f <$> (l ≫= g) = l ≫= λ x, f <$> g x.
Proof.
  induction l as [|x l IH]; [done|]. cbn [mbind list_bind]. by rewrite fmap_app, IH.
Qed.

Lemma collapse_sublist arr : sublist (collapse arr) arr.
Proof.
  induction arr as [|a rest IH]; [done|]. simpl.
  destruct (same_url _ _); by constructor.
Qed.

Lemma collapse_last arr : last (collapse arr) = last arr.
Proof.
  induction arr as [|a rest IH]; [done|]. simpl.
  destruct (same_url (Some a) (head rest)) eqn:Ha.
  - rewrite IH. destruct rest as [|b rest]; [|done].
    by rewrite same_url_None_r in Ha.
  - by rewrite !last_cons, IH.
Qed.

Lemma collapse_no_adjacent arr i :
  same_url (collapse arr !! i) (collapse arr !! (i + 1)) = false.
Proof.
  revert i. induction arr as [|a rest IH]; intros i.
  { simpl. by rewrite !lookup_nil. }
  simpl. destruct (same_url (Some a) (head rest)) eqn:Ha; [done|].
  destruct i as [|i]; [|apply IH]. simpl.
  by rewrite <-head_lookup, collapse_head.
Qed.

Lemma collapse_fixed arr :
  collapse arr = arr ↔ ∀ i, same_url (arr !! i) (arr !! (i + 1)) = false.
Proof.
  split.
  - intros <-. apply collapse_no_adjacent.
  - induction arr as [|a rest IH]; [done|]. intros Hno. simpl.
    pose proof (Hno 0) as H0. simpl in H0. rewrite <-head_lookup in H0. rewrite H0.
    f_equal. apply IH. intros i. apply (Hno (S i)).
Qed.

(** X7: one collapsing pass over an array of siblings, for a children
    array as for the root list.  The pass only removes entries, keeping
    the order of the others; the last sibling is never removed; afterwards
    no two neighbours pass the URL test; and the pass changes nothing
    exactly when no two neighbours of the array pass the URL test. *)
Theorem X7_collapse_leaves_no_adjacent_duplicates (arr : list TreeNode) :
  collapseRoots arr = collapseChildren arr ∧
  sublist (collapseChildren arr) arr ∧
  last (collapseChildren arr) = last arr ∧
  (∀ i, same_url (collapseChildren arr !! i) (collapseChildren arr !! (i + 1))
        = false) ∧
  (collapseChildren arr = arr ↔
   ∀ i, same_url (arr !! i) (arr !! (i + 1)) = false).
Proof.
  rewrite collapseRoots_collapse, collapseChildren_collapse.
  split_and!; [done|apply collapse_sublist|apply collapse_last|
               apply collapse_no_adjacent|apply collapse_fixed].
Qed.

Lemma tree_nodes_unfold i d cs :
  tree_nodes (mkTreeNode i d cs) = mkTreeNode i d cs :: (cs ≫= tree_nodes).
Proof. done. Qed.

Lemma collapseTree_labels t :
  sublist (label <$> tree_nodes (collapseTree t)) (label <$> tree_nodes t).
Proof.
  induction t as [i d cs IH] using TreeNode_forall_ind.
  rewrite collapseTree_unfold. destruct (length cs <? 2); [done|].
  rewrite !tree_nodes_unfold, !fmap_cons. apply sublist_skip.
  rewrite list_fmap_bind, !fmap_list_bind.
  etrans; [|apply sublist_bind_l, collapse_sublist].
  apply sublist_bind_pointwise. apply collapse_Forall.
  eapply Forall_impl; [done|]. by intros c Hc.
Qed.

Lemma collapsePass_labels f :
  sublist (label <$> forest_nodes (collapsePass f)) (label <$> forest_nodes f).
Proof.
  rewrite collapsePass_collapse, collapse_fmap by apply node_url_collapseTree.
  unfold forest_nodes. rewrite list_fmap_bind, !fmap_list_bind.
  etrans; [|apply sublist_bind_l, collapse_sublist].
  apply sublist_bind_pointwise, Forall_forall. intros t _. apply collapseTree_labels.
Qed.

Lemma collapseTree_children_no_adjacent t i :
  same_url (children (collapseTree t) !! i) (children (collapseTree t) !! (i + 1))
  = false.
Proof.
  destruct t as [j d cs]. simpl. destruct (length cs <? 2) eqn:Hlen.
  - simpl. apply Nat.ltb_lt in Hlen.
    rewrite (lookup_ge_None_2 cs (i + 1)) by lia. apply same_url_None_r.
  - simpl. apply collapse_no_adjacent.
Qed.

(** X8: the collapsing step on a forest.  The nodes of the result are
    nodes of the forest, with id and payload unchanged and in their order:
    the step adds, changes and reorders nothing; a forest that is not
    empty stays so, its last root is kept; afterwards no two neighbouring
    roots pass the URL test, and no two neighbouring children of a root
    do. *)
Theorem X8_collapsePass_only_removes (f : Forest) :
  sublist (label <$> forest_nodes (collapsePass f)) (label <$> forest_nodes f) ∧
  label <$> last (collapsePass f) = label <$> last f ∧
  (f ≠ [] → collapsePass f ≠ []) ∧
  (∀ i, same_url (collapsePass f !! i) (collapsePass f !! (i + 1)) = false) ∧
  Forall (λ root, ∀ i, same_url (children root !! i) (children root !! (i + 1))
                       = false)
         (collapsePass f).
Proof.
  assert (label <$> last (collapsePass f) = label <$> last f) as Hlast.
  { rewrite collapsePass_collapse, collapse_last, fmap_last.
    destruct (last f) as [[i d cs]|]; [|done]. simpl.
    by destruct (length cs <? 2). }
  split_and!.
  - apply collapsePass_labels.
  - done.
  - intros Hf Hnil. rewrite Hnil in Hlast. destruct f as [|t f] using rev_ind; [done|].
    by rewrite last_snoc in Hlast.
  - rewrite collapsePass_collapse. apply collapse_no_adjacent.
  - rewrite collapsePass_collapse. apply collapse_Forall, Forall_fmap, Forall_forall.
    intros t _ i. apply collapseTree_children_no_adjacent.
Qed.

End collapser_more.

(** ** The search projector *)

Section projector_more.

Context `{engine : !LowerCase}.

Lemma append_assoc_string (s1 s2 s3 : string) :
  String.append (String.append s1 s2) s3 = String.append s1 (String.append s2 s3).
Proof. induction s1 as [|c s1 IH]; [done|]. by rewrite !append_cons, IH. Qed.

Lemma includes_trans (s q2 q1 : string) :
  includes s q2 = true → includes q2 q1 = true → includes s q1 = true.
Proof.
  rewrite !includes_spec. intros (pre2 & post2 & ->) (pre1 & post1 & ->).
  exists (String.append pre2 pre1), (String.append post1 post2).
  by rewrite !append_assoc_string.
Qed.

Lemma append_empty_r (s : string) : String.append s EmptyString = s.
Proof. induction s as [|c s IH]; [done|]. by rewrite append_cons, IH. Qed.

Lemma includes_refl (s : string) : includes s s = true.
Proof.
  apply includes_spec. exists EmptyString, EmptyString.
  by rewrite append_empty_r.
Qed.

Lemma nodeMatches_mono (q1 q2 : string) (item : HistoryItem) :
  includes q2 q1 = true → nodeMatches q2 item = true → nodeMatches q1 item = true.
Proof.
  unfold nodeMatches. rewrite !orb_true_iff. intros Hq [H|H]; [left|right];
    by eapply includes_trans.
Qed.

Lemma omap_omap {A B C} (f : A → option B) (g : B → option C) (l : list A) :
  omap g (omap f l) = omap (λ x, f x ≫= g) l.
Proof.
  induction l as [|x l IH]; [done|]. cbn [omap list_omap].
  destruct (f x) as [y|]; cbn [omap list_omap mbind option_bind]; [|done].
  change (list_omap _ _ ?h ?k) with (omap h k) in *. by rewrite IH.
Qed.

Lemma cloneIfRetained_refine (q1 q2 : string) (t : TreeNode) :
  includes q2 q1 = true →
  cloneIfRetained q1 t ≫= cloneIfRetained q2 = cloneIfRetained q2 t.
Proof.
  intros Hq. induction t as [i d cs IH] using TreeNode_forall_ind.
  cbn [cloneIfRetained].
  change (list_omap _ _ ?h ?k) with (omap h k).
  destruct (d ≫= historyItem) as [item|] eqn:Hitem; [|done].
  assert (omap (cloneIfRetained q2) (omap (cloneIfRetained q1) cs) =
          omap (cloneIfRetained q2) cs) as Hcs.
  { rewrite omap_omap. apply list_omap_ext, Forall_Forall2_diag.
    eapply Forall_impl; [done|]. by intros c ->. }
  destruct (nodeMatches q1 item || (0 <? length (omap (cloneIfRetained q1) cs)))
    eqn:Hkeep.
  - cbn [mbind option_bind cloneIfRetained].
    change (list_omap _ _ ?h ?k) with (omap h k).
    by rewrite Hitem, Hcs.
  - cbn [mbind option_bind]. apply orb_false_elim in Hkeep as [Hm Hlen].
    assert (omap (cloneIfRetained q1) cs = []) as Hnil.
    { apply Nat.ltb_ge in Hlen. apply length_zero_iff_nil. lia. }
    rewrite Hnil in Hcs. simpl in Hcs. rewrite <-Hcs.
    destruct (nodeMatches q2 item) eqn:Hm2; [|done].
    by rewrite (nodeMatches_mono q1 q2 item) in Hm.
Qed.

Lemma includes_empty_l (q : string) : includes EmptyString q = true → q = EmptyString.
Proof.
  rewrite includes_spec. intros (pre & post & H). destruct pre; [|done].
  by destruct q.
Qed.

(** X9: searching within a search result.  Projecting a projection again
    with the same search text changes nothing; and when the search text
    [q2] contains the search text [q1], projecting the projection for [q1]
    with [q2] gives what projecting the forest itself with [q2] gives: a
    longer search text only narrows the result of a shorter one. *)
Theorem X9_refining_the_search_narrows (f : Forest) (q1 q2 : string) :
  filterAndCloneTree (filterAndCloneTree f q1) q1 = filterAndCloneTree f q1 ∧
  (includes q2 q1 = true →
   filterAndCloneTree (filterAndCloneTree f q1) q2 = filterAndCloneTree f q2).
Proof.
  assert (∀ q, includes q q1 = true →
    filterAndCloneTree (filterAndCloneTree f q1) q = filterAndCloneTree f q) as H.
  { intros q Hq. unfold filterAndCloneTree.
    destruct (truthy q1) eqn:H1; [|done].
    destruct (truthy q) eqn:H2.
    - rewrite omap_omap. apply list_omap_ext, Forall_Forall2_diag, Forall_forall.
      intros t _. by apply cloneIfRetained_refine.
    - assert (q = EmptyString) as ->.
      { unfold truthy in H2. apply negb_false_iff in H2. by apply String.eqb_eq. }
      apply includes_empty_l in Hq as ->. done. }
  split; [apply H, includes_refl|apply H].
Qed.

End projector_more.

Section projector_more_examples.

#[local] Existing Instance asciiLowerCase.

Lemma X9_refining_the_search_narrows_witness :
  includes "news.example/s" "news" = true ∧
  filterAndCloneTree (filterAndCloneTree demoForest "news") "news.example/s" =
  filterAndCloneTree demoForest "news.example/s".
Proof.
  split; [reflexivity|].
  apply (X9_refining_the_search_narrows demoForest "news" "news.example/s").
  reflexivity.
Defined.

End projector_more_examples.

(** ** The renderer and the rebuild *)

Section renderer_more.

Context `{engine : !LowerCase}.

Lemma bind_Permutation_pointwise {A B} (f g : A → list B) (l : list A) :
  Forall (λ x, f x ≡ₚ g x) l → l ≫= f ≡ₚ l ≫= g.
Proof.
  induction 1 as [|x l Hx _ IH]; [done|]. cbn [mbind list_bind]. by rewrite Hx, IH.
Qed.

Lemma renderNode_labels t :
  label <$> tree_nodes (renderNode t) ≡ₚ label <$> tree_nodes t.
Proof.
  induction t as [i d cs IH] using TreeNode_forall_ind.
  rewrite renderNode_unfold, !tree_nodes_unfold, !fmap_cons. apply Permutation_skip.
  rewrite !fmap_list_bind, stableSort_Permutation, list_fmap_bind.
  by apply bind_Permutation_pointwise.
Qed.

Lemma renderNode_children_sorted t :
  Forall (λ n, StronglySorted oldest_first (children n)) (tree_nodes (renderNode t)).
Proof.
  induction t as [i d cs IH] using TreeNode_forall_ind.
  rewrite renderNode_unfold, tree_nodes_unfold. apply Forall_cons. split.
  - cbn [children].
    apply StronglySorted_stableSort;
      [apply oldest_first_trans|apply oldest_first_total].
  - apply Forall_bind. rewrite stableSort_Permutation. by apply Forall_fmap.
Qed.

Lemma sortForRender_labels f :
  label <$> forest_nodes (sortForRender f) ≡ₚ label <$> forest_nodes f.
Proof.
  unfold sortForRender, forest_nodes.
  rewrite !fmap_list_bind, list_fmap_bind, stableSort_Permutation.
  apply bind_Permutation_pointwise, Forall_forall. intros t _. apply renderNode_labels.
Qed.

Lemma tree_ids_nodes t : tree_ids t = node_id <$> tree_nodes t.
Proof.
  induction t as [i d cs IH] using TreeNode_forall_ind.
  rewrite tree_nodes_unfold, fmap_cons, fmap_list_bind. cbn [tree_ids node_id].
  f_equal. by apply Forall_bind_ext.
Qed.

Lemma forest_ids_labels f : forest_ids f = fst <$> (label <$> forest_nodes f).
Proof.
  unfold forest_ids, forest_nodes. rewrite <-list_fmap_compose, fmap_list_bind.
  apply Forall_bind_ext, Forall_forall. intros t _. apply tree_ids_nodes.
Qed.

(** X10: the order in which a forest is rendered.  The roots are shown
    most recent first, the children of every node oldest first, and the
    nodes shown are those of the forest, each as often as it is there, with
    id and payload unchanged. *)
Theorem X10_rendered_order (f : Forest) :
  StronglySorted newest_first (sortForRender f) ∧
  Forall (λ n, StronglySorted oldest_first (children n))
         (forest_nodes (sortForRender f)) ∧
  label <$> forest_nodes (sortForRender f) ≡ₚ label <$> forest_nodes f ∧
  forest_ids (sortForRender f) ≡ₚ forest_ids f ∧
  length (sortForRender f) = length f.
Proof.
  split_and!.
  - apply sortForRender_sorted.
  - unfold sortForRender, forest_nodes. apply Forall_bind, Forall_fmap, Forall_forall.
    intros t _. apply renderNode_children_sorted.
  - apply sortForRender_labels.
  - by rewrite !forest_ids_labels, sortForRender_labels.
  - apply sortForRender_length.
Qed.

(** X11: what [renderFilteredTree] leaves on the page, for the trimmed
    value [q] of the search input.  The loading indicator is off.  When
    the projection of the stored forest is not empty it is shown, sorted
    for rendering.  When it is empty a text is shown: for a non-empty
    search text that nothing matches it, quoting the text as typed, for
    the empty search text that there are no items, and then the stored
    forest is empty; the text that all items were filtered out by the
    options is never shown, and the display is never left blank. *)
Theorem X11_what_is_displayed (q : string) (p : Page) :
  let shown := filterAndCloneTree (currentFullTree p) (toLowerCase q) in
  let p' := renderFilteredTree q p in
  loadingShown p' = false ∧
  (shown ≠ [] → historyTreeDiv p' = ShowTree (sortForRender shown)) ∧
  (shown = [] → truthy q = true →
   ∃ text, historyTreeDiv p' = ShowText (NoMatchFor text)) ∧
  (shown = [] → truthy q = true → historyTreeDiv p' = ShowText (NoMatchFor q)) ∧
  (shown = [] → truthy q = false →
   historyTreeDiv p' = ShowText NoItems ∧ currentFullTree p = []) ∧
  historyTreeDiv p' ≠ ShowText AllFilteredOut ∧
  historyTreeDiv p' ≠ Blank.
Proof.
  intros shown p'. subst shown p'. unfold renderFilteredTree.
  destruct (filterAndCloneTree (currentFullTree p) (toLowerCase q))
    as [|t shown] eqn:Hshown.
  - cbn [length Nat.ltb Nat.leb historyTreeDiv loadingShown].
    destruct (truthy q) eqn:Hq.
    + split_and!; try done. intros _ _. by eexists.
    + assert (q = EmptyString) as ->.
      { unfold truthy in Hq. apply negb_false_iff in Hq. by apply String.eqb_eq. }
      rewrite toLowerCase_empty in Hshown. unfold filterAndCloneTree in Hshown.
      cbn in Hshown. rewrite Hshown. cbn [length Nat.ltb Nat.leb]. by split_and!.
  - cbn [length Nat.ltb Nat.leb historyTreeDiv loadingShown]. by split_and!.
Qed.

Lemma toTree_entries m fuel x t :
  toTree (linked m (keys m)) fuel x = Some t →
  Forall (λ n, ∃ v, data n = Some v ∧ (node_id n, v) ∈ m) (tree_nodes t).
Proof.
  revert x t. induction fuel as [|fuel IH]; intros x t; [done|].
  cbn [toTree]. destruct (linked m (keys m) !! x) as [o|] eqn:Ho; [|done].
  cbn [mbind option_bind].
  destruct (mapM _ (obj_children o)) as [cs|] eqn:Hcs; [|done]. intros [= <-].
  rewrite tree_nodes_unfold. apply Forall_cons. split.
  - exists (obj_data o). split; [done|]. cbn [node_id].
    destruct (linked_children _ _ _ Ho) as [-> _].
    rewrite linked_lookup in Ho.
    destruct (createNodes m !! x) as [o0|] eqn:Ho0; [|done].
    destruct (createNodes_lookup _ _ _ Ho0) as (_ & _ & Hin).
    simpl in Ho. by injection Ho as <-.
  - apply Forall_bind. apply mapM_Some in Hcs.
    induction Hcs as [|c t' l k Hc _ IHl]; constructor; [by eapply IH|done].
Qed.

Lemma filterAndCloneTree_labels forest q :
  Forall (λ n, intact n = true) (forest_nodes forest) →
  sublist (label <$> forest_nodes (filterAndCloneTree forest q))
          (label <$> forest_nodes forest).
Proof.
  intros Hint. unfold filterAndCloneTree. destruct (truthy q); [|done].
  rewrite projection_nodes by done. apply fmap_sublist, sublist_filter.
Qed.

(** The nodes shown after a rebuild are nodes of the forest the builder
    made, up to their order. *)
Lemma displayed_labels inp forest q :
  processedForest inp = Some forest →
  ∃ built,
    builtForest (collectVisits (startTime inp) (endTime inp) (fetched inp))
      = Some built ∧
    label <$> forest_nodes (sortForRender (filterAndCloneTree forest q))
      ⊆+ label <$> forest_nodes built.
Proof.
  intros Hf. pose proof (processedForest_intact _ _ Hf) as Hint.
  unfold processedForest in Hf.
  destruct (builtForest _) as [built|] eqn:Hb; [|done]. exists built.
  split; [done|]. simpl in Hf. injection Hf as Hf.
  rewrite sortForRender_labels.
  etrans; [apply sublist_submseteq, filterAndCloneTree_labels, Hint|].
  rewrite <-Hf. destruct (shouldFilterDuplicates inp); [|done].
  apply sublist_submseteq, collapsePass_labels.
Qed.

Lemma last_rebuild_ShowTree inp p final f :
  last (fetchAndBuildTree inp p) = Some final → historyTreeDiv final = ShowTree f →
  ∃ forest, processedForest inp = Some forest ∧
            filterAndCloneTree forest (toLowerCase (searchText inp)) ≠ [] ∧
            f = sortForRender
                  (filterAndCloneTree forest (toLowerCase (searchText inp))).
Proof.
  unfold fetchAndBuildTree, startRebuild. destruct (datesValid inp); cbn [negb].
  2:{ by intros [= <-]. }
  unfold afterSearch. destruct (searchOutcome inp) as [message|historyItemsRaw].
  { by intros [= <-]. }
  assert (∀ forest d l,
            historyTreeDiv (renderFilteredTree (searchText inp) (mkPage forest d l))
              = ShowTree f →
            filterAndCloneTree forest (toLowerCase (searchText inp)) ≠ [] ∧
            f = sortForRender
                  (filterAndCloneTree forest (toLowerCase (searchText inp))))
    as Hshow.
  { intros forest d l. unfold renderFilteredTree. cbn [currentFullTree].
    destruct (filterAndCloneTree forest (toLowerCase (searchText inp))); [done|].
    cbn [length Nat.ltb Nat.leb historyTreeDiv]. by intros [= <-]. }
  destruct (length _ =? 0).
  { intros [= <-] [Hne _]%Hshow. unfold filterAndCloneTree in Hne.
    by destruct (truthy _). }
  unfold afterVisits.
  destruct (processedForest inp) as [forest|]; [|by intros [= <-]].
  cbn [fst]. intros [= <-] [Hne ->]%Hshow. by exists forest.
Qed.

(** X12: the tree shown when a rebuild is done.  Whatever the search text
    and the options are, when the rebuild ends showing a tree, the tree
    is not empty, no visit id is shown twice, and every node shown carries
    the entry of the visit mapping for its id: only eligible fetched
    visits are shown, each with the history item it was collected with.
    With the empty search text, the duplicate option off and an acyclic
    referrer relation every visit of the mapping is shown. *)
Theorem X12_displayed_tree_is_sound inp p final f :
  last (fetchAndBuildTree inp p) = Some final →
  historyTreeDiv final = ShowTree f →
  let m := collectVisits (startTime inp) (endTime inp) (fetched inp) in
  f ≠ [] ∧
  NoDup (forest_ids f) ∧
  Forall (λ n, ∃ v, data n = Some v ∧ (node_id n, v) ∈ m) (forest_nodes f) ∧
  (truthy (searchText inp) = false → shouldFilterDuplicates inp = false →
   acyclic m → forest_ids f ≡ₚ keys m).
Proof.
  intros Hlast Hshow m.
  destruct (last_rebuild_ShowTree _ _ _ _ Hlast Hshow) as (forest & Hf & Hne & ->).
  destruct (displayed_labels inp forest (toLowerCase (searchText inp)) Hf)
    as (built & Hb & Hsub).
  fold m in Hb.
  pose proof (collectVisits_NoDup (startTime inp) (endTime inp) (fetched inp)) as Hnd.
  fold m in Hnd.
  destruct (builtForest_ids m built Hnd Hb) as [Hnodup Hmem].
  split_and!.
  - intros Hnil. apply Hne. apply (f_equal length) in Hnil.
    rewrite sortForRender_length in Hnil. by destruct (filterAndCloneTree _ _).
  - rewrite forest_ids_labels in Hnodup |- *.
    apply (fmap_submseteq fst) in Hsub.
    apply submseteq_Permutation in Hsub as [k Hk]. rewrite Hk in Hnodup.
    by apply NoDup_app in Hnodup as [? _].
  - assert (Forall (λ lb : string * option NodeData,
                      ∃ v, lb.2 = Some v ∧ (lb.1, v) ∈ m)
                   (label <$> forest_nodes built)) as Hall.
    { apply Forall_fmap. unfold forest_nodes. apply Forall_bind.
      unfold builtForest in Hb. rewrite buildTree_spec in Hb by done.
      apply mapM_Some in Hb. clear -Hb.
      induction Hb as [|x t l k Hx _ IH]; constructor; [|done].
      by eapply toTree_entries. }
    rewrite Forall_forall in Hall. apply Forall_forall. intros n Hn.
    apply (Hall (label n)). eapply elem_of_submseteq; [|done].
    by apply list_elem_of_fmap_2.
  - intros Hq Hflag Hac. unfold processedForest in Hf. fold m in Hf.
    rewrite Hb, Hflag in Hf. simpl in Hf. injection Hf as <-.
    assert (searchText inp = EmptyString) as ->.
    { unfold truthy in Hq. apply negb_false_iff in Hq. by apply String.eqb_eq. }
    rewrite toLowerCase_empty. unfold filterAndCloneTree. cbn [truthy String.eqb negb].
    rewrite !forest_ids_labels, sortForRender_labels, <-forest_ids_labels.
    apply NoDup_Permutation; [done..|]. intros x. rewrite Hmem.
    split; [naive_solver|]. intros Hx. split; [done|].
    destruct (acyclic_depth m x Hac Hx) as (d & _ & Hd).
    exists (S d). by apply at_depth_ancestor_None.
Qed.

End renderer_more.

Section renderer_more_examples.

#[local] Existing Instance asciiLowerCase.

Lemma X12_displayed_tree_is_sound_witness :
  ∃ final f,
    last (fetchAndBuildTree demoInputs demoPage) = Some final ∧
    historyTreeDiv final = ShowTree f ∧
    f ≠ [] ∧ NoDup (forest_ids f).
Proof.
  eexists _, _. split; [by vm_compute|]. split; [reflexivity|].
  match goal with
  | |- ?f ≠ [] ∧ _ =>
      pose proof (λ final, X12_displayed_tree_is_sound demoInputs demoPage final f)
        as H
  end.
  edestruct H as (H1 & H2 & _); [by vm_compute|reflexivity|]. by split.
Defined.

(** Roots visited at the same time keep their order, as the sort of the
    language is stable. *)
Example roots_with_equal_time_keep_their_order :
  forest_ids (sortForRender tiedRoots) = ["b"; "a"; "c"].
Proof. reflexivity. Qed.

(** Two rebuilds that overlap: the second one ends while the first one is
    still suspended in its history query, and the slot then holds the
    forest of the second; when the first one ends, its forest replaces
    that of the second. *)
Example overlapping_rebuilds_last_completed_wins :
  let σ := run loadedSystem
             [Trigger demoInputs; Trigger otherInputs; Settle 1; Settle 1] in
  rebuilds σ !! 0 = Some (demoInputs, AwaitingSearch) ∧
  rebuilds σ !! 1 = Some (otherInputs, Stored) ∧
  forest_ids (currentFullTree (pageState σ)) = ["7"] ∧
  forest_ids (currentFullTree (pageState (run σ [Settle 0; Settle 0]))) = ["1"; "2"].
Proof. by vm_compute. Qed.

End renderer_more_examples.

(** ** The first version of the page script *)

Section first_version.

Lemma collapsePass_nil (f : Forest) : collapsePass f = [] ↔ f = [].
Proof.
  split; [|by intros ->]. rewrite collapsePass_collapse. intros Hnil.
  pose proof (collapse_last (collapseTree <$> f)) as Hlast.
  rewrite Hnil, fmap_last in Hlast. destruct f as [|t f] using rev_ind; [done|].
  by rewrite last_snoc in Hlast.
Qed.

Lemma processedForest_roots inp :
  let m := collectVisits (startTime inp) (endTime inp) (fetched inp) in
  ∃ forest, processedForest inp = Some forest ∧ (forest = [] ↔ tops m = []).
Proof.
  intros m.
  pose proof (collectVisits_NoDup (startTime inp) (endTime inp) (fetched inp)) as Hnd.
  fold m in Hnd. destruct (builtForest_total m Hnd) as [built Hb].
  unfold processedForest. fold m. rewrite Hb. cbn [mbind option_bind].
  eexists. split; [done|].
  assert (built = [] ↔ tops m = []) as Hlen.
  { unfold builtForest in Hb. rewrite buildTree_spec in Hb by done.
    apply mapM_Some, Forall2_length in Hb.
    by destruct built, (tops m). }
  destruct (shouldFilterDuplicates inp); [|done]. by rewrite collapsePass_nil.
Qed.

Lemma tops_nil m :
  tops m = [] ↔ ∀ x, x ∈ keys m → is_Some (referrer m x).
Proof.
  unfold tops. split.
  - intros Hnil x Hx. destruct (referrer m x) as [p|] eqn:Hp; [by eexists|].
    assert (x ∈ filter (λ x, referrer m x = None) (keys m)) as Hin
      by (by apply list_elem_of_filter).
    rewrite Hnil in Hin. by apply elem_of_nil in Hin.
  - intros Hall. apply filter_none, Forall_forall. intros x Hx Hnone.
    destruct (Hall x Hx) as [p Hp]. congruence.
Qed.

Lemma at_depth_top m d x :
  x ∈ keys m → at_depth m d x = true → ∃ r, r ∈ tops m.
Proof.
  revert x. induction d as [|d IH]; intros x Hx.
  - rewrite at_depth_0. intros Hr. exists x. by apply list_elem_of_filter.
  - rewrite at_depth_S. intros (p & Hp & Hd).
    destruct (referrer_in_keys _ _ _ Hp) as [_ Hpk]. by apply (IH p).
Qed.

Lemma acyclic_tops m : acyclic m → m ≠ [] → tops m ≠ [].
Proof.
  intros Hac Hm Hnil. destruct m as [|[k v] m]; [done|].
  assert (k ∈ keys ((k, v) :: m)) as Hk by (simpl; left).
  destruct (acyclic_depth _ k Hac Hk) as (d & _ & Hd).
  destruct (at_depth_top _ _ _ Hk Hd) as [r Hr]. rewrite Hnil in Hr.
  by apply elem_of_nil in Hr.
Qed.

(** X13: the text about undetermined root nodes in the first version of
    the page script.  It is what the rebuild ends with exactly when the
    dates are valid, the history query returns an item other than the
    history page, the visit mapping is not empty and every visit of it has
    a referrer resolved inside the mapping; duplicate collapsing never
    brings it about.  With an acyclic referrer relation the text is never
    shown, and a mapping that is not empty is then shown as a tree. *)
Theorem X13_first_version_no_roots_text (inp : Inputs) :
  let m := collectVisits (startTime inp) (endTime inp) (fetched inp) in
  let noRoots :=
    FirstText "Could not determine root nodes or all nodes were filtered out." in
  (fetchAndBuildTreeFirst inp = noRoots ↔
   datesValid inp = true ∧
   (∃ historyItemsRaw,
      searchOutcome inp = SearchReturns historyItemsRaw ∧
      filter (λ item, url item ≠ Some (historyPageUrl inp)) historyItemsRaw ≠ []) ∧
   m ≠ [] ∧
   ∀ x, x ∈ keys m → is_Some (referrer m x)) ∧
  (acyclic m → fetchAndBuildTreeFirst inp ≠ noRoots) ∧
  (acyclic m → m ≠ [] → datesValid inp = true →
   ∀ historyItemsRaw,
     searchOutcome inp = SearchReturns historyItemsRaw →
     filter (λ item, url item ≠ Some (historyPageUrl inp)) historyItemsRaw ≠ [] →
     ∃ f, fetchAndBuildTreeFirst inp = FirstTree f ∧ f ≠ []).
Proof.
  intros m noRoots.
  destruct (processedForest_roots inp) as (forest & Hf & Hroots). fold m in Hroots.
  assert (fetchAndBuildTreeFirst inp = noRoots ↔
          datesValid inp = true ∧
          (∃ historyItemsRaw,
             searchOutcome inp = SearchReturns historyItemsRaw ∧
             filter (λ item, url item ≠ Some (historyPageUrl inp)) historyItemsRaw
               ≠ []) ∧
          m ≠ [] ∧ tops m = []) as Hiff.
  { unfold fetchAndBuildTreeFirst. fold m. rewrite Hf.
    destruct (datesValid inp); cbn [negb]; [|naive_solver].
    destruct (searchOutcome inp) as [message|historyItemsRaw].
    { split; [by rewrite append_cons|]. by intros (_ & (? & ? & _) & _). }
    destruct (filter _ historyItemsRaw) as [|item items] eqn:Hitems.
    { cbn [length Nat.eqb]. split; [done|]. intros (_ & (raw & [= <-] & Hne) & _).
      by rewrite Hitems in Hne. }
    cbn [length Nat.eqb].
    destruct forest as [|t forest].
    - cbn [length Nat.ltb Nat.leb]. destruct m as [|e m'] eqn:Hm.
      + cbn [length Nat.ltb Nat.leb]. split; [done|]. by intros (_ & _ & ? & _).
      + cbn [length Nat.ltb Nat.leb]. split; [|done]. intros _.
        split_and!; [done| |done|by apply Hroots].
        exists historyItemsRaw. by rewrite Hitems.
    - cbn [length Nat.ltb Nat.leb]. split; [done|].
      intros (_ & _ & _ & Htops). by apply Hroots in Htops. }
  split_and!.
  - by rewrite Hiff, tops_nil.
  - intros Hac [_ (_ & Hm & Htops)]%Hiff. by apply (acyclic_tops m).
  - intros Hac Hm Hdates historyItemsRaw Hsearch Hitems.
    unfold fetchAndBuildTreeFirst. fold m. rewrite Hf, Hdates, Hsearch. cbn [negb].
    destruct (filter _ historyItemsRaw); [done|]. cbn [length Nat.eqb].
    destruct forest as [|t forest].
    + exfalso. apply (acyclic_tops m Hac Hm). by apply Hroots.
    + cbn [length Nat.ltb Nat.leb]. eexists. split; [done|].
      intros Hnil. apply (f_equal length) in Hnil.
      by rewrite sortForRender_length in Hnil.
Qed.

End first_version.

Lemma X13_first_version_no_roots_text_witness :
  fetchAndBuildTreeFirst
    (mkInputs true 0 1000 "chrome-extension://viewer/history.html" true EmptyString
       (SearchReturns [mkHistoryItem (Some "https://a.example/") (Some "A")])
       [(mkHistoryItem (Some "https://a.example/") (Some "A"),
         [mkVisitItem "1" (Some "2") 100 "link";
          mkVisitItem "2" (Some "1") 200 "link"])])
  = FirstText "Could not determine root nodes or all nodes were filtered out.".
Proof.
  apply X13_first_version_no_roots_text. split_and!.
  - reflexivity.
  - eexists. split; [reflexivity|]. by vm_compute.
  - by vm_compute.
  - intros x Hx. vm_compute in Hx.
    apply elem_of_cons in Hx as [->|Hx]; [by vm_compute; eexists|].
    apply elem_of_cons in Hx as [->|Hx]; [by vm_compute; eexists|].
    by apply elem_of_nil in Hx.
Defined.

(** ** The selection range tracker *)

Section selection_more.

Lemma indexOf_spec (arr : list elem) (x : elem) :
  (indexOf arr x = (-1)%Z ∧ x ∉ arr) ∨
  (∃ i : nat, indexOf arr x = Z.of_nat i ∧ arr !! i = Some x).
Proof.
  induction arr as [|y arr IH]; cbn [indexOf].
  - left. split; [done|]. apply not_elem_of_nil.
  - destruct (decide (y = x)) as [->|Hne].
    + rewrite bool_decide_eq_true_2 by done. right. by exists 0.
    + rewrite bool_decide_eq_false_2 by done.
      destruct IH as [[-> Hnot]|(i & -> & Hi)].
      * left. split; [done|]. rewrite not_elem_of_cons. naive_solver.
      * right. exists (S i). destruct (Z.ltb_spec (Z.of_nat i) 0); [lia|].
        split; [lia|done].
Qed.

Lemma handleShiftClickLogic_frame shiftKey clicked currentIndex s :
  let s' := state_after (handleShiftClickLogic shiftKey clicked currentIndex s) in
  rendered s' = rendered s ∧
  visibleCheckboxes s' = visibleCheckboxes s ∧
  (∀ box, box ∉ visibleCheckboxes s → checked s' box = checked s box) ∧
  (shiftKey = false →
   handleShiftClickLogic shiftKey clicked currentIndex s = Returns s' ∧
   checked s' = checked s) ∧
  (lastCheckedIndex s' = lastCheckedIndex s ∨
   lastCheckedIndex s' = Some currentIndex).
Proof.
  unfold handleShiftClickLogic. destruct shiftKey.
  - destruct (lastCheckedIndex s) as [anchor|] eqn:Hanchor.
    + destruct (_ && _) eqn:Hcond; cbn.
      * split_and!; [done|done| |done|by left].
        intros box Hbox. apply setRange_outside. intros j Hj.
        destruct Hbox. by eapply list_elem_of_lookup_2.
      * split_and!; [done..|by right].
    + cbn. split_and!; [done..|by left].
  - cbn. split_and!; [done..|by right].
Qed.

(** X14: what a click on a checkbox can change, whether the handler
    returns or throws.  The list of rendered checkboxes is not touched;
    the cached list stays when it holds the clicked checkbox and is
    replaced by the rendered list when it does not; no checkbox outside
    the cached list changes its state, and a click without the shift key
    returns and changes the state of no checkbox at all; the anchor stays
    or becomes an index at which the cached list holds the clicked
    checkbox; and a click on a checkbox that is neither cached nor
    rendered changes neither a state nor the anchor. *)
Theorem X14_click_touches_only_cached_boxes (shiftKey : bool) (clicked : elem)
    (s : Selection) :
  let s' := state_after (handleCheckboxClick shiftKey clicked s) in
  rendered s' = rendered s ∧
  visibleCheckboxes s' =
    (if decide (clicked ∈ visibleCheckboxes s) then visibleCheckboxes s
     else rendered s) ∧
  (∀ box, box ∉ visibleCheckboxes s' → checked s' box = checked s box) ∧
  (shiftKey = false →
   handleCheckboxClick shiftKey clicked s = Returns s' ∧ checked s' = checked s) ∧
  (lastCheckedIndex s' = lastCheckedIndex s ∨
   ∃ a, lastCheckedIndex s' = Some a ∧
        at_index (visibleCheckboxes s') a = Some clicked) ∧
  (clicked ∉ visibleCheckboxes s → clicked ∉ rendered s →
   checked s' = checked s ∧ lastCheckedIndex s' = lastCheckedIndex s).
Proof.
  intros s'. subst s'. unfold handleCheckboxClick.
  destruct (indexOf_spec (visibleCheckboxes s) clicked) as [[-> Hnot]|(i & -> & Hi)].
  - rewrite Z.eqb_refl. cbn [visibleCheckboxes]. rewrite decide_False by done.
    destruct (indexOf_spec (rendered s) clicked) as [[-> Hnot']|(i & -> & Hi)].
    + rewrite Z.eqb_refl. cbn. by split_and!; try left.
    + destruct (Z.eqb_spec (Z.of_nat i) (-1)) as [|_]; [lia|].
      set (s0 := mkSelection (rendered s) (lastCheckedIndex s) (checked s) (rendered s)).
      destruct (handleShiftClickLogic_frame shiftKey clicked (Z.of_nat i) s0)
        as (Hr & Hv & Hout & Hplain & Hanchor).
      rewrite Hr, Hv. split_and!; [done|done|done|done| |].
      * destruct Hanchor as [?|Ha]; [by left|right]. eexists. split; [done|].
        by rewrite at_index_nat.
      * intros _ Hn. destruct Hn. by eapply list_elem_of_lookup_2.
  - destruct (Z.eqb_spec (Z.of_nat i) (-1)) as [|_]; [lia|].
    assert (clicked ∈ visibleCheckboxes s) as Hin by (by eapply list_elem_of_lookup_2).
    rewrite decide_True by done.
    destruct (handleShiftClickLogic_frame shiftKey clicked (Z.of_nat i) s)
      as (Hr & Hv & Hout & Hplain & Hanchor).
    rewrite Hr, Hv. split_and!; [done|done|done|done| |done].
    destruct Hanchor as [?|Ha]; [by left|right]. eexists. split; [done|].
    by rewrite at_index_nat.
Qed.

(** X15: a click followed by a shift-click.  On a cached list without
    repetition, a click without the shift key on the checkbox at index
    [i] returns with the anchor at [i], whether the anchor had a binding
    before or not; a shift-click on the checkbox at index [j] that comes
    next, whatever the states of the checkboxes are by then, returns,
    gives every cached checkbox at an index between [i] and [j], both
    included, the state the clicked checkbox has, leaves all others as
    they are, and keeps the anchor at [i]. *)
Theorem X15_click_then_shift_click (s : Selection) (i j : nat) (a b : elem)
    (states : elem → bool) :
  NoDup (visibleCheckboxes s) →
  visibleCheckboxes s !! i = Some a →
  visibleCheckboxes s !! j = Some b →
  ∃ s1 s2,
    handleCheckboxClick false a s = Returns s1 ∧
    handleCheckboxClick true b
      (mkSelection (visibleCheckboxes s1) (lastCheckedIndex s1) states (rendered s1))
      = Returns s2 ∧
    lastCheckedIndex s1 = Some (Z.of_nat i) ∧
    checked s1 = checked s ∧
    lastCheckedIndex s2 = Some (Z.of_nat i) ∧
    visibleCheckboxes s2 = visibleCheckboxes s ∧
    (∀ (k : nat) box,
       visibleCheckboxes s !! k = Some box →
       checked s2 box =
         if bool_decide (i `min` j ≤ k ≤ i `max` j) then states b else states box) ∧
    (∀ box, box ∉ visibleCheckboxes s → checked s2 box = states box).
Proof.
  intros Hnd Hi Hj.
  rewrite (handleCheckboxClick_found false s i a Hnd Hi), handleShiftClickLogic_plain.
  eexists _, _. split; [done|].
  cbn [visibleCheckboxes lastCheckedIndex rendered checked].
  rewrite (handleCheckboxClick_found true _ j b) by done.
  unfold handleShiftClickLogic.
  cbn [visibleCheckboxes lastCheckedIndex rendered checked].
  pose proof (lookup_lt_Some _ _ _ Hi) as Hlt.
  destruct (Z.eqb_spec (Z.of_nat i) (-1)) as [|_]; [lia|]. cbn [negb andb].
  rewrite (proj2 (Z.ltb_lt _ _)) by lia.
  split; [done|]. cbn [visibleCheckboxes lastCheckedIndex rendered checked].
  split_and!; [done..| |].
  - intros k box Hk. case_bool_decide as Hin.
    + apply (setRange_inside _ _ _ _ _ k); [done|lia].
    + apply setRange_outside. intros k' Hk'.
      assert (k' = k) as -> by (by eapply NoDup_lookup). lia.
  - intros box Hbox. apply setRange_outside. intros k Hk.
    destruct Hbox. by eapply list_elem_of_lookup_2.
Qed.

End selection_more.

Lemma X15_click_then_shift_click_witness :
  let s := mkSelection [10; 11; 12; 13; 14] None (λ _, false) [10; 11; 12; 13; 14] in
  let states := λ e, bool_decide (e = 13) in
  NoDup (visibleCheckboxes s) ∧
  ∃ s1 s2,
    handleCheckboxClick false 11 s = Returns s1 ∧
    handleCheckboxClick true 13
      (mkSelection (visibleCheckboxes s1) (lastCheckedIndex s1) states (rendered s1))
      = Returns s2 ∧
    lastCheckedIndex s2 = Some 1%Z ∧
    ∀ (k : nat) box,
      visibleCheckboxes s !! k = Some box →
      checked s2 box =
        if bool_decide (1 `min` 3 ≤ k ≤ 1 `max` 3) then states 13 else states box.
Proof.
  intros s states.
  assert (NoDup (visibleCheckboxes s)) as Hnd.
  { apply (bool_decide_unpack _). vm_compute. exact I. }
  split; [exact Hnd|].
  destruct (X15_click_then_shift_click s 1 3 11 13 states Hnd eq_refl eq_refl)
    as (s1 & s2 & H1 & H2 & _ & _ & Hanchor & _ & Hrange & _).
  exists s1, s2. split; [exact H1|]. split; [exact H2|].
  split; [exact Hanchor|exact Hrange].
Defined.

(** ** The delete button *)

Section delete_button.

Lemma collectUrls_spec (selectedCheckboxes : list (option string)) :
  NoDup (collectUrls selectedCheckboxes) ∧
  ∀ url, url ∈ collectUrls selectedCheckboxes ↔
         url ≠ EmptyString ∧ Some url ∈ selectedCheckboxes.
Proof.
  unfold collectUrls.
  induction selectedCheckboxes as [|datasetUrl l [IHnd IHin]] using rev_ind.
  { split; [constructor|]. intros url. split; [by intros ?%elem_of_nil|].
    by intros [_ ?%elem_of_nil]. }
  rewrite foldl_snoc. set (acc := foldl _ [] l) in *.
  destruct datasetUrl as [u|].
  2:{ split; [done|]. intros url. rewrite IHin, elem_of_app, list_elem_of_singleton.
      naive_solver. }
  destruct (truthy u) eqn:Hu.
  2:{ split; [done|]. intros url. rewrite IHin, elem_of_app, list_elem_of_singleton.
      split; [naive_solver|]. intros [Hne [?|[= ->]]]; [done|].
      apply truthy_true in Hne. congruence. }
  apply truthy_true in Hu. unfold setAdd. destruct (decide (u ∈ acc)) as [Hin|Hin].
  - split; [done|]. intros url. rewrite IHin, elem_of_app, list_elem_of_singleton.
    split; [naive_solver|]. intros [Hne [?|[= ->]]]; [done|]. by apply IHin in Hin.
  - split.
    + apply NoDup_app. split_and!; [done| |apply NoDup_singleton].
      intros x Hx ->%list_elem_of_singleton. done.
    + intros url. rewrite !elem_of_app, !list_elem_of_singleton, IHin. naive_solver.
Qed.

Lemma deletedUrls_fmap (urls : list string) : deletedUrls (DeleteUrl <$> urls) = urls.
Proof. unfold deletedUrls. induction urls as [|u urls IH]; [done|]. simpl. by f_equal. Qed.

Lemma deletedUrls_app (l1 l2 : list Effect) :
  deletedUrls (l1 ++ l2) = deletedUrls l1 ++ deletedUrls l2.
Proof. apply omap_app. Qed.

(** X16: the delete button.  Every URL handed to the deletion is the
    non-empty URL of a selected checkbox, and after a confirmed dialog
    each such URL is handed over, exactly once however many selected
    checkboxes carry it; nothing is deleted unless the dialog was shown
    and confirmed before; whenever something is deleted the rebuild
    follows last, whether deletions fail or not, and the rebuild happens
    in no other case; the error counter ends as the number of deletions
    that reported an error. *)
Theorem X16_delete_button (selectedCheckboxes : list (option string))
    (confirmed : bool) (lastError : string → bool) :
  let effects := (deleteSelected selectedCheckboxes confirmed lastError).1 in
  let deletionErrors := (deleteSelected selectedCheckboxes confirmed lastError).2 in
  NoDup (deletedUrls effects) ∧
  (∀ url, url ∈ deletedUrls effects ↔
          confirmed = true ∧ url ≠ EmptyString ∧ Some url ∈ selectedCheckboxes) ∧
  (deletedUrls effects ≠ [] →
   effects = Confirm confirmationMessage :: ShowLoading ::
               ((DeleteUrl <$> deletedUrls effects) ++ [Rebuild])) ∧
  (Rebuild ∈ effects ↔ deletedUrls effects ≠ []) ∧
  deletionErrors = length (filter (λ url, lastError url = true) (deletedUrls effects)).
Proof.
  intros effects deletionErrors. subst effects deletionErrors.
  destruct (collectUrls_spec selectedCheckboxes) as [Hnd Hin].
  unfold deleteSelected.
  destruct selectedCheckboxes as [|c l] eqn:Hsel.
  { cbn. split_and!; [constructor| |done| |done].
    - intros url. split; [by intros ?%elem_of_nil|]. by intros (_ & _ & ?%elem_of_nil).
    - split; [|done]. intros Hr. apply list_elem_of_singleton in Hr. done. }
  rewrite <-Hsel in *. assert ((length selectedCheckboxes =? 0) = false) as ->
    by (by rewrite Hsel).
  destruct (collectUrls selectedCheckboxes) as [|u urls] eqn:Hurls.
  { cbn. split_and!; [constructor| |done| |done].
    - intros url. split; [by intros ?%elem_of_nil|]. intros (_ & Hne & Hu).
      by apply (Hin url).
    - split; [|done]. intros Hr. apply list_elem_of_singleton in Hr. done. }
  cbn [length Nat.eqb]. destruct confirmed; cbn [negb fst snd].
  - rewrite (deletedUrls_app [_; _]), deletedUrls_app, deletedUrls_fmap.
    cbn [deletedUrls omap list_omap app]. rewrite app_nil_r.
    split_and!; [done| |done| |done].
    + intros url. rewrite Hin. naive_solver.
    + split; [done|]. intros _. do 2 apply list_elem_of_further.
      apply elem_of_app. right. by apply list_elem_of_singleton.
  - cbn. split_and!; [constructor| |done| |done].
    + intros url. split; [by intros ?%elem_of_nil|]. by intros (? & _).
    + split; [|done]. intros Hr. apply list_elem_of_singleton in Hr. done.
Qed.

End delete_button.

(** ** The suggested maximum of results *)

Section suggested_max.

Local Open Scope Z_scope.

(** X17: the maximum of results suggested for a picked date range.  For
    two time stamps at most 2^27 days apart the number of days counted is
    at least one; it is [n + 1] when the time stamps are [n] days apart up
    to less than half a day, as with a change of daylight saving time in
    the range; the suggestion is 500 per day counted, at most 20000, which
    is reached from 40 days on, and never less than 500. *)
Theorem X17_suggested_max (t1 t2 : Z) :
  Z.abs (t2 - t1) < 2 ^ 27 * msPerDay →
  let days := diffDays (Z.abs (t2 - t1)) in
  1 ≤ days ∧
  (∀ n e, 0 ≤ n → - (msPerDay `div` 2) ≤ e < msPerDay `div` 2 →
          Z.abs (t2 - t1) = n * msPerDay + e → days = n + 1) ∧
  suggestedMax days = 500 * Z.min days 40 ∧
  BASE_MAX_RESULTS ≤ suggestedMax days ≤ MAX_RESULTS_CAP ∧
  (∀ days', days ≤ days' → suggestedMax days ≤ suggestedMax days').
Proof.
  intros _ days. subst days. set (t := Z.abs (t2 - t1)).
  assert (0 ≤ t) as Ht by (unfold t; lia).
  assert (1 ≤ diffDays t) as Hdays.
  { unfold diffDays, msPerDay.
    assert (0 ≤ (2 * t + 1000 * 60 * 60 * 24) `div` (2 * (1000 * 60 * 60 * 24)))
      by (apply Z.div_pos; lia). lia. }
  split_and!.
  - done.
  - intros n e Hn He ->. unfold diffDays, msPerDay in *.
    change (1000 * 60 * 60 * 24) with 86400000 in *.
    change (86400000 `div` 2) with 43200000 in He.
    assert ((2 * (n * 86400000 + e) + 86400000) `div` (2 * 86400000) = n) as ->; [|done].
    symmetry. apply (Z.div_unique _ _ _ (2 * e + 86400000)); lia.
  - unfold suggestedMax, BASE_MAX_RESULTS, RESULTS_PER_DAY, MAX_RESULTS_CAP. lia.
  - unfold suggestedMax, BASE_MAX_RESULTS, RESULTS_PER_DAY, MAX_RESULTS_CAP. lia.
  - unfold suggestedMax, BASE_MAX_RESULTS, RESULTS_PER_DAY, MAX_RESULTS_CAP. lia.
  - intros days' Hle.
    unfold suggestedMax, BASE_MAX_RESULTS, RESULTS_PER_DAY, MAX_RESULTS_CAP. lia.
Qed.

End suggested_max.

Lemma X17_suggested_max_witness :
  (Z.abs (1700003600000 - 1699833600000) < 2 ^ 27 * msPerDay)%Z ∧
  diffDays (Z.abs (1700003600000 - 1699833600000)) = 3%Z ∧
  suggestedMax (diffDays (Z.abs (1700003600000 - 1699833600000))) = 1500%Z.
Proof.
  assert (Z.abs (1700003600000 - 1699833600000) < 2 ^ 27 * msPerDay)%Z as Hb
    by (by vm_compute).
  split; [exact Hb|].
  destruct (X17_suggested_max 1699833600000 1700003600000 Hb) as (_ & _ & Hmax & _).
  split; [reflexivity|]. rewrite Hmax. reflexivity.
Defined.
